(** * github_releases.py: a shallow embedding and its verified properties

    The script fetches the releases of a GitHub repository page by page,
    keeps the ones published on or after a start date whose tag parses as a
    version (optionally under a [pkg==] prefix, optionally dropping
    pre-releases) and writes the surviving (tag, date) pairs to a file.

    The embedding follows the script function by function.  Python objects
    coming from JSON are values of an inductive type, exceptions and
    [sys.exit] are outcomes of a small state-and-exception monad, and the
    world the script acts on (log, standard output, files, the HTTP server)
    is the monad's state.  The three libraries the script calls
    ([datetime.strptime], [urllib.parse.urlparse], [packaging.version]) are
    modelled on ASCII text from their CPython 3.11 / packaging sources;
    white space is what [str.isspace] accepts up to code point 255, and
    [int] has the limit of 4300 digits that CPython gives it.  What
    [argparse] makes of the command line is an input of [run_main]. *)

From Stdlib Require Import ZArith NArith Ascii String Decimal DecimalString DecimalN DecimalNat Lia.
From stdpp Require Import base option list gmap strings.

Local Set Warnings "-register-all".

(** ** Characters and strings, as the Python [str] methods used below *)

Module Str.

Local Open Scope char_scope.

Definition code (c : ascii) : N := N_of_ascii c.

Definition is_digit (c : ascii) : bool := (48 <=? code c)%N && (code c <=? 57)%N.
Definition is_upper (c : ascii) : bool := (65 <=? code c)%N && (code c <=? 90)%N.
Definition is_lower (c : ascii) : bool := (97 <=? code c)%N && (code c <=? 122)%N.
Definition is_alpha (c : ascii) : bool := is_upper c || is_lower c.
Definition is_alnum (c : ascii) : bool := is_alpha c || is_digit c.

(** [str.isspace], which is also the class [\s] of [re] on a [str], on the
    code points up to 255: TAB, LF, VT, FF, CR, FS, GS, RS, US, space, NEL
    (U+0085) and the no-break space (U+00A0). *)
Definition is_space (c : ascii) : bool :=
  ((9 <=? code c)%N && (code c <=? 13)%N) || ((28 <=? code c)%N && (code c <=? 32)%N)
  || (code c =? 133)%N || (code c =? 160)%N.

Definition lower_char (c : ascii) : ascii :=
  if is_upper c then ascii_of_N (code c + 32) else c.

Fixpoint lower (s : string) : string :=
  match s with
  | EmptyString => EmptyString
  | String c r => String (lower_char c) (lower r)
  end.

(** [s.startswith(p)] *)
Fixpoint startswith (p s : string) : bool :=
  match p, s with
  | EmptyString, _ => true
  | String a p', String b s' => Ascii.eqb a b && startswith p' s'
  | String _ _, EmptyString => false
  end.

(** [s[n:]] *)
Fixpoint drop (n : nat) (s : string) : string :=
  match n, s with
  | O, _ => s
  | S n', String _ r => drop n' r
  | S _, EmptyString => EmptyString
  end.

(** [s[:n]] *)
Fixpoint take (n : nat) (s : string) : string :=
  match n, s with
  | O, _ => EmptyString
  | S n', String c r => String c (take n' r)
  | S _, EmptyString => EmptyString
  end.

(** The longest prefix of characters satisfying [p], and what follows it. *)
Fixpoint span (p : ascii -> bool) (s : string) : string * string :=
  match s with
  | EmptyString => (EmptyString, EmptyString)
  | String c r =>
      if p c then let '(a, b) := span p r in (String c a, b)
      else (EmptyString, s)
  end.

Fixpoint all (p : ascii -> bool) (s : string) : bool :=
  match s with
  | EmptyString => true
  | String c r => p c && all p r
  end.

Fixpoint mem (c : ascii) (s : string) : bool :=
  match s with
  | EmptyString => false
  | String d r => Ascii.eqb c d || mem c r
  end.

(** [s.lstrip(chars)], [s.rstrip(chars)] and [s.strip(chars)], with the set
    of characters given as a predicate. *)
Fixpoint lstrip (p : ascii -> bool) (s : string) : string :=
  match s with
  | EmptyString => EmptyString
  | String c r => if p c then lstrip p r else s
  end.

Fixpoint rstrip (p : ascii -> bool) (s : string) : string :=
  match s with
  | EmptyString => EmptyString
  | String c r =>
      match rstrip p r with
      | EmptyString => if p c then EmptyString else String c EmptyString
      | r' => String c r'
      end
  end.

Definition strip (p : ascii -> bool) (s : string) : string := rstrip p (lstrip p s).

(** [s.replace(c, "")] for a one-character [c]. *)
Fixpoint remove (p : ascii -> bool) (s : string) : string :=
  match s with
  | EmptyString => EmptyString
  | String c r => if p c then remove p r else String c (remove p r)
  end.

(** Splitting at every character satisfying [p]: never empty, one more
    field than there are separators. *)
Fixpoint split_on (p : ascii -> bool) (s : string) : list string :=
  match s with
  | EmptyString => [EmptyString]
  | String c r =>
      if p c then EmptyString :: split_on p r
      else match split_on p r with
           | [] => [String c EmptyString]
           | f :: fs => String c f :: fs
           end
  end.

(** [s.split(sep)] for a one-character separator. *)
Definition split (sep : ascii) (s : string) : list string := split_on (Ascii.eqb sep) s.

(** [p] stripped from the front of [s], when [s] starts with it. *)
Definition strip_prefix (p s : string) : option string :=
  if startswith p s then Some (drop (String.length p) s) else None.

(** [s.partition(sep)]: the text before the first [sep], whether [sep] was
    found, and the text after it. *)
Fixpoint partition (sep : ascii) (s : string) : string * bool * string :=
  match s with
  | EmptyString => (EmptyString, false, EmptyString)
  | String c r =>
      if Ascii.eqb c sep then (EmptyString, true, r)
      else let '(a, found, b) := partition sep r in (String c a, found, b)
  end.

(** [s.rpartition(sep)[2]]: the text after the last [sep], the whole of [s]
    when there is none. *)
Fixpoint after_last (sep : ascii) (s : string) : string :=
  match s with
  | EmptyString => EmptyString
  | String c r =>
      if mem sep r then after_last sep r
      else if Ascii.eqb c sep then r else s
  end.

(** [int(s)] for a string of ASCII digits. *)
Definition to_N (s : string) : N :=
  match NilEmpty.uint_of_string s with
  | Some d => N.of_uint d
  | None => 0%N
  end.

(** [int(s)] for a string of ASCII digits, as CPython 3.11 does it: the
    empty text, and a text of more than
    [sys.int_info.default_max_str_digits] digits, leading zeros counted,
    are refused with [ValueError], for which [None] stands. *)
Definition max_str_digits : nat := 4300.

Definition int (s : string) : option N :=
  if String.eqb s "" then None
  else if (String.length s <=? max_str_digits)%nat then Some (to_N s) else None.

(** [str(n)] *)
Definition of_N (n : N) : string := NilZero.string_of_uint (N.to_uint n).
Definition of_nat (n : nat) : string := NilZero.string_of_uint (Nat.to_uint n).

(** [s.zfill(w)], as the [%0wd] conversions produce it. *)
Definition zfill (w : nat) (s : string) : string :=
  String.concat EmptyString (replicate (w - String.length s) "0"%string) +:+ s.

End Str.

(** ** Python objects, exceptions and the world the script acts on *)

(** The objects [response.json()] can return.  A [VDict] lists its items in
    insertion order, each key once. *)
Inductive value : Type :=
| VNone
| VBool (b : bool)
| VInt (n : Z)
| VStr (s : string)
| VList (l : list value)
| VDict (d : list (string * value)).

(** The exception classes that occur; all derive from [Exception].
    [InvalidVersion] is the one [extract_version] handles itself and
    [RequestException] the one [fetch_releases] handles itself. *)
Inductive exn : Type :=
| KeyError (key : string)
| TypeError
| AttributeError
| ValueError
| InvalidVersion (text : string)
| RequestException
| OSError.

Inductive level : Type := DEBUG | INFO | ERROR.

(** The log records the script emits, one constructor per [logging] call. *)
Inductive message : Type :=
| MsgInvalidUrl
| MsgErrorParsingUrl (e : exn)
| MsgFetching (url : string)
| MsgErrorFetching (e : exn)
| MsgTagNoMatch (tag : value) (package_name : string)
| MsgInvalidVersion (tag : value) (e : exn)
| MsgSkipBeforeStart (tag : value)
| MsgSkipPrerelease (tag : value)
| MsgErrorProcessing (release : value) (e : exn)
| MsgSaved (file : string)
| MsgErrorWriting (file : string) (e : exn)
| MsgDefaultOutput (file : string)
| MsgUnexpected (e : exn).

(** What [requests.get] followed by [raise_for_status] and [json] gives:
    the decoded body, or a [RequestException] (transport error, error
    status, undecodable body). *)
Inductive response : Type :=
| HttpJson (body : value)
| HttpFailure.

Definition headers : Type := list (string * string).

Record world : Type := {
  w_log : list (level * message);       (* records logged so far *)
  w_stdout : list string;               (* lines printed so far *)
  w_files : gmap string string;         (* file name to content *)
  w_requests : list (string * headers); (* GET requests sent so far *)
  w_server : string -> headers -> response;  (* the API's answer to a GET *)
  w_writable : string -> bool           (* can this path be opened for writing *)
}.

(** How a computation ends: with a value, with an exception, with
    [sys.exit] ([SystemExit] is not an [Exception], so no handler of the
    script catches it), or not within the given number of loop turns. *)
Inductive outcome (A : Type) : Type :=
| Return (a : A)
| Raise (e : exn)
| SysExit (code : Z)
| OutOfFuel.
Arguments Return {A} a.
Arguments Raise {A} e.
Arguments SysExit {A} code.
Arguments OutOfFuel {A}.

Definition M (A : Type) : Type := world -> outcome A * world.

Global Instance M_ret : MRet M := fun A (a : A) w => (Return a, w).

Global Instance M_bind : MBind M := fun A B (f : A -> M B) (m : M A) w =>
  match m w with
  | (Return a, w') => f a w'
  | (Raise e, w') => (Raise e, w')
  | (SysExit c, w') => (SysExit c, w')
  | (OutOfFuel, w') => (OutOfFuel, w')
  end.

Definition raise {A} (e : exn) : M A := fun w => (Raise e, w).
Definition sys_exit {A} (code : Z) : M A := fun w => (SysExit code, w).
Definition out_of_fuel {A} : M A := fun w => (OutOfFuel, w).

(** [try: body / except <classes>: handler] *)
Definition try_except {A} (body : M A) (catches : exn -> bool) (handler : exn -> M A) : M A :=
  fun w =>
    match body w with
    | (Raise e, w') => if catches e then handler e w' else (Raise e, w')
    | r => r
    end.

Definition is_Exception (e : exn) : bool := true.
Definition is_InvalidVersion (e : exn) : bool :=
  match e with InvalidVersion _ => true | _ => false end.
Definition is_RequestException (e : exn) : bool :=
  match e with RequestException => true | _ => false end.

(** [for x in l: acc = body(x, acc)] *)
Fixpoint for_each {A S} (l : list A) (body : A -> S -> M S) (acc : S) : M S :=
  match l with
  | [] => mret acc
  | x :: l' => acc' ← body x acc; for_each l' body acc'
  end.

(** The world with [records] appended to the log. *)
Definition add_log (records : list (level * message)) (w : world) : world :=
  {| w_log := w_log w ++ records; w_stdout := w_stdout w; w_files := w_files w;
     w_requests := w_requests w; w_server := w_server w; w_writable := w_writable w |}.

(** [logging.debug], [logging.info], [logging.error]; the level is set to
    DEBUG, so every record is emitted. *)
Definition logging (lv : level) (msg : message) : M unit := fun w =>
  (Return tt, add_log [(lv, msg)] w).

Definition print (line : string) : M unit := fun w =>
  (Return tt,
   {| w_log := w_log w; w_stdout := w_stdout w ++ [line]; w_files := w_files w;
      w_requests := w_requests w; w_server := w_server w; w_writable := w_writable w |}).

(** [requests.get(url, headers=headers)], [raise_for_status()] and [json()]. *)
Definition requests_get (url : string) (hs : headers) : M value := fun w =>
  let w' := {| w_log := w_log w; w_stdout := w_stdout w; w_files := w_files w;
               w_requests := w_requests w ++ [(url, hs)];
               w_server := w_server w; w_writable := w_writable w |} in
  match w_server w url hs with
  | HttpJson body => (Return body, w')
  | HttpFailure => (Raise RequestException, w')
  end.

(** The world with its files replaced by [files]. *)
Definition set_files (files : gmap string string) (w : world) : world :=
  {| w_log := w_log w; w_stdout := w_stdout w; w_files := files;
     w_requests := w_requests w; w_server := w_server w; w_writable := w_writable w |}.

(** [open(path, 'w')]: fails for the empty path and for a path the file
    system refuses; otherwise the file exists from now on and is empty. *)
Definition open_w (path : string) : M unit := fun w =>
  if String.eqb path "" || negb (w_writable w path) then (Raise OSError, w)
  else (Return tt, set_files (<[path := ""]> (w_files w)) w).

(** [f.write(text)] on the file opened at [path]: appends.  A write that
    fails (a full disk, a text the encoding cannot hold) is not modelled. *)
Definition write (path text : string) : M unit := fun w =>
  (Return tt, set_files (<[path := default "" (w_files w !! path) +:+ text]> (w_files w)) w).

(** [obj[key]] for a string key. *)
Fixpoint dict_get (key : string) (d : list (string * value)) : option value :=
  match d with
  | [] => None
  | (k, v) :: d' => if String.eqb k key then Some v else dict_get key d'
  end.

Definition getitem (obj : value) (key : string) : M value :=
  match obj with
  | VDict d => match dict_get key d with
               | Some v => mret v
               | None => raise (KeyError key)
               end
  | _ => raise TypeError
  end.

(** [bool(obj)] *)
Definition truthy (obj : value) : bool :=
  match obj with
  | VNone => false
  | VBool b => b
  | VInt n => negb (n =? 0)%Z
  | VStr s => negb (String.eqb s "")
  | VList l => match l with [] => false | _ => true end
  | VDict d => match d with [] => false | _ => true end
  end.

Definition truthy_str (s : option string) : bool :=
  match s with
  | Some s => negb (String.eqb s "")
  | None => false
  end.

Fixpoint chars (s : string) : list value :=
  match s with
  | EmptyString => []
  | String c r => VStr (String c EmptyString) :: chars r
  end.

(** [obj.startswith]: only a [str] has the method. *)
Definition str_method (obj : value) : M string :=
  match obj with
  | VStr s => mret s
  | _ => raise AttributeError
  end.

(** The items [list.extend(obj)] appends: a list's elements, a dict's keys,
    a string's characters; other objects are not iterable. *)
Definition iterate (obj : value) : M (list value) :=
  match obj with
  | VList l => mret l
  | VDict d => mret (map (fun kv => VStr (fst kv)) d)
  | VStr s => mret (chars s)
  | _ => raise TypeError
  end.

(** ** [datetime]: dates, [strptime] for the numeric directives, [str(date)] *)

Module Datetime.

Record date : Type := { year : N; month : N; day : N }.

Record datetime : Type := { dt_date : date; hour : N; minute : N; second : N }.

Definition is_leap (y : N) : bool :=
  ((y mod 4 =? 0) && (negb (y mod 100 =? 0) || (y mod 400 =? 0)))%N.

Definition days_in_month (y m : N) : N :=
  (if m =? 2 then (if is_leap y then 29 else 28)
   else if (m =? 4) || (m =? 6) || (m =? 9) || (m =? 11) then 30
   else 31)%N.

(** The constructor [datetime(y, m, d, H, M, S)] raises [ValueError] outside
    these ranges ([MINYEAR] is 1). *)
Definition valid (dt : datetime) : bool :=
  let d := dt_date dt in
  ((1 <=? year d) && (year d <=? 9999) && (1 <=? month d) && (month d <=? 12)
   && (1 <=? day d) && (day d <=? days_in_month (year d) (month d))
   && (hour dt <=? 23) && (minute dt <=? 59) && (second dt <=? 59))%N.

(** [d1 < d2]: dates compare as (year, month, day) triples. *)
Definition date_lt (d1 d2 : date) : bool :=
  ((year d1 <? year d2)
   || ((year d1 =? year d2)
       && ((month d1 <? month d2)
           || ((month d1 =? month d2) && (day d1 <? day d2)))))%N.

(** [str(d)], i.e. [d.isoformat()]: ["%04d-%02d-%02d"]. *)
Definition date_str (d : date) : string :=
  Str.zfill 4 (Str.of_N (year d)) +:+ "-" +:+ Str.zfill 2 (Str.of_N (month d))
  +:+ "-" +:+ Str.zfill 2 (Str.of_N (day d)).

(** A format string is a sequence of directives and literal characters. *)
Inductive item : Type :=
| DirY | Dirm | Dird | DirH | DirM | DirS
| Lit (c : ascii).

Fixpoint parse_format (fmt : string) : option (list item) :=
  match fmt with
  | EmptyString => Some []
  | String "%" (String c r) =>
      it ← (if Ascii.eqb c "Y" then Some DirY else if Ascii.eqb c "m" then Some Dirm
             else if Ascii.eqb c "d" then Some Dird else if Ascii.eqb c "H" then Some DirH
             else if Ascii.eqb c "M" then Some DirM else if Ascii.eqb c "S" then Some DirS
             else None);
      its ← parse_format r;
      Some (it :: its)
  | String "%" EmptyString => None
  | String c r => its ← parse_format r; Some (Lit c :: its)
  end.

(** A numeric directive of [_strptime.TimeRE] followed by a literal that is
    not a digit (or by the end of the text) matches exactly when the whole
    run of digits in front of that literal has between [lo_len] and [hi_len]
    digits and a value between [lo] and [hi]:
    [%Y] is [\d\d\d\d], [%m] is [1[0-2]|0[1-9]|[1-9]],
    [%H] is [2[0-3]|[0-1]\d|\d], [%M] is [[0-5]\d|\d],
    [%S] is [6[0-1]|[0-5]\d|\d]. *)
Definition num_field (lo_len hi_len : nat) (lo hi : N) (s : string) : option (N * string) :=
  let '(run, rest) := Str.span Str.is_digit s in
  let n := String.length run in
  let v := Str.to_N run in
  if (lo_len <=? n)%nat && (n <=? hi_len)%nat && (lo <=? v)%N && (v <=? hi)%N
  then Some (v, rest) else None.

(** [%d] is [3[0-1]|[1-2]\d|0[1-9]|[1-9]| [1-9]]: as above, or a space and
    one digit from 1 to 9. *)
Definition day_field (s : string) : option (N * string) :=
  match s with
  | String " " r => num_field 1 1 1 9 r
  | _ => num_field 1 2 1 31 s
  end.

(** The pattern is compiled with [IGNORECASE]: a literal letter matches in
    either case. *)
Definition lit_matches (l c : ascii) : bool :=
  Ascii.eqb (Str.lower_char l) (Str.lower_char c).

Fixpoint match_items (its : list item) (s : string) (dt : datetime) : option datetime :=
  match its with
  | [] => if String.eqb s "" then Some dt else None
  | it :: its' =>
      let d := dt_date dt in
      match it with
      | DirY => '(v, r) ← num_field 4 4 0 9999 s;
                match_items its' r
                  {| dt_date := {| year := v; month := month d; day := day d |};
                     hour := hour dt; minute := minute dt; second := second dt |}
      | Dirm => '(v, r) ← num_field 1 2 1 12 s;
                match_items its' r
                  {| dt_date := {| year := year d; month := v; day := day d |};
                     hour := hour dt; minute := minute dt; second := second dt |}
      | Dird => '(v, r) ← day_field s;
                match_items its' r
                  {| dt_date := {| year := year d; month := month d; day := v |};
                     hour := hour dt; minute := minute dt; second := second dt |}
      | DirH => '(v, r) ← num_field 1 2 0 23 s;
                match_items its' r
                  {| dt_date := d; hour := v; minute := minute dt; second := second dt |}
      | DirM => '(v, r) ← num_field 1 2 0 59 s;
                match_items its' r
                  {| dt_date := d; hour := hour dt; minute := v; second := second dt |}
      | DirS => '(v, r) ← num_field 1 2 0 61 s;
                match_items its' r
                  {| dt_date := d; hour := hour dt; minute := minute dt; second := v |}
      | Lit l => match s with
                 | String c r => if lit_matches l c then match_items its' r dt else None
                 | EmptyString => None
                 end
      end
  end.

(** Fields the format does not set default to 1900-01-01 00:00:00. *)
Definition epoch_start : datetime :=
  {| dt_date := {| year := 1900; month := 1; day := 1 |};
     hour := 0; minute := 0; second := 0 |}.

(** [datetime.datetime.strptime(text, fmt)] on a [str]: [None] stands for
    [ValueError] (no match, text left over, or a date or time out of range). *)
Definition strptime_str (text fmt : string) : option datetime :=
  its ← parse_format fmt;
  dt ← match_items its text epoch_start;
  if valid dt then Some dt else None.

(** [datetime.datetime.strptime(obj, fmt)]: [TypeError] unless [obj] is a
    [str]. *)
Definition strptime (obj : value) (fmt : string) : M datetime :=
  match obj with
  | VStr text => match strptime_str text fmt with
                 | Some dt => mret dt
                 | None => raise ValueError
                 end
  | _ => raise TypeError
  end.

End Datetime.

(** ** [packaging.version]: PEP 440 versions *)

Module Packaging.

(** The parsed fields of a [Version]: [pre] is a letter among [a], [b], [rc]
    with its number; a [local] label is a sequence of numbers and lower-case
    words. *)
Record Version : Type := {
  epoch : N;
  release : list N;
  pre : option (string * N);
  post : option N;
  dev : option N;
  local : option (list (N + string))
}.

(** [Version.is_prerelease]: [self.dev is not None or self.pre is not None]. *)
Definition is_prerelease (v : Version) : bool :=
  match dev v, pre v with
  | None, None => false
  | _, _ => true
  end.

(** [Version(text)] searches [text], ignoring case, for the pattern
    VERSION_PATTERN between optional white space at both ends.  The pattern
    is, segment by segment:
    - an optional [v];
    - an optional epoch: digits and [!];
    - the release: digits, then any number of groups of a dot and digits;
    - an optional pre-release: an optional separator among [-], [_] and [.],
      one of the letters alpha, a, beta, b, preview, pre, c, rc (tried in
      this order), an optional separator, optional digits;
    - an optional post-release: either [-] and digits, or an optional
      separator, one of post, rev, r, an optional separator, optional digits;
    - an optional development release: an optional separator, dev, an
      optional separator, optional digits;
    - an optional local label: [+], then letters and digits in groups
      joined by single separators.
    No two alternatives of the pattern can match the same text in different
    ways, so the functions below read the segments from left to right, each
    as far as it goes, on the lower-cased text.  They return the text of the
    groups of the match; [Version.__init__] converts the groups afterwards.
    A group that took no part in the match is the empty text here ([None] in
    Python, which the conversions test with [if letter], [if number] and
    [number or 0], as they would the empty text). *)

Definition is_sep (c : ascii) : bool :=
  Ascii.eqb c "-" || Ascii.eqb c "_" || Ascii.eqb c ".".

(** [[-_\.]?] *)
Definition opt_sep (s : string) : string :=
  match s with
  | String c r => if is_sep c then r else s
  | EmptyString => s
  end.

(** The first alternative that is a prefix of [s], and the text after it. *)
Fixpoint first_prefix (alts : list string) (s : string) : option (string * string) :=
  match alts with
  | [] => None
  | a :: alts' =>
      match Str.strip_prefix a s with
      | Some r => Some (a, r)
      | None => first_prefix alts' s
      end
  end.

(** [(?:(?P<epoch>[0-9]+)!)?] *)
Definition epoch_segment (s : string) : string * string :=
  let '(ds, r) := Str.span Str.is_digit s in
  match ds, r with
  | String _ _, String "!" r' => (ds, r')
  | _, _ => ("", s)
  end.

(** [(?:\.[0-9]+)*] *)
Fixpoint release_tail (fuel : nat) (s : string) : list string * string :=
  match fuel with
  | O => ([], s)
  | S fuel' =>
      match s with
      | String c r =>
          if Ascii.eqb c "." then
            let '(ds, r') := Str.span Str.is_digit r in
            match ds with
            | EmptyString => ([], s)
            | String _ _ =>
                let '(more, rest) := release_tail fuel' r' in
                (ds :: more, rest)
            end
          else ([], s)
      | EmptyString => ([], s)
      end
  end.

(** The group [release], digits and then groups of a dot and digits,
    already split at the dots as [match.group("release").split(".")]
    does. *)
Definition release_segment (s : string) : option (list string * string) :=
  let '(ds, r) := Str.span Str.is_digit s in
  match ds with
  | EmptyString => None
  | String _ _ =>
      let '(more, rest) := release_tail (String.length r) r in
      Some (ds :: more, rest)
  end.

(** A letter among [alts] with an optional separator on either side and an
    optional number: the letter group and the number group. *)
Definition letter_segment (alts : list string) (s : string) : (string * string) * string :=
  match first_prefix alts (opt_sep s) with
  | Some (l, r) =>
      let '(ds, rest) := Str.span Str.is_digit (opt_sep r) in
      ((l, ds), rest)
  | None => (("", ""), s)
  end.

(** The groups [pre_l] and [pre_n]. *)
Definition pre_segment (s : string) : (string * string) * string :=
  letter_segment ["alpha"; "a"; "beta"; "b"; "preview"; "pre"; "c"; "rc"] s.

(** Either a hyphen and a number (the group [post_n1], no letter), or a
    letter segment (the groups [post_l] and [post_n2]). *)
Definition post_segment (s : string) : (string * string) * string :=
  let letters := letter_segment ["post"; "rev"; "r"] s in
  match s with
  | String "-" r =>
      match Str.span Str.is_digit r with
      | (String c ds, rest) => (("", String c ds), rest)
      | (EmptyString, _) => letters
      end
  | _ => letters
  end.

(** The groups [dev_l] and [dev_n]. *)
Definition dev_segment (s : string) : (string * string) * string :=
  letter_segment ["dev"] s.

(** [(?:\+(?P<local>...))?]: the label is the whole run of letters, digits
    and separators after the plus sign, and every part of it must be
    non-empty; otherwise text is left over that the pattern cannot match,
    which [None] reports. *)
Definition local_segment (s : string) : option (option string * string) :=
  match s with
  | String "+" r =>
      let '(label, rest) := Str.span (fun c => Str.is_alnum c || is_sep c) r in
      if forallb (fun part => negb (String.eqb part "")) (Str.split_on is_sep label)
      then Some (Some label, rest)
      else None
  | _ => Some (None, s)
  end.

(** [v?] *)
Definition opt_v (s : string) : string :=
  match s with
  | String c r => if Ascii.eqb c "v" then r else s
  | EmptyString => s
  end.

(** The groups of a match that [Version.__init__] reads; [g_post_n] is
    [match.group("post_n1") or match.group("post_n2")]. *)
Record Groups : Type := {
  g_epoch : string;
  g_release : list string;
  g_pre_l : string;
  g_pre_n : string;
  g_post_l : string;
  g_post_n : string;
  g_dev_l : string;
  g_dev_n : string;
  g_local : option string
}.

(** What follows the release: the optional pre-release, post-release,
    development and local segments, then white space up to the end. *)
Definition search_suffix (ep : string) (rel : list string) (s : string) : option Groups :=
  let '((pre_l, pre_n), s) := pre_segment s in
  let '((post_l, post_n), s) := post_segment s in
  let '((dev_l, dev_n), s) := dev_segment s in
  '(lo, s) ← local_segment s;
  if Str.all Str.is_space s
  then Some {| g_epoch := ep; g_release := rel; g_pre_l := pre_l; g_pre_n := pre_n;
               g_post_l := post_l; g_post_n := post_n; g_dev_l := dev_l; g_dev_n := dev_n;
               g_local := lo |}
  else None.

(** [cls._regex.search(text)]: the groups of the match, [None] when the
    pattern does not match. *)
Definition search (text : string) : option Groups :=
  let s := opt_v (Str.lower (Str.lstrip Str.is_space text)) in
  let '(ep, s) := epoch_segment s in
  '(rel, s) ← release_segment s;
  search_suffix ep rel s.

(** The letter normalisation of [_parse_letter_version]. *)
Definition normal_letter (l : string) : string :=
  if String.eqb l "alpha" then "a"
  else if String.eqb l "beta" then "b"
  else if String.eqb l "c" || String.eqb l "pre" || String.eqb l "preview" then "rc"
  else if String.eqb l "rev" || String.eqb l "r" then "post"
  else l.

(** [_parse_letter_version(letter, number)]; the outer [None] is the
    [ValueError] of [int]. *)
Definition _parse_letter_version (letter number : string) : option (option (string * N)) :=
  if negb (String.eqb letter "") then
    n ← (if String.eqb number "" then Some 0%N else Str.int number);   (* int(number or 0) *)
    Some (Some (normal_letter letter, n))
  else if negb (String.eqb number "") then
    n ← Str.int number;
    Some (Some ("post", n))
  else Some None.

(** One part of a local label: [part.lower() if not part.isdigit() else
    int(part)]. *)
Definition local_part (part : string) : option (N + string) :=
  if negb (String.eqb part "") && Str.all Str.is_digit part   (* part.isdigit() *)
  then inl <$> Str.int part
  else Some (inr part).

(** [_parse_local_version(local)] *)
Definition _parse_local_version (local : option string)
    : option (option (list (N + string))) :=
  match local with
  | Some label => Some <$> mapM local_part (Str.split_on is_sep label)
  | None => Some None
  end.

(** The conversions of [Version.__init__] after the match; [None] is the
    [ValueError] of one of the [int] calls. *)
Definition of_groups (g : Groups) : option Version :=
  ep ← (if String.eqb (g_epoch g) "" then Some 0%N else Str.int (g_epoch g));
  rel ← mapM Str.int (g_release g);
  pr ← _parse_letter_version (g_pre_l g) (g_pre_n g);
  po ← _parse_letter_version (g_post_l g) (g_post_n g);
  de ← _parse_letter_version (g_dev_l g) (g_dev_n g);
  lo ← _parse_local_version (g_local g);
  Some {| epoch := ep; release := rel; pre := pr; post := snd <$> po; dev := snd <$> de;
          local := lo |}.

(** [Version(text)]: raises [InvalidVersion] when the pattern does not
    match, and lets the [ValueError] of [int] through when a number of the
    match has too many digits. *)
Definition Version_of (text : string) : M Version :=
  match search text with
  | Some g =>
      match of_groups g with
      | Some v => mret v
      | None => raise ValueError
      end
  | None => raise (InvalidVersion text)
  end.

End Packaging.

(** ** [ipaddress] and [urllib.parse]: what [urlparse] needs *)

Module Urllib.

Definition is_empty (s : string) : bool := String.eqb s "".

Definition is_hex (c : ascii) : bool :=
  Str.is_digit c
  || ((65 <=? Str.code c)%N && (Str.code c <=? 70)%N)
  || ((97 <=? Str.code c)%N && (Str.code c <=? 102)%N).

(** [IPv4Address._parse_octet] succeeds. *)
Definition octet_ok (o : string) : bool :=
  negb (is_empty o) && Str.all Str.is_digit o && (String.length o <=? 3)%nat
  && (String.eqb o "0" || negb (Str.startswith "0" o))
  && (Str.to_N o <=? 255)%N.

(** [IPv4Address(s)] succeeds. *)
Definition ipv4_ok (s : string) : bool :=
  negb (Str.mem "/" s) && negb (is_empty s)
  && (length (Str.split "." s) =? 4)%nat && forallb octet_ok (Str.split "." s).

(** [IPv6Address._parse_hextet] succeeds. *)
Definition hextet_ok (h : string) : bool :=
  Str.all is_hex h && (String.length h <=? 4)%nat && negb (is_empty h).

Fixpoint index_of_empty (parts : list string) : option nat :=
  match parts with
  | [] => None
  | p :: ps => if is_empty p then Some O else S <$> index_of_empty ps
  end.

(** [IPv6Address._ip_int_from_string] succeeds on [parts], the address
    split at colons with a dotted-quad suffix already replaced by its two
    hextets. *)
Definition ipv6_parts_ok (parts : list string) : bool :=
  let n := length parts in
  let inner := take (n - 2) (drop 1 parts) in
  let first_empty := is_empty (default "" (head parts)) in
  let last_empty := is_empty (default "" (last parts)) in
  (n <=? 9)%nat
  && (length (filter (fun p => is_empty p = true) inner) <=? 1)%nat
  && match index_of_empty inner with
     | Some i =>
         let skip_index := S i in
         let parts_hi := if first_empty then (skip_index - 1)%nat else skip_index in
         let parts_lo := if last_empty then (n - skip_index - 1 - 1)%nat
                         else (n - skip_index - 1)%nat in
         (negb first_empty || (parts_hi =? 0)%nat)
         && (negb last_empty || (parts_lo =? 0)%nat)
         && (1 <=? 8 - (parts_hi + parts_lo))%nat
         && forallb hextet_ok (take parts_hi parts)
         && forallb hextet_ok (drop (n - parts_lo) parts)
     | None =>
         (n =? 8)%nat && negb first_empty && negb last_empty && forallb hextet_ok parts
     end.

(** [IPv6Address(s)] succeeds. *)
Definition ipv6_ok (s : string) : bool :=
  let '(addr, has_scope, scope_id) := Str.partition "%" s in
  let parts := Str.split ":" addr in
  let last_part := default "" (last parts) in
  negb (Str.mem "/" s)
  && (negb has_scope || (negb (is_empty scope_id) && negb (Str.mem "%" scope_id)))
  && negb (is_empty addr)
  && (3 <=? length parts)%nat
  && if Str.mem "." last_part
     then ipv4_ok last_part
          && ipv6_parts_ok (take (length parts - 1) parts ++ ["0"; "0"])
     else ipv6_parts_ok parts.

(** [_check_bracketed_host] returns: an IPvFuture literal ([v], hexadecimal
    digits, a dot, at least one more character) or an IPv6 address. *)
Definition bracketed_host_ok (hostname : string) : bool :=
  if Str.startswith "v" hostname then
    let '(hexes, rest) := Str.span is_hex (Str.drop 1 hostname) in
    negb (is_empty hexes) && Str.startswith "." rest && (2 <=? String.length rest)%nat
  else ipv6_ok hostname.

(** [_check_bracketed_netloc] returns. *)
Definition bracketed_netloc_ok (netloc : string) : bool :=
  let hostname_and_port := Str.after_last "@" netloc in
  let '(before_bracket, have_open_br, bracketed) := Str.partition "[" hostname_and_port in
  if have_open_br then
    let '(hostname, _, port) := Str.partition "]" bracketed in
    is_empty before_bracket
    && (is_empty port || Str.startswith ":" port)
    && bracketed_host_ok hostname
  else
    let '(hostname, _, _) := Str.partition ":" hostname_and_port in
    bracketed_host_ok hostname.

Record ParseResult : Type := {
  scheme : string; netloc : string; path : string;
  params : string; query : string; fragment : string
}.

Definition scheme_char (c : ascii) : bool :=
  Str.is_alnum c || Ascii.eqb c "+" || Ascii.eqb c "-" || Ascii.eqb c ".".

Definition uses_params : list string :=
  [""; "ftp"; "hdl"; "prospero"; "http"; "imap"; "https"; "shttp"; "rtsp"; "rtspu";
   "sip"; "sips"; "mms"; "sftp"; "tel"].

(** [_splitparams] for a [url] that contains a semicolon. *)
Definition _splitparams (url : string) : string * string :=
  if Str.mem "/" url then
    let last_segment := Str.after_last "/" url in
    let '(seg, found, prm) := Str.partition ";" last_segment in
    if found
    then (Str.take (String.length url - String.length last_segment) url +:+ seg, prm)
    else (url, "")
  else
    let '(before, _, after) := Str.partition ";" url in (before, after).

(** [urlparse(url)] on ASCII text; [None] stands for [ValueError]. *)
Definition urlparse_str (url : string) : option ParseResult :=
  (* urlsplit *)
  let url := Str.lstrip (fun c => (Str.code c <=? 32)%N) url in
  let url := Str.remove (fun c => Ascii.eqb c "009" || Ascii.eqb c "013" || Ascii.eqb c "010") url in
  let '(before, found, after) := Str.partition ":" url in
  let '(scheme, url) :=
    if found && match before with String c _ => Str.is_alpha c | EmptyString => false end
       && Str.all scheme_char before
    then (Str.lower before, after) else ("", url) in
  let '(netloc, url) :=
    if Str.startswith "//" url
    then Str.span (fun c => negb (Ascii.eqb c "/" || Ascii.eqb c "?" || Ascii.eqb c "#"))
                  (Str.drop 2 url)
    else ("", url) in
  let open_br := Str.mem "[" netloc in
  let close_br := Str.mem "]" netloc in
  if (open_br && negb close_br) || (close_br && negb open_br) then None
  else if open_br && close_br && negb (bracketed_netloc_ok netloc) then None
  else
    let '(url, _, fragment) := Str.partition "#" url in
    let '(url, _, query) := Str.partition "?" url in
    (* urlparse *)
    let '(url, params) :=
      if bool_decide (scheme ∈ uses_params) && Str.mem ";" url
      then _splitparams url else (url, "") in
    Some {| scheme := scheme; netloc := netloc; path := url;
            params := params; query := query; fragment := fragment |}.

Definition urlparse (url : string) : M ParseResult :=
  match urlparse_str url with
  | Some r => mret r
  | None => raise ValueError
  end.

End Urllib.

(** ** The script *)

Import Datetime.

Definition newline : string := String "010" "".

(** The command line, as [parse_arguments] returns it. *)
Record arguments : Type := {
  arg_repo_url : string;
  arg_start_date : string;
  arg_output : option string;
  arg_package_name : option string;
  arg_token : option string;
  arg_include_prereleases : bool
}.

(** [parse_github_url(repo_url)] *)
Definition parse_github_url (repo_url : string) : M (string * string) :=
  try_except
    (parsed_url ← Urllib.urlparse repo_url;
     let path_parts :=
       Str.split "/" (Str.strip (fun c => Ascii.eqb c "/") (Urllib.path parsed_url)) in
     match path_parts with
     | owner :: repo :: _ =>          (* len(path_parts) >= 2 *)
         mret (owner, repo)
     | _ =>
         logging ERROR MsgInvalidUrl;;
         sys_exit 1
     end)
    is_Exception
    (fun e => logging ERROR (MsgErrorParsingUrl e);; sys_exit 1).

Definition releases_url (owner repo : string) (page per_page : nat) : string :=
  "https://api.github.com/repos/" +:+ owner +:+ "/" +:+ repo
  +:+ "/releases?page=" +:+ Str.of_nat page +:+ "&per_page=" +:+ Str.of_nat per_page.

Definition request_headers (token : option string) : headers :=
  [("Accept", "application/vnd.github.v3+json")]
  ++ (if truthy_str token then [("Authorization", "token " +:+ default "" token)] else []).

(** The [while True] loop of [fetch_releases]; every turn uses one unit of
    [fuel].  A turn ends the loop ([None]) or goes on with more releases and
    the next page. *)
Fixpoint fetch_loop (fuel : nat) (owner repo : string) (hs : headers)
    (per_page page : nat) (releases : list value) : M (list value) :=
  match fuel with
  | O => out_of_fuel
  | S fuel' =>
      turn ← try_except
        (let url := releases_url owner repo page per_page in
         logging INFO (MsgFetching url);;
         page_releases ← requests_get url hs;
         if negb (truthy page_releases) then mret None        (* break *)
         else
           items ← iterate page_releases;                     (* releases.extend *)
           mret (Some (releases ++ items, S page)))
        is_RequestException
        (fun e => logging ERROR (MsgErrorFetching e);; sys_exit 1);
      match turn with
      | None => mret releases
      | Some (releases', page') => fetch_loop fuel' owner repo hs per_page page' releases'
      end
  end.

(** [fetch_releases(owner, repo, token)] *)
Definition fetch_releases (fuel : nat) (owner repo : string) (token : option string)
    : M (list value) :=
  fetch_loop fuel owner repo (request_headers token) 100 1 [].

(** [extract_version(tag_name, package_name)] *)
Definition extract_version (tag_name : value) (package_name : option string)
    : M (option Packaging.Version) :=
  try_except
    (prefixed ←
       (if truthy_str package_name then
          let expected_prefix := default "" package_name +:+ "==" in
          tag ← str_method tag_name;
          if Str.startswith expected_prefix tag
          then mret (Some (VStr (Str.drop (String.length expected_prefix) tag)))
          else
            logging DEBUG (MsgTagNoMatch tag_name (default "" package_name));;
            mret None                                         (* return None *)
        else mret (Some tag_name));
     match prefixed with
     | None => mret None
     | Some version_str =>
         s ← str_method version_str;
         let s := if Str.startswith "v" s then Str.drop 1 s else s in
         version ← Packaging.Version_of s;
         mret (Some version)
     end)
    is_InvalidVersion
    (fun e => logging DEBUG (MsgInvalidVersion tag_name e);; mret None).

(** The [try] block in the loop of [filter_releases]: [filtered_releases]
    before the turn to [filtered_releases] after it. *)
Definition filter_release_body (start_date : date) (package_name : option string)
    (include_prereleases : bool) (release : value) (filtered_releases : list (string * date))
    : M (list (string * date)) :=
  release_date_str ← getitem release "published_at";
  dt ← strptime release_date_str "%Y-%m-%dT%H:%M:%SZ";
  let release_date := dt_date dt in
  if date_lt release_date start_date then
    tag ← getitem release "tag_name";
    logging DEBUG (MsgSkipBeforeStart tag);;
    mret filtered_releases                                    (* continue *)
  else
    tag_name ← getitem release "tag_name";
    version ← extract_version tag_name package_name;
    match version with
    | None => mret filtered_releases                          (* continue *)
    | Some v =>
        if negb include_prereleases && Packaging.is_prerelease v then
          logging DEBUG (MsgSkipPrerelease tag_name);;
          mret filtered_releases                              (* continue *)
        else
          tag ← str_method tag_name;        (* a str, since it has a version *)
          mret (filtered_releases ++ [(tag, release_date)])
    end.

(** One turn of the loop: the [try] block under its [except Exception]. *)
Definition filter_release (start_date : date) (package_name : option string)
    (include_prereleases : bool) (release : value) (filtered_releases : list (string * date))
    : M (list (string * date)) :=
  try_except
    (filter_release_body start_date package_name include_prereleases release filtered_releases)
    is_Exception
    (fun e => logging ERROR (MsgErrorProcessing release e);; mret filtered_releases).

(** [filter_releases(releases, start_date, package_name, include_prereleases)] *)
Definition filter_releases (releases : list value) (start_date : date)
    (package_name : option string) (include_prereleases : bool)
    : M (list (string * date)) :=
  for_each releases (filter_release start_date package_name include_prereleases) [].

(** The text of one entry: [f'{tag}, {date}']. *)
Definition entry_text (entry : string * date) : string :=
  fst entry +:+ ", " +:+ date_str (snd entry).

(** [save_to_file(releases, output_file)] *)
Definition save_to_file (releases : list (string * date)) (output_file : string) : M unit :=
  try_except
    (open_w output_file;;
     for_each releases (fun entry _ => write output_file (entry_text entry +:+ newline)) tt;;
     logging INFO (MsgSaved output_file))
    is_Exception
    (fun e => logging ERROR (MsgErrorWriting output_file e);; sys_exit 1).

(** [main()], after [setup_logging()] and [parse_arguments()]. *)
Definition main (fuel : nat) (args : arguments) : M unit :=
  try_except
    (let package_name := arg_package_name args in
     dt ← strptime (VStr (arg_start_date args)) "%Y-%m-%d";
     let start_date := dt_date dt in
     '(owner, repo) ← parse_github_url (arg_repo_url args);
     releases ← fetch_releases fuel owner repo (arg_token args);
     filtered_releases ←
       filter_releases releases start_date package_name (arg_include_prereleases args);
     for_each filtered_releases (fun entry _ => print (entry_text entry)) tt;;
     output_file ←
       (if negb (truthy_str (arg_output args)) then
          let output_file :=
            if truthy_str package_name
            then owner +:+ "_" +:+ repo +:+ "_" +:+ default "" package_name +:+ "_releases.txt"
            else owner +:+ "_" +:+ repo +:+ "_releases.txt" in
          logging INFO (MsgDefaultOutput output_file);;
          mret output_file
        else mret (default "" (arg_output args)));
     save_to_file filtered_releases output_file)
    is_Exception
    (fun e => logging ERROR (MsgUnexpected e);; sys_exit 1).

(** What [argparse] makes of the command line, which is taken as given: it
    hands over the parsed arguments, or prints the help text and exits with
    status 0 (for [-h]), or reports a usage error on the standard error
    stream, which the world does not hold, and exits with status 2. *)
Inductive command_line : Type :=
| Parsed (args : arguments)
| HelpAsked (help : string)
| UsageError.

(** [parse_arguments()] *)
Definition parse_arguments (cl : command_line) : M arguments :=
  match cl with
  | Parsed args => mret args
  | HelpAsked help => print help;; sys_exit 0
  | UsageError => sys_exit 2
  end.

(** [main()] as a whole, after [setup_logging()]: [parse_arguments()] is
    the first statement of the [try] block, and [main] above is the rest of
    the block under the same handler. *)
Definition run_main (cl : command_line) (fuel : nat) : M unit :=
  try_except
    (args ← parse_arguments cl;
     let package_name := arg_package_name args in
     dt ← strptime (VStr (arg_start_date args)) "%Y-%m-%d";
     let start_date := dt_date dt in
     '(owner, repo) ← parse_github_url (arg_repo_url args);
     releases ← fetch_releases fuel owner repo (arg_token args);
     filtered_releases ←
       filter_releases releases start_date package_name (arg_include_prereleases args);
     for_each filtered_releases (fun entry _ => print (entry_text entry)) tt;;
     output_file ←
       (if negb (truthy_str (arg_output args)) then
          let output_file :=
            if truthy_str package_name
            then owner +:+ "_" +:+ repo +:+ "_" +:+ default "" package_name +:+ "_releases.txt"
            else owner +:+ "_" +:+ repo +:+ "_releases.txt" in
          logging INFO (MsgDefaultOutput output_file);;
          mret output_file
        else mret (default "" (arg_output args)));
     save_to_file filtered_releases output_file)
    is_Exception
    (fun e => logging ERROR (MsgUnexpected e);; sys_exit 1).

(** A world in which nothing has happened yet: the server fails every
    request and no path can be written. *)
Definition idle_world : world :=
  {| w_log := []; w_stdout := []; w_files := ∅; w_requests := [];
     w_server := fun _ _ => HttpFailure; w_writable := fun _ => false |}.

(** A release record as the API reports it. *)
Definition release_record (tag_name published_at : string) : value :=
  VDict [("tag_name", VStr tag_name); ("published_at", VStr published_at)].

(** The releases and the start date of the scenario of the specification. *)
Definition scenario_releases : list value :=
  [release_record "v1.2.0" "2024-02-01T00:00:00Z";
   release_record "v1.3.0-beta" "2024-03-01T00:00:00Z";
   release_record "v0.9.0" "2023-12-01T00:00:00Z"].

Definition scenario_start : date := {| year := 2024; month := 1; day := 1 |}.

(** A world whose server has the scenario's releases on the first page of
    acme/widget and nothing after it, and in which every path can be
    written. *)
Definition scenario_world : world :=
  {| w_log := []; w_stdout := []; w_files := ∅; w_requests := [];
     w_server := fun url _ =>
       if String.eqb url
            "https://api.github.com/repos/acme/widget/releases?page=1&per_page=100"
       then HttpJson (VList scenario_releases) else HttpJson (VList []);
     w_writable := fun _ => true |}.

(** The command line [args] with its [-o] option replaced. *)
Definition with_output (output : option string) (args : arguments) : arguments :=
  {| arg_repo_url := arg_repo_url args; arg_start_date := arg_start_date args;
     arg_output := output; arg_package_name := arg_package_name args;
     arg_token := arg_token args;
     arg_include_prereleases := arg_include_prereleases args |}.

(** The default output file name in the words of the specification:
    [<owner>_<repo>_<package-name>_releases.txt], the package-name segment
    omitted when there is no (or an empty) package name. *)
Definition default_file_name (owner repo : string) (package_name : option string) : string :=
  match package_name with
  | Some (String c p) => owner +:+ "_" +:+ repo +:+ "_" +:+ String c p +:+ "_releases.txt"
  | _ => owner +:+ "_" +:+ repo +:+ "_releases.txt"
  end.

(** The text [X.Y.Z] of a plain version and the [Version] it stands for. *)
Definition version_text (X Y Z : N) : string :=
  Str.of_N X +:+ "." +:+ Str.of_N Y +:+ "." +:+ Str.of_N Z.

Definition plain_version (X Y Z : N) : Packaging.Version :=
  {| Packaging.epoch := 0; Packaging.release := [X; Y; Z]; Packaging.pre := None;
     Packaging.post := None; Packaging.dev := None; Packaging.local := None |}.

(** The pre-release letters of PEP 440, in the order the pattern tries
    them, the separators it allows around them, and the optional number. *)
Definition pre_letters : list string :=
  ["alpha"; "a"; "beta"; "b"; "preview"; "pre"; "c"; "rc"].

Definition separators : list string := [""; "-"; "_"; "."].

Definition number_text (num : option N) : string :=
  match num with
  | Some n => Str.of_N n
  | None => ""
  end.

(** In the words of the specification: a version string carries a
    pre-release identifier segment, by the rules of semantic versioning,
    when it is [MAJOR.MINOR.PATCH], a hyphen, and dot-separated non-empty
    identifiers made of letters, digits and hyphens. *)
Definition spec_semver_prerelease (text : string) : bool :=
  let '(core, hyphen, identifiers) := Str.partition "-" text in
  hyphen
  && (length (Str.split "." core) =? 3)%nat
  && forallb (fun part => negb (String.eqb part "") && Str.all Str.is_digit part)
             (Str.split "." core)
  && forallb (fun part => negb (String.eqb part "")
                          && Str.all (fun c => Str.is_alnum c || Ascii.eqb c "-") part)
             (Str.split "." identifiers).

(** The text a file holds after one newline-terminated line per entry. *)
Fixpoint file_text (entries : list (string * date)) : string :=
  match entries with
  | [] => ""
  | entry :: rest => (entry_text entry +:+ newline) +:+ file_text rest
  end.

(** ** The vocabulary of the properties *)

(** A number below [10^w] printed with [%0wd]: [w] digits that read back
    as the number. *)
Definition padded_ok (w : nat) (n : N) : bool :=
  let s := Str.zfill w (Str.of_N n) in
  (String.length s =? w)%nat && Str.all Str.is_digit s && (Str.to_N s =? n)%N.

(** [p] holds of the [count] numbers from [start] on. *)
Fixpoint holds_from (p : N -> bool) (count : nat) (start : N) : bool :=
  match count with
  | O => true
  | S count' => p start && holds_from p count' (N.succ start)
  end.

(** [emits m o records]: in every world, [m] ends with outcome [o] and has
    appended [records] to the log, changing nothing else. *)
Definition emits {A} (m : M A) (o : outcome A) (records : list (level * message)) : Prop :=
  forall w, m w = (o, add_log records w).

(** An outcome that is a value or an exception: neither [sys.exit] nor a
    loop cut short. *)
Definition soft {A} (o : outcome A) : Prop :=
  match o with
  | Return _ | Raise _ => True
  | SysExit _ | OutOfFuel => False
  end.

(** The outcome of a computation and the records it logs, read off its run
    in the idle world. *)
Definition result {A} (m : M A) : outcome A := fst (m idle_world).
Definition records {A} (m : M A) : list (level * message) := w_log (snd (m idle_world)).

(** A tame computation only logs, the same in every world, and ends with a
    value or an exception. *)
Definition tame {A} (m : M A) : Prop :=
  emits m (result m) (records m) /\ soft (result m).

(** What it takes for [release] to contribute [entry] to the output. *)
Definition survives (start_date : date) (package_name : option string)
    (include_prereleases : bool) (release : value) (entry : string * date) : Prop :=
  exists d text dt v,
    release = VDict d
    /\ dict_get "tag_name" d = Some (VStr (fst entry))
    /\ dict_get "published_at" d = Some (VStr text)
    /\ strptime_str text "%Y-%m-%dT%H:%M:%SZ" = Some dt
    /\ dt_date dt = snd entry
    /\ date_lt (snd entry) start_date = false
    /\ result (extract_version (VStr (fst entry)) package_name) = Return (Some v)
    /\ (include_prereleases = true \/ Packaging.is_prerelease v = false).

(** [lift acc o]: the outcome of a turn that starts from [acc] when the
    same turn started from the empty list ends with [o]. *)
Definition lift {A} (acc : list A) (o : outcome (list A)) : outcome (list A) :=
  match o with
  | Return more => Return (acc ++ more)
  | Raise e => Raise e
  | SysExit c => SysExit c
  | OutOfFuel => OutOfFuel
  end.

(** A computation that leaves the files, the file system's permissions and
    the standard output alone. *)
Definition quiet {A} (m : M A) : Prop :=
  forall w o w', m w = (o, w') ->
    w_files w' = w_files w /\ w_stdout w' = w_stdout w /\ w_writable w' = w_writable w.

(** The first character of [s] satisfies [p]. *)
Definition head_is (p : ascii -> bool) (s : string) : bool :=
  match s with
  | String c _ => p c
  | EmptyString => false
  end.

(** [picks p alts l]: among the alternatives [alts], tried in order on a
    text that starts with [l] and goes on with a character outside the
    class [p], the first that matches is [l] itself: every alternative in
    front of [l] either differs from it or continues it with a character of
    class [p]. *)
Fixpoint picks (p : ascii -> bool) (alts : list string) (l : string) : bool :=
  match alts with
  | [] => false
  | a :: alts' =>
      String.eqb a l
      || (((negb (Str.startswith a l) && negb (Str.startswith l a))
           || (Str.startswith l a && head_is p (Str.drop (String.length l) a)))
          && picks p alts' l)
  end.

(** A text at which the release segment stops: it starts neither with a
    digit nor with a dot and a digit. *)
Definition ends_release (s : string) : bool :=
  negb (head_is Str.is_digit s)
  && match s with
     | String c r => negb (Ascii.eqb c ".") || negb (head_is Str.is_digit r)
     | EmptyString => true
     end.

(** [selects ... releases out]: [out] lists, in order, the entries of the
    releases that survive, and nothing else. *)
Inductive selects (start_date : date) (package_name : option string)
    (include_prereleases : bool) : list value -> list (string * date) -> Prop :=
| selects_nil : selects start_date package_name include_prereleases [] []
| selects_keep release entry releases out :
    survives start_date package_name include_prereleases release entry ->
    selects start_date package_name include_prereleases releases out ->
    selects start_date package_name include_prereleases (release :: releases) (entry :: out)
| selects_drop release releases out :
    (forall entry, ~ survives start_date package_name include_prereleases release entry) ->
    selects start_date package_name include_prereleases releases out ->
    selects start_date package_name include_prereleases (release :: releases) out.

(** The objects a [for] loop or [list.extend] accepts. *)
Definition iterable (obj : value) : bool :=
  match obj with
  | VList _ | VDict _ | VStr _ => true
  | _ => false
  end.

(** Midnight of a date: what [strptime] gives under a format that has no
    directive for the time. *)
Definition midnight (d : date) : datetime :=
  {| dt_date := d; hour := 0; minute := 0; second := 0 |}.

(** A computation that calls [sys.exit] with status 1 only, and only
    right after it has logged an error. *)
Definition loud {A} (m : M A) : Prop :=
  forall w c,
    fst (m w) = SysExit c ->
    c = 1%Z /\ exists msg, last (w_log (snd (m w))) = Some (ERROR, msg).

(** The file the orchestrator writes to: the one asked for, or the default
    name when none or the empty one is asked for. *)
Definition output_path (args : arguments) (owner repo : string) : string :=
  match arg_output args with
  | Some (String c p) => String c p
  | _ => default_file_name owner repo (arg_package_name args)
  end.

(** A number whose decimal text [int] converts: at most
    [sys.int_info.default_max_str_digits] digits. *)
Definition convertible (n : N) : bool :=
  (String.length (Str.of_N n) <=? Str.max_str_digits)%nat.

(** No text that [Version.__init__] may hand to [int] is longer than
    [bound]. *)
Definition groups_within (bound : nat) (g : Packaging.Groups) : Prop :=
  String.length (Packaging.g_epoch g) <= bound
  /\ Forall (fun ds => ds <> "" /\ String.length ds <= bound) (Packaging.g_release g)
  /\ String.length (Packaging.g_pre_n g) <= bound
  /\ String.length (Packaging.g_post_n g) <= bound
  /\ String.length (Packaging.g_dev_n g) <= bound
  /\ match Packaging.g_local g with
     | Some label => String.length label <= bound
     | None => True
     end.

(** The decimal text of a number of 4301 digits, one more than [int]
    converts. *)
Definition long_number : string := String.concat "" (replicate 4301 "9").

(** * Properties *)

(** ** The monad and the world *)

Lemma append_cons (ch : ascii) (a b : string) : String ch a +:+ b = String ch (a +:+ b).
Proof. reflexivity. Qed.

Lemma append_nil_l (a : string) : "" +:+ a = a.
Proof. reflexivity. Qed.

Lemma append_assoc (a b c : string) : (a +:+ b) +:+ c = a +:+ (b +:+ c).
Proof.
  induction a as [|ch a IH]; [reflexivity |].
  rewrite !append_cons. by rewrite IH.
Qed.

Lemma append_empty_r (a : string) : a +:+ "" = a.
Proof.
  induction a as [|ch a IH]; [reflexivity |].
  rewrite append_cons. by rewrite IH.
Qed.

Lemma add_log_nil (w : world) : add_log [] w = w.
Proof. destruct w; unfold add_log; simpl. by rewrite app_nil_r. Qed.

Lemma add_log_app (l1 l2 : list (level * message)) (w : world) :
  add_log l2 (add_log l1 w) = add_log (l1 ++ l2) w.
Proof. unfold add_log; simpl. by rewrite app_assoc. Qed.

Lemma for_each_app {A S} (l1 l2 : list A) (body : A -> S -> M S) (acc : S) (w : world) :
  for_each (l1 ++ l2) body acc w
  = (for_each l1 body acc ≫= for_each l2 body) w.
Proof.
  revert acc w. induction l1 as [|x l1 IH]; intros acc w; simpl.
  - reflexivity.
  - unfold mbind, M_bind in *.
    destruct (body x acc w) as [[a | e | c |] w1]; try reflexivity.
    apply IH.
Qed.

(** ** The writer *)

Lemma write_entries (entries : list (string * date)) (path content : string) (w : world) :
  w_files w !! path = Some content ->
  for_each entries (fun entry _ => write path (entry_text entry +:+ newline)) tt w
  = (Return tt, set_files (<[path := content +:+ file_text entries]> (w_files w)) w).
Proof.
  revert content w. induction entries as [|entry rest IH]; intros content w Hc.
  - simpl. unfold mret, M_ret. f_equal. rewrite append_empty_r.
    rewrite insert_id by done. by destruct w.
  - cbn [for_each file_text]. unfold mbind, M_bind, write at 1. rewrite Hc. simpl default.
    rewrite (IH (content +:+ (entry_text entry +:+ newline))).
    + simpl. rewrite insert_insert_eq. by rewrite append_assoc.
    + simpl. by rewrite lookup_insert_eq.
Qed.

Lemma save_to_file_writes (entries : list (string * date)) (path : string) (w : world) :
  path <> "" -> w_writable w path = true ->
  save_to_file entries path w
  = (Return tt, add_log [(INFO, MsgSaved path)]
                  (set_files (<[path := file_text entries]> (w_files w)) w)).
Proof.
  intros Hne Hw. unfold save_to_file, try_except, mbind, M_bind, open_w.
  apply String.eqb_neq in Hne. rewrite Hne, Hw. simpl.
  rewrite (write_entries entries path "").
  - simpl. rewrite insert_insert_eq. reflexivity.
  - simpl. by rewrite lookup_insert_eq.
Qed.

Lemma holds_from_spec (p : N -> bool) (count : nat) :
  forall start n,
    holds_from p count start = true ->
    (start <= n < start + N.of_nat count)%N -> p n = true.
Proof.
  induction count as [|count IH]; intros start n Hall Hn; [lia |].
  cbn [holds_from] in Hall. apply andb_true_iff in Hall as [Hstart Hall].
  destruct (N.eq_dec n start) as [-> | Hne]; [done |].
  apply (IH (N.succ start)); [done | lia].
Qed.

Lemma padded_year (n : N) : (n <= 9999)%N -> padded_ok 4 n = true.
Proof.
  intros Hn. apply (holds_from_spec _ (N.to_nat 10000) 0); [by vm_compute | lia].
Qed.

Lemma padded_two (n : N) : (n <= 99)%N -> padded_ok 2 n = true.
Proof.
  intros Hn. apply (holds_from_spec _ (N.to_nat 100) 0); [by vm_compute | lia].
Qed.

(** C8: with a path that can be opened, the writer returns normally and the
    file then holds exactly one newline-terminated line ["<tag>, <date>"]
    per entry, in order, whatever the file held before; every other file is
    untouched, and for no entries the file exists and is empty.  The date
    of a line is four digits of year, a hyphen, two digits of month, a
    hyphen and two digits of day. *)
Theorem save_to_file_content (entries : list (string * date)) (path : string) (w : world) :
  path <> "" -> w_writable w path = true ->
  fst (save_to_file entries path w) = Return tt
  /\ w_files (snd (save_to_file entries path w)) !! path = Some (file_text entries)
  /\ (forall other, other <> path ->
        w_files (snd (save_to_file entries path w)) !! other = w_files w !! other)
  /\ file_text entries
     = foldr (fun entry text =>
                (fst entry +:+ ", " +:+ date_str (snd entry) +:+ newline) +:+ text)
             "" entries
  /\ (entries = [] -> w_files (snd (save_to_file entries path w)) !! path = Some "")
  /\ (forall d : date,
        (year d <= 9999)%N -> (month d <= 99)%N -> (day d <= 99)%N ->
        exists yyyy mm dd,
          date_str d = yyyy +:+ "-" +:+ mm +:+ "-" +:+ dd
          /\ String.length yyyy = 4 /\ String.length mm = 2 /\ String.length dd = 2
          /\ Str.all Str.is_digit (yyyy +:+ mm +:+ dd) = true
          /\ Str.to_N yyyy = year d /\ Str.to_N mm = month d /\ Str.to_N dd = day d).
Proof.
  intros Hne Hw. rewrite (save_to_file_writes entries path w Hne Hw). simpl.
  repeat split.
  - by rewrite lookup_insert_eq.
  - intros other Ho. by rewrite lookup_insert_ne.
  - induction entries as [|entry rest IH]; [reflexivity |].
    cbn [file_text foldr]. rewrite IH. unfold entry_text. by rewrite !append_assoc.
  - intros ->. by rewrite lookup_insert_eq.
  - intros d Hy Hm Hd.
    pose proof (padded_year _ Hy) as Py. pose proof (padded_two _ Hm) as Pm.
    pose proof (padded_two _ Hd) as Pd. unfold padded_ok in Py, Pm, Pd.
    apply andb_true_iff in Py as [Py Py3]. apply andb_true_iff in Py as [Py1 Py2].
    apply andb_true_iff in Pm as [Pm Pm3]. apply andb_true_iff in Pm as [Pm1 Pm2].
    apply andb_true_iff in Pd as [Pd Pd3]. apply andb_true_iff in Pd as [Pd1 Pd2].
    apply Nat.eqb_eq in Py1, Pm1, Pd1. apply N.eqb_eq in Py3, Pm3, Pd3.
    eexists _, _, _. split; [reflexivity |]. repeat split; try done.
    clear -Py2 Pm2 Pd2.
    assert (forall a b, Str.all Str.is_digit a = true -> Str.all Str.is_digit b = true ->
                        Str.all Str.is_digit (a +:+ b) = true) as Happ.
    { intros a b Ha Hb. induction a as [|c a IH]; [done |]. simpl in *.
      apply andb_true_iff in Ha as [-> Ha]. by apply IH. }
    apply Happ; [done |]. by apply Happ.
Qed.

Lemma save_to_file_content_witness :
  let w := set_files {[ "out.txt" := "stale" ]}
             {| w_log := []; w_stdout := []; w_files := ∅; w_requests := [];
                w_server := fun _ _ => HttpFailure; w_writable := fun _ => true |} in
  w_files (snd (save_to_file [("v1.2.0", {| year := 2024; month := 2; day := 1 |})]
                  "out.txt" w)) !! "out.txt"
  = Some ("v1.2.0, 2024-02-01" +:+ newline).
Proof.
  intros w.
  destruct (save_to_file_content [("v1.2.0", {| year := 2024; month := 2; day := 1 |})]
              "out.txt" w) as (_ & H & _).
  - discriminate.
  - reflexivity.
  - exact H.
Defined.

(** C1: on the scenario of the specification (start date 2024-01-01, no
    package filter, pre-releases excluded) the filter returns exactly the
    pair (v1.2.0, 2024-02-01), whose text is the line [v1.2.0, 2024-02-01]
    and which the writer leaves as the only line of the file. *)
Theorem scenario_single_line (w : world) (path : string) :
  path <> "" -> w_writable w path = true ->
  fst (filter_releases scenario_releases scenario_start None false w)
  = Return [("v1.2.0", {| year := 2024; month := 2; day := 1 |})]
  /\ map entry_text [("v1.2.0", {| year := 2024; month := 2; day := 1 |})]
     = ["v1.2.0, 2024-02-01"]
  /\ w_files (snd (save_to_file [("v1.2.0", {| year := 2024; month := 2; day := 1 |})] path w))
       !! path
     = Some ("v1.2.0, 2024-02-01" +:+ newline).
Proof.
  intros Hne Hw. split; [reflexivity | split; [reflexivity |]].
  rewrite (save_to_file_writes _ path w Hne Hw). simpl.
  by rewrite lookup_insert_eq.
Qed.

Lemma scenario_single_line_witness :
  fst (filter_releases scenario_releases scenario_start None false
         {| w_log := []; w_stdout := []; w_files := ∅; w_requests := [];
            w_server := fun _ _ => HttpFailure; w_writable := fun _ => true |})
  = Return [("v1.2.0", {| year := 2024; month := 2; day := 1 |})].
Proof.
  refine (proj1 (scenario_single_line _ "acme_widget_releases.txt" _ _)).
  - discriminate.
  - reflexivity.
Defined.

(** ** Computations that only log *)

Lemma tame_run {A} (m : M A) (w : world) :
  tame m -> m w = (result m, add_log (records m) w).
Proof. intros [H _]. apply H. Qed.

Lemma tame_ret {A} (a : A) : tame (mret a).
Proof. split; [intros w; unfold records; simpl; by rewrite add_log_nil | exact I]. Qed.

Lemma tame_raise {A} (e : exn) : tame (@raise A e).
Proof. split; [intros w; unfold records; simpl; by rewrite add_log_nil | exact I]. Qed.

Lemma tame_logging (lv : level) (msg : message) : tame (logging lv msg).
Proof. split; [intros w; reflexivity | exact I]. Qed.

(** How a bind runs when its first computation is tame. *)
Lemma run_bind {A B} (m : M A) (k : A -> M B) (w : world) :
  tame m ->
  (m ≫= k) w
  = match result m with
    | Return a => k a (add_log (records m) w)
    | Raise e => (Raise e, add_log (records m) w)
    | SysExit c => (SysExit c, add_log (records m) w)
    | OutOfFuel => (OutOfFuel, add_log (records m) w)
    end.
Proof.
  intros Hm. unfold mbind, M_bind. rewrite (tame_run m w Hm).
  by destruct (result m).
Qed.

(** How a [try] runs when its body is tame. *)
Lemma run_try {A} (m : M A) (catches : exn -> bool) (handler : exn -> M A) (w : world) :
  tame m ->
  try_except m catches handler w
  = match result m with
    | Raise e => if catches e then handler e (add_log (records m) w)
                 else (Raise e, add_log (records m) w)
    | o => (o, add_log (records m) w)
    end.
Proof.
  intros Hm. unfold try_except. rewrite (tame_run m w Hm).
  by destruct (result m).
Qed.

Lemma tame_bind {A B} (m : M A) (k : A -> M B) :
  tame m -> (forall a, tame (k a)) -> tame (m ≫= k).
Proof.
  intros Hm Hk. pose proof (proj2 Hm) as Hs.
  unfold tame, emits, result, records.
  rewrite (run_bind m k idle_world Hm).
  destruct (result m) as [a | e | c |] eqn:Hr; try done.
  - rewrite (tame_run (k a) _ (Hk a)). simpl. split; [| apply (Hk a)].
    intros w. rewrite (run_bind m k w Hm), Hr, (tame_run (k a) _ (Hk a)).
    by rewrite add_log_app.
  - simpl. split; [| done]. intros w. by rewrite (run_bind m k w Hm), Hr.
Qed.

Lemma tame_try {A} (m : M A) (catches : exn -> bool) (handler : exn -> M A) :
  tame m -> (forall e, tame (handler e)) -> tame (try_except m catches handler).
Proof.
  intros Hm Hh. pose proof (proj2 Hm) as Hs.
  unfold tame, emits, result, records.
  rewrite (run_try m catches handler idle_world Hm).
  destruct (result m) as [a | e | c |] eqn:Hr; try done.
  - simpl. split; [| done]. intros w. by rewrite (run_try m _ _ w Hm), Hr.
  - destruct (catches e) eqn:Hc.
    + rewrite (tame_run (handler e) _ (Hh e)). simpl. split; [| apply (Hh e)].
      intros w. rewrite (run_try m _ _ w Hm), Hr, Hc, (tame_run (handler e) _ (Hh e)).
      by rewrite add_log_app.
    + simpl. split; [| done]. intros w. by rewrite (run_try m _ _ w Hm), Hr, Hc.
Qed.

Lemma tame_getitem (obj : value) (key : string) : tame (getitem obj key).
Proof.
  destruct obj as [| | | | |d]; try apply tame_raise.
  unfold getitem. destruct (dict_get key d); [apply tame_ret | apply tame_raise].
Qed.

Lemma tame_str_method (obj : value) : tame (str_method obj).
Proof. destruct obj; try apply tame_raise. apply tame_ret. Qed.

Lemma tame_strptime (obj : value) (fmt : string) : tame (strptime obj fmt).
Proof.
  destruct obj as [| | |text| |]; try apply tame_raise.
  unfold strptime. destruct (strptime_str text fmt); [apply tame_ret | apply tame_raise].
Qed.

Lemma tame_Version_of (text : string) : tame (Packaging.Version_of text).
Proof.
  unfold Packaging.Version_of.
  destruct (Packaging.search text) as [g |]; [| apply tame_raise].
  destruct (Packaging.of_groups g); [apply tame_ret | apply tame_raise].
Qed.

Create HintDb tame.
#[export] Hint Resolve tame_ret tame_raise tame_logging tame_getitem tame_str_method
  tame_strptime tame_Version_of : tame.

(** Tameness of a program built from binds, handlers and case analyses. *)
Ltac tame_step :=
  first
    [ solve [auto with tame]
    | apply tame_bind
    | apply tame_try
    | match goal with
      | |- forall _, _ => intro
      | |- tame (match ?x with _ => _ end) => destruct x
      | |- tame (let _ := _ in _) => cbv zeta
      end ].

Ltac tame_tac := repeat tame_step.

(** The version extractor is tame. *)
Lemma tame_extract_version (tag_name : value) (package_name : option string) :
  tame (extract_version tag_name package_name).
Proof. unfold extract_version. tame_tac. Qed.

#[export] Hint Resolve tame_extract_version : tame.

Lemma tame_filter_release_body start_date package_name include_prereleases release acc :
  tame (filter_release_body start_date package_name include_prereleases release acc).
Proof. unfold filter_release_body. tame_tac. Qed.

#[export] Hint Resolve tame_filter_release_body : tame.

Lemma tame_filter_release start_date package_name include_prereleases release acc :
  tame (filter_release start_date package_name include_prereleases release acc).
Proof. unfold filter_release. tame_tac. Qed.

#[export] Hint Resolve tame_filter_release : tame.

Lemma result_getitem (obj : value) (key : string) (v : value) :
  result (getitem obj key) = Return v ->
  exists d, obj = VDict d /\ dict_get key d = Some v.
Proof.
  destruct obj as [| | | | |d]; try discriminate.
  unfold result, getitem. destruct (dict_get key d) as [v'|] eqn:Hd; [| discriminate].
  simpl. intros [= <-]. eauto.
Qed.

Lemma result_strptime (obj : value) (fmt : string) (dt : datetime) :
  result (strptime obj fmt) = Return dt ->
  exists text, obj = VStr text /\ strptime_str text fmt = Some dt.
Proof.
  destruct obj as [| | |text| |]; try discriminate.
  unfold result, strptime. destruct (strptime_str text fmt) as [dt'|] eqn:Hd; [| discriminate].
  simpl. intros [= <-]. eauto.
Qed.

Lemma result_str_method (obj : value) (s : string) :
  result (str_method obj) = Return s -> obj = VStr s.
Proof. destruct obj; try discriminate. by intros [= <-]. Qed.

Ltac step_bind := rewrite run_bind by auto with tame.

Ltac soft_cases T R :=
  match type of T with
  | tame ?m =>
      let o := fresh "o" in
      destruct (result m) as [? | ? | ? |] eqn:R;
      [ | | exfalso; destruct T as [_ T]; rewrite R in T; exact T
            | exfalso; destruct T as [_ T]; rewrite R in T; exact T ]
  end.

(** One [try] block, whatever the list it starts from: it ends with an
    exception, or appends nothing, or appends the one entry of a release
    that survives. *)
Lemma filter_release_body_run start_date package_name include_prereleases release :
  exists o recs,
    (forall acc w,
       filter_release_body start_date package_name include_prereleases release acc w
       = (lift acc o, add_log recs w))
    /\ match o with
       | Return [] => True
       | Return [entry] =>
           survives start_date package_name include_prereleases release entry
       | Raise _ => True
       | _ => False
       end.
Proof.
  unfold filter_release_body.
  pose proof (tame_getitem release "published_at") as T1. soft_cases T1 R1.
  2: { eexists (Raise _), _. split; [| done]. intros acc w. step_bind. by rewrite R1. }
  rename a into pub.
  pose proof (tame_strptime pub "%Y-%m-%dT%H:%M:%SZ") as T2. soft_cases T2 R2.
  2: { eexists (Raise _), _. split; [| done]. intros acc w. step_bind; rewrite R1. step_bind; rewrite R2.
       by rewrite add_log_app. }
  rename a into dt.
  pose proof (tame_getitem release "tag_name") as T3.
  destruct (date_lt (dt_date dt) start_date) eqn:Hlt.
  { soft_cases T3 R3.
    - eexists (Return []), _. split; [| done]. intros acc w. step_bind; rewrite R1. step_bind; rewrite R2. rewrite Hlt. step_bind. rewrite R3. unfold mbind, M_bind, logging, mret, M_ret.
      simpl. unfold lift. rewrite app_nil_r, ?add_log_app. reflexivity.
    - eexists (Raise _), _. split; [| done]. intros acc w. step_bind; rewrite R1. step_bind; rewrite R2. rewrite Hlt. step_bind. rewrite R3. by rewrite !add_log_app. }
  soft_cases T3 R3.
  2: { eexists (Raise _), _. split; [| done]. intros acc w. step_bind; rewrite R1. step_bind; rewrite R2. rewrite Hlt. step_bind. rewrite R3. by rewrite !add_log_app. }
  rename a into tagv.
  pose proof (tame_extract_version tagv package_name) as T4. soft_cases T4 R4.
  2: { eexists (Raise _), _. split; [| done]. intros acc w. step_bind; rewrite R1. step_bind; rewrite R2. rewrite Hlt. step_bind; rewrite R3. step_bind; rewrite R4. by rewrite !add_log_app. }
  destruct a as [v|].
  2: { eexists (Return []), _. split; [| done]. intros acc w. step_bind; rewrite R1. step_bind; rewrite R2. rewrite Hlt. step_bind; rewrite R3. step_bind; rewrite R4. unfold mret, M_ret.
       unfold lift. rewrite app_nil_r, ?add_log_app. reflexivity. }
  destruct (negb include_prereleases && Packaging.is_prerelease v) eqn:Hpre.
  { eexists (Return []), _. split; [| done]. intros acc w. step_bind; rewrite R1. step_bind; rewrite R2. rewrite Hlt. step_bind; rewrite R3. step_bind; rewrite R4. rewrite Hpre.
    unfold mbind, M_bind, logging, mret, M_ret. simpl.
    unfold lift. rewrite app_nil_r, ?add_log_app. reflexivity. }
  pose proof (tame_str_method tagv) as T5. soft_cases T5 R5.
  2: { eexists (Raise _), _. split; [| done]. intros acc w. step_bind; rewrite R1. step_bind; rewrite R2. rewrite Hlt. step_bind; rewrite R3. step_bind; rewrite R4. rewrite Hpre. step_bind.
       rewrite R5. by rewrite !add_log_app. }
  rename a into tag.
  eexists (Return [(tag, dt_date dt)]), _. split.
  - intros acc w. step_bind; rewrite R1. step_bind; rewrite R2. rewrite Hlt. step_bind; rewrite R3. step_bind; rewrite R4. rewrite Hpre. step_bind. rewrite R5. unfold mret, M_ret.
    by rewrite !add_log_app.
  - apply result_str_method in R5 as ->.
    apply result_getitem in R1 as (d & -> & Hpub).
    apply result_getitem in R3 as (d' & [= <-] & Htag).
    apply result_strptime in R2 as (text & -> & Hdt).
    exists d, text, dt, v. repeat split; try done.
    destruct include_prereleases; [by left | by right].
Qed.

(** One turn of the loop never fails: it appends nothing or the one entry
    of a surviving release, and logs an error when its [try] block raised. *)
Lemma filter_release_run start_date package_name include_prereleases release :
  exists kept recs,
    (forall acc w,
       filter_release start_date package_name include_prereleases release acc w
       = (Return (acc ++ kept), add_log recs w))
    /\ (kept = [] \/
        exists entry, kept = [entry]
          /\ survives start_date package_name include_prereleases release entry)
    /\ (forall acc w e,
          fst (filter_release_body start_date package_name include_prereleases release acc w)
          = Raise e ->
          kept = [] /\ (ERROR, MsgErrorProcessing release e) ∈ recs).
Proof.
  destruct (filter_release_body_run start_date package_name include_prereleases release)
    as (o & recs & Hrun & Ho).
  destruct o as [kept | e | c |]; try done.
  - exists kept, recs. split; [| split].
    + intros acc w. unfold filter_release, try_except. by rewrite Hrun.
    + destruct kept as [|entry [|? ?]]; [by left | right; eauto | done].
    + intros acc w e. by rewrite Hrun.
  - exists [], (recs ++ [(ERROR, MsgErrorProcessing release e)]). split; [| split].
    + intros acc w. unfold filter_release, try_except. rewrite Hrun. simpl.
      unfold mbind, M_bind, logging, mret, M_ret.
      by rewrite add_log_app, app_nil_r.
    + by left.
    + intros acc w e'. rewrite Hrun. simpl. intros [= <-]. split; [done |].
      apply elem_of_app. right. apply list_elem_of_singleton. done.
Qed.

(** The whole loop: it returns, and what it appends are the entries of a
    subsequence of the releases, in their order. *)
Lemma filter_loop_run start_date package_name include_prereleases releases :
  exists out recs,
    (forall acc w,
       for_each releases (filter_release start_date package_name include_prereleases) acc w
       = (Return (acc ++ out), add_log recs w))
    /\ exists sources,
         sublist sources releases
         /\ Forall2 (survives start_date package_name include_prereleases) sources out.
Proof.
  induction releases as [|release rest IH].
  - exists [], []. split.
    + intros acc w. simpl. unfold mret, M_ret. by rewrite app_nil_r, add_log_nil.
    + exists []. split; constructor.
  - destruct IH as (out & recs & Hrest & sources & Hsub & Hall).
    destruct (filter_release_run start_date package_name include_prereleases release)
      as (kept & recs1 & Hone & Hkept & _).
    exists (kept ++ out), (recs1 ++ recs). split.
    + intros acc w. cbn [for_each]. unfold mbind, M_bind. rewrite Hone, Hrest.
      by rewrite add_log_app, app_assoc.
    + destruct Hkept as [-> | (entry & -> & Hentry)].
      * exists sources. split; [by apply sublist_cons | done].
      * exists (release :: sources). split; [by apply sublist_skip | by constructor].
Qed.

(** ** The release filter *)

Lemma ret_bind {A B} (a : A) (k : A -> M B) : (mret a ≫= k) = k a.
Proof. reflexivity. Qed.

Lemma getitem_found (d : list (string * value)) (key : string) (v : value) :
  dict_get key d = Some v -> getitem (VDict d) key = mret v.
Proof. intros H. unfold getitem. by rewrite H. Qed.

Lemma strptime_found (text fmt : string) (dt : datetime) :
  strptime_str text fmt = Some dt -> strptime (VStr text) fmt = mret dt.
Proof. intros H. unfold strptime. by rewrite H. Qed.

(** [d1 < d2] on dates is the order of the calendar. *)
Lemma date_lt_spec (d1 d2 : date) :
  date_lt d1 d2 = true <->
  (year d1 < year d2
   \/ (year d1 = year d2
       /\ (month d1 < month d2 \/ (month d1 = month d2 /\ day d1 < day d2))))%N.
Proof.
  unfold date_lt.
  rewrite !orb_true_iff, !andb_true_iff, !orb_true_iff, !andb_true_iff.
  rewrite !N.ltb_lt, !N.eqb_eq. tauto.
Qed.

Lemma date_lt_irrefl (d : date) : date_lt d d = false.
Proof.
  apply not_true_is_false. rewrite date_lt_spec. lia.
Qed.

(** C2: a release whose [published_at] parses to a date is dropped by the
    date test exactly when that date is strictly before the start date in
    calendar order: then it is dropped whatever its tag; otherwise (the
    start date itself included) a release with a version that is wanted is
    kept. *)
Theorem date_test_inclusive (start_date : date) (package_name : option string)
    (include_prereleases : bool) (d : list (string * value)) (text : string)
    (dt : datetime) (acc : list (string * date)) (w : world) :
  dict_get "published_at" d = Some (VStr text) ->
  strptime_str text "%Y-%m-%dT%H:%M:%SZ" = Some dt ->
  (date_lt (dt_date dt) start_date = true <->
   (year (dt_date dt) < year start_date
    \/ (year (dt_date dt) = year start_date
        /\ (month (dt_date dt) < month start_date
            \/ (month (dt_date dt) = month start_date
                /\ day (dt_date dt) < day start_date))))%N)
  /\ (date_lt (dt_date dt) start_date = true ->
      fst (filter_release start_date package_name include_prereleases (VDict d) acc w)
      = Return acc)
  /\ (date_lt (dt_date dt) start_date = false ->
      forall tag v,
        dict_get "tag_name" d = Some (VStr tag) ->
        result (extract_version (VStr tag) package_name) = Return (Some v) ->
        include_prereleases = true \/ Packaging.is_prerelease v = false ->
        fst (filter_release start_date package_name include_prereleases (VDict d) acc w)
        = Return (acc ++ [(tag, dt_date dt)]))
  /\ (dt_date dt = start_date -> date_lt (dt_date dt) start_date = false).
Proof.
  intros Hpub Hdt. split; [apply date_lt_spec |]. split; [| split].
  - intros Hlt. unfold filter_release, filter_release_body.
    rewrite (getitem_found _ _ _ Hpub), ret_bind, (strptime_found _ _ _ Hdt), ret_bind.
    cbv zeta. rewrite Hlt.
    unfold getitem. destruct (dict_get "tag_name" d); reflexivity.
  - intros Hlt tag v Htag Hv Hwanted. unfold filter_release, filter_release_body.
    rewrite (getitem_found _ _ _ Hpub), ret_bind, (strptime_found _ _ _ Hdt), ret_bind.
    cbv zeta. rewrite Hlt, (getitem_found _ _ _ Htag), ret_bind.
    rewrite run_try.
    + unfold result at 1. rewrite run_bind by auto with tame. rewrite Hv.
      replace (negb include_prereleases && Packaging.is_prerelease v) with false
        by (destruct Hwanted as [-> | ->]; [done | by rewrite andb_false_r]).
      reflexivity.
    + apply tame_bind; [auto with tame |]. intros [v' |]; tame_tac.
  - intros <-. apply date_lt_irrefl.
Qed.

Lemma date_test_inclusive_witness :
  fst (filter_release scenario_start None false
         (release_record "v1.2.0" "2024-01-01T00:00:00Z") [] idle_world)
  = Return [("v1.2.0", scenario_start)].
Proof.
  refine (proj1 (proj2 (proj2 (date_test_inclusive scenario_start None false
            [("tag_name", VStr "v1.2.0"); ("published_at", VStr "2024-01-01T00:00:00Z")]
            "2024-01-01T00:00:00Z"
            {| dt_date := scenario_start; hour := 0; minute := 0; second := 0 |}
            [] idle_world _ _))) _ "v1.2.0"
            {| Packaging.epoch := 0; Packaging.release := [1; 2; 0]%N;
               Packaging.pre := None; Packaging.post := None;
               Packaging.dev := None; Packaging.local := None |} _ _ _);
    first [reflexivity | by right].
Defined.

(** C7: the filter always returns normally; and a record whose [try] block
    raises is logged as an error and skipped, the output being the one the
    filter gives without that record.  A record without [published_at], or
    with one that does not parse, is such a record. *)
Theorem faulty_record_skipped (start_date : date) (package_name : option string)
    (include_prereleases : bool) :
  (forall releases w,
     exists out, fst (filter_releases releases start_date package_name
                        include_prereleases w) = Return out)
  /\ (forall before faulty after e acc0 w0 w,
        fst (filter_release_body start_date package_name include_prereleases
               faulty acc0 w0) = Raise e ->
        fst (filter_releases (before ++ faulty :: after) start_date package_name
               include_prereleases w)
        = fst (filter_releases (before ++ after) start_date package_name
                 include_prereleases w)
        /\ (ERROR, MsgErrorProcessing faulty e)
             ∈ w_log (snd (filter_releases (before ++ faulty :: after) start_date
                             package_name include_prereleases w)))
  /\ (forall d acc w,
        dict_get "published_at" d = None ->
        fst (filter_release_body start_date package_name include_prereleases
               (VDict d) acc w) = Raise (KeyError "published_at"))
  /\ (forall d text acc w,
        dict_get "published_at" d = Some (VStr text) ->
        strptime_str text "%Y-%m-%dT%H:%M:%SZ" = None ->
        fst (filter_release_body start_date package_name include_prereleases
               (VDict d) acc w) = Raise ValueError).
Proof.
  split; [| split; [| split]].
  - intros releases w.
    destruct (filter_loop_run start_date package_name include_prereleases releases)
      as (out & recs & Hrun & _).
    exists out. unfold filter_releases. by rewrite Hrun.
  - intros before faulty after e acc0 w0 w Hraise.
    destruct (filter_loop_run start_date package_name include_prereleases before)
      as (out1 & recs1 & Hrun1 & _).
    destruct (filter_loop_run start_date package_name include_prereleases after)
      as (out2 & recs2 & Hrun2 & _).
    destruct (filter_release_run start_date package_name include_prereleases faulty)
      as (kept & recs & Hone & _ & Hfaulty).
    destruct (Hfaulty acc0 w0 e Hraise) as [-> Hlogged].
    unfold filter_releases. rewrite !for_each_app. unfold mbind, M_bind.
    rewrite Hrun1. cbn [for_each]. unfold mbind, M_bind.
    rewrite Hone, !Hrun2. split; [by rewrite app_nil_r |].
    simpl. rewrite !elem_of_app. left. by right.
  - intros d acc w Hpub. unfold filter_release_body, getitem. by rewrite Hpub.
  - intros d text acc w Hpub Hdt. unfold filter_release_body.
    rewrite (getitem_found _ _ _ Hpub), ret_bind. unfold strptime. by rewrite Hdt.
Qed.

Lemma faulty_record_skipped_witness :
  fst (filter_releases
         ([release_record "v1.2.0" "2024-02-01T00:00:00Z"]
          ++ VDict [("tag_name", VStr "v1.2.1")]
          :: [release_record "v1.3.0" "2024-03-01T00:00:00Z"])
         scenario_start None false idle_world)
  = fst (filter_releases
           ([release_record "v1.2.0" "2024-02-01T00:00:00Z"]
            ++ [release_record "v1.3.0" "2024-03-01T00:00:00Z"])
           scenario_start None false idle_world).
Proof.
  refine (proj1 (proj1 (proj2 (faulty_record_skipped scenario_start None false))
                   _ _ _ (KeyError "published_at") [] idle_world idle_world _)).
  reflexivity.
Defined.

(** C9: the output is made of the entries of a subsequence of the input, in
    the input's order: each output pair is the tag and the date of a
    release of its own that survives the tests, and the pairs follow one
    another as their releases do.  With pre-releases included the scenario
    gives v1.2.0 and then v1.3.0-beta. *)
Theorem filter_keeps_order (start_date : date) (package_name : option string)
    (include_prereleases : bool) (releases : list value) (w : world) :
  (exists out sources,
     fst (filter_releases releases start_date package_name include_prereleases w)
     = Return out
     /\ sublist sources releases
     /\ Forall2 (survives start_date package_name include_prereleases) sources out)
  /\ fst (filter_releases scenario_releases scenario_start None true w)
     = Return [("v1.2.0", {| year := 2024; month := 2; day := 1 |});
               ("v1.3.0-beta", {| year := 2024; month := 3; day := 1 |})].
Proof.
  split; [| reflexivity].
  destruct (filter_loop_run start_date package_name include_prereleases releases)
    as (out & recs & Hrun & sources & Hsub & Hall).
  exists out, sources. unfold filter_releases. by rewrite Hrun.
Qed.

(** ** The release fetcher *)

(** One turn of the loop on a page that has records: they are appended and
    the loop goes on with the next page. *)
Lemma fetch_loop_page (fuel : nat) (owner repo : string) (hs : headers)
    (per_page page : nat) (acc records : list value) (w : world) :
  w_server w (releases_url owner repo page per_page) hs = HttpJson (VList records) ->
  records <> [] ->
  exists w1,
    fetch_loop (S fuel) owner repo hs per_page page acc w
    = fetch_loop fuel owner repo hs per_page (S page) (acc ++ records) w1
    /\ w_requests w1 = w_requests w ++ [(releases_url owner repo page per_page, hs)]
    /\ w_server w1 = w_server w.
Proof.
  intros Hserver Hne. eexists. split.
  - cbn [fetch_loop]. unfold mbind at 1, M_bind at 1.
    unfold try_except, mbind, M_bind, logging, requests_get. simpl.
    rewrite Hserver. destruct records as [|r rs]; [done |]. simpl. reflexivity.
  - done.
Qed.

(** One turn of the loop on a page without records: the loop ends. *)
Lemma fetch_loop_empty (fuel : nat) (owner repo : string) (hs : headers)
    (per_page page : nat) (acc : list value) (w : world) :
  w_server w (releases_url owner repo page per_page) hs = HttpJson (VList []) ->
  exists w1,
    fetch_loop (S fuel) owner repo hs per_page page acc w = (Return acc, w1)
    /\ w_requests w1 = w_requests w ++ [(releases_url owner repo page per_page, hs)]
    /\ w_server w1 = w_server w.
Proof.
  intros Hserver. eexists. split.
  - cbn [fetch_loop]. unfold mbind at 1, M_bind at 1.
    unfold try_except, mbind, M_bind, logging, requests_get. simpl.
    rewrite Hserver. simpl. reflexivity.
  - done.
Qed.

Lemma fetch_loop_pages (pages : list (list value)) (owner repo : string) (hs : headers)
    (per_page : nat) :
  forall (page fuel : nat) (acc : list value) (w : world),
    Forall (fun records => records <> []) pages ->
    (forall i records, pages !! i = Some records ->
       w_server w (releases_url owner repo (page + i) per_page) hs
       = HttpJson (VList records)) ->
    w_server w (releases_url owner repo (page + length pages) per_page) hs
    = HttpJson (VList []) ->
    length pages < fuel ->
    exists w1,
      fetch_loop fuel owner repo hs per_page page acc w = (Return (acc ++ concat pages), w1)
      /\ w_requests w1
         = w_requests w
           ++ map (fun p => (releases_url owner repo p per_page, hs))
                  (seq page (S (length pages)))
      /\ w_server w1 = w_server w.
Proof.
  induction pages as [|records pages IH]; intros page fuel acc w Hne Hpages Hlast Hfuel.
  - destruct fuel as [|fuel]; [simpl in Hfuel; lia |].
    simpl in Hlast. rewrite Nat.add_0_r in Hlast.
    destruct (fetch_loop_empty fuel owner repo hs per_page page acc w Hlast)
      as (w1 & Hrun & Hreq & Hsrv).
    exists w1. simpl. by rewrite app_nil_r.
  - destruct fuel as [|fuel]; [simpl in Hfuel; lia |].
    apply Forall_cons in Hne as [Hrec Hne].
    pose proof (Hpages 0 records eq_refl) as Hfirst. rewrite Nat.add_0_r in Hfirst.
    destruct (fetch_loop_page fuel owner repo hs per_page page acc records w Hfirst Hrec)
      as (w1 & Hrun & Hreq & Hsrv).
    destruct (IH (S page) fuel (acc ++ records) w1 Hne) as (w2 & Hrun2 & Hreq2 & Hsrv2).
    + intros i recs Hi. rewrite Hsrv.
      replace (S page + i) with (page + S i) by lia. by apply Hpages.
    + rewrite Hsrv. simpl in Hlast.
      by replace (S page + length pages) with (page + S (length pages)) by lia.
    + simpl in Hfuel. lia.
    + exists w2. rewrite Hrun, Hrun2, Hreq2, Hreq, Hsrv2, Hsrv.
      split; [| split; [| done]].
      * simpl. by rewrite app_assoc.
      * simpl. by rewrite <- app_assoc.
Qed.

(** When every page has records the loop uses up any number of turns. *)
Lemma fetch_loop_endless (page_at : nat -> list value) (owner repo : string) (hs : headers)
    (per_page : nat) :
  forall (fuel page : nat) (acc : list value) (w : world),
    (forall p, page <= p ->
       w_server w (releases_url owner repo p per_page) hs = HttpJson (VList (page_at p))
       /\ page_at p <> []) ->
    exists w1,
      fetch_loop fuel owner repo hs per_page page acc w = (OutOfFuel, w1)
      /\ length (w_requests w1) = length (w_requests w) + fuel.
Proof.
  induction fuel as [|fuel IH]; intros page acc w Hpages.
  - exists w. split; [reflexivity | lia].
  - destruct (Hpages page (le_n _)) as [Hserver Hne].
    destruct (fetch_loop_page fuel owner repo hs per_page page acc _ w Hserver Hne)
      as (w1 & Hrun & Hreq & Hsrv).
    destruct (IH (S page) (acc ++ page_at page) w1) as (w2 & Hrun2 & Hlen).
    + intros p Hp. rewrite Hsrv. apply Hpages. lia.
    + exists w2. rewrite Hrun, Hrun2. split; [done |].
      rewrite Hlen, Hreq, length_app. simpl. lia.
Qed.

(** C6: the fetcher asks for pages 1, 2, 3, ... of 100 records each.  If
    the pages that have records are followed by one that has none, it
    returns, once it is given more turns than there are such pages, the
    concatenation of the pages in front of the empty one, having requested
    each of these pages and the empty one once, in order.  If no page is
    empty it never returns: no bound on the number of pages stops it. *)
Theorem fetch_until_empty_page (owner repo : string) (token : option string) (w : world) :
  (forall (pages : list (list value)) (fuel : nat),
     Forall (fun records => records <> []) pages ->
     (forall i records, pages !! i = Some records ->
        w_server w (releases_url owner repo (1 + i) 100) (request_headers token)
        = HttpJson (VList records)) ->
     w_server w (releases_url owner repo (1 + length pages) 100) (request_headers token)
     = HttpJson (VList []) ->
     length pages < fuel ->
     fst (fetch_releases fuel owner repo token w) = Return (concat pages)
     /\ w_requests (snd (fetch_releases fuel owner repo token w))
        = w_requests w
          ++ map (fun p => (releases_url owner repo p 100, request_headers token))
                 (seq 1 (S (length pages))))
  /\ (forall (page_at : nat -> list value) (fuel : nat),
        (forall p, 1 <= p ->
           w_server w (releases_url owner repo p 100) (request_headers token)
           = HttpJson (VList (page_at p))
           /\ page_at p <> []) ->
        fst (fetch_releases fuel owner repo token w) = OutOfFuel
        /\ length (w_requests (snd (fetch_releases fuel owner repo token w)))
           = length (w_requests w) + fuel).
Proof.
  split.
  - intros pages fuel Hne Hpages Hlast Hfuel.
    destruct (fetch_loop_pages pages owner repo (request_headers token) 100 1 fuel [] w
                Hne Hpages Hlast Hfuel) as (w1 & Hrun & Hreq & _).
    unfold fetch_releases. by rewrite Hrun.
  - intros page_at fuel Hpages.
    destruct (fetch_loop_endless page_at owner repo (request_headers token) 100 fuel 1 [] w
                Hpages) as (w1 & Hrun & Hlen).
    unfold fetch_releases. by rewrite Hrun.
Qed.

Lemma fetch_until_empty_page_witness :
  fst (fetch_releases 2 "acme" "widget" None scenario_world) = Return scenario_releases.
Proof.
  refine (proj1 (proj1 (fetch_until_empty_page "acme" "widget" None scenario_world)
                   [scenario_releases] 2 _ _ _ _)).
  - by repeat constructor.
  - intros [|[|i]] records Hi; [| discriminate | discriminate].
    injection Hi as <-. reflexivity.
  - reflexivity.
  - simpl. lia.
Defined.

(** ** The orchestrator *)

Lemma quiet_ret {A} (a : A) : quiet (mret a).
Proof. intros w o w' [= <- <-]. done. Qed.

Lemma quiet_raise {A} (e : exn) : quiet (@raise A e).
Proof. intros w o w' [= <- <-]. done. Qed.

Lemma quiet_sys_exit {A} (c : Z) : quiet (@sys_exit A c).
Proof. intros w o w' [= <- <-]. done. Qed.

Lemma quiet_out_of_fuel {A} : quiet (@out_of_fuel A).
Proof. intros w o w' [= <- <-]. done. Qed.

Lemma quiet_logging (lv : level) (msg : message) : quiet (logging lv msg).
Proof. intros w o w' [= <- <-]. done. Qed.

Lemma quiet_requests_get (url : string) (hs : headers) : quiet (requests_get url hs).
Proof.
  intros w o w'. unfold requests_get.
  destruct (w_server w url hs); intros [= <- <-]; done.
Qed.

Lemma quiet_bind {A B} (m : M A) (k : A -> M B) :
  quiet m -> (forall a, quiet (k a)) -> quiet (m ≫= k).
Proof.
  intros Hm Hk w o w'. unfold mbind, M_bind.
  destruct (m w) as [[a | e | c |] w1] eqn:Hrun; apply Hm in Hrun as (Hf & Hs & Hw).
  - intros Hrun. apply Hk in Hrun as (Hf' & Hs' & Hw'). by rewrite Hf', Hs', Hw'.
  - by intros [= <- <-].
  - by intros [= <- <-].
  - by intros [= <- <-].
Qed.

Lemma quiet_try {A} (m : M A) (catches : exn -> bool) (handler : exn -> M A) :
  quiet m -> (forall e, quiet (handler e)) -> quiet (try_except m catches handler).
Proof.
  intros Hm Hh w o w'. unfold try_except.
  destruct (m w) as [[a | e | c |] w1] eqn:Hrun; apply Hm in Hrun as (Hf & Hs & Hw);
    try by intros [= <- <-].
  destruct (catches e); [| by intros [= <- <-]].
  intros Hrun. apply Hh in Hrun as (Hf' & Hs' & Hw'). by rewrite Hf', Hs', Hw'.
Qed.

Lemma quiet_iterate (obj : value) : quiet (iterate obj).
Proof. destruct obj; first [apply quiet_ret | apply quiet_raise]. Qed.

Lemma quiet_urlparse (url : string) : quiet (Urllib.urlparse url).
Proof.
  unfold Urllib.urlparse.
  destruct (Urllib.urlparse_str url); [apply quiet_ret | apply quiet_raise].
Qed.

Create HintDb quiet.
#[export] Hint Resolve quiet_ret quiet_raise quiet_sys_exit quiet_out_of_fuel quiet_logging
  quiet_requests_get quiet_iterate quiet_urlparse : quiet.

Ltac quiet_step :=
  first
    [ solve [auto with quiet]
    | apply quiet_bind
    | apply quiet_try
    | match goal with
      | |- forall _, _ => intro
      | |- quiet (match ?x with _ => _ end) => destruct x
      | |- quiet (let _ := _ in _) => cbv zeta
      end ].

Ltac quiet_tac := repeat quiet_step.

Lemma quiet_parse_github_url (repo_url : string) : quiet (parse_github_url repo_url).
Proof. unfold parse_github_url. quiet_tac. Qed.

Lemma quiet_fetch_loop (fuel : nat) (owner repo : string) (hs : headers)
    (per_page : nat) :
  forall page acc, quiet (fetch_loop fuel owner repo hs per_page page acc).
Proof.
  induction fuel as [|fuel IH]; intros page acc; cbn [fetch_loop]; [apply quiet_out_of_fuel |].
  apply quiet_bind; [quiet_tac |].
  intros [[releases' page'] |]; [apply IH | apply quiet_ret].
Qed.

Lemma quiet_filter_releases releases start_date package_name include_prereleases :
  quiet (filter_releases releases start_date package_name include_prereleases).
Proof.
  intros w o w'. unfold filter_releases.
  destruct (filter_loop_run start_date package_name include_prereleases releases)
    as (out & recs & Hrun & _).
  rewrite Hrun. by intros [= <- <-].
Qed.

(** Printing the entries adds their texts to the standard output. *)
Lemma print_entries (entries : list (string * date)) (w : world) :
  exists w1,
    for_each entries (fun entry _ => print (entry_text entry)) tt w = (Return tt, w1)
    /\ w_files w1 = w_files w /\ w_writable w1 = w_writable w
    /\ w_stdout w1 = w_stdout w ++ map entry_text entries.
Proof.
  revert w. induction entries as [|entry rest IH]; intros w.
  - exists w. simpl. by rewrite app_nil_r.
  - cbn [for_each]. unfold mbind, M_bind, print at 1.
    destruct (IH {| w_log := w_log w; w_stdout := w_stdout w ++ [entry_text entry];
                    w_files := w_files w; w_requests := w_requests w;
                    w_server := w_server w; w_writable := w_writable w |})
      as (w1 & Hrun & Hf & Hw & Hs).
    exists w1. rewrite Hrun, Hf, Hw, Hs. simpl. by rewrite <- app_assoc.
Qed.

(** A bind that returns: so did its first computation. *)
Lemma bind_returns {A B} (m : M A) (k : A -> M B) (w w' : world) (b : B) :
  (m ≫= k) w = (Return b, w') ->
  exists a w1, m w = (Return a, w1) /\ k a w1 = (Return b, w').
Proof.
  unfold mbind, M_bind. destruct (m w) as [[a | e | c |] w1]; try discriminate.
  eauto.
Qed.

(** A writer that returns has written the file. *)
Lemma save_to_file_returns (entries : list (string * date)) (path : string) (w w' : world) :
  save_to_file entries path w = (Return tt, w') ->
  path <> "" /\ w_files w' = <[path := file_text entries]> (w_files w)
  /\ w_stdout w' = w_stdout w.
Proof.
  intros Hrun. destruct (String.eqb path "") eqn:Hp.
  - exfalso. revert Hrun. unfold save_to_file, try_except, mbind, M_bind, open_w.
    rewrite Hp. simpl. discriminate.
  - destruct (w_writable w path) eqn:Hw.
    + apply String.eqb_neq in Hp.
      rewrite (save_to_file_writes entries path w Hp Hw) in Hrun.
      injection Hrun as <-. done.
    + exfalso. revert Hrun. unfold save_to_file, try_except, mbind, M_bind, open_w.
      rewrite Hp, Hw. simpl. discriminate.
Qed.

(** C10: with [-o ""] the orchestrator does exactly what it does without
    [-o]; and when it then returns normally, it has written the entries it
    printed to the default file name derived from the parsed owner and
    repository (and package name, if any), not to the empty path. *)
Theorem empty_output_means_default (fuel : nat) (args : arguments) (w : world) :
  main fuel (with_output (Some "") args) w = main fuel (with_output None args) w
  /\ forall w',
       main fuel (with_output (Some "") args) w = (Return tt, w') ->
       exists owner repo entries,
         fst (parse_github_url (arg_repo_url args) w) = Return (owner, repo)
         /\ w_files w'
            = <[default_file_name owner repo (arg_package_name args) := file_text entries]>
                (w_files w)
         /\ w_stdout w' = w_stdout w ++ map entry_text entries
         /\ w_files w' !! "" = w_files w !! "".
Proof.
  split; [reflexivity |].
  intros w' Hrun. unfold main, try_except, with_output in Hrun.
  cbn [arg_repo_url arg_start_date arg_output arg_package_name arg_token
       arg_include_prereleases] in Hrun.
  match type of Hrun with
  | (match ?body with _ => _ end) = _ =>
      destruct body as [[[] | e | c |] w1] eqn:Hbody; try discriminate
  end.
  injection Hrun as ->.
  apply bind_returns in Hbody as (dt & w1 & Hdate & Hbody).
  assert (w1 = w) as ->.
  { revert Hdate. unfold strptime.
    destruct (strptime_str _ _); [by intros [= _ <-] | discriminate]. }
  apply bind_returns in Hbody as ([owner repo] & w2 & Hurl & Hbody).
  apply bind_returns in Hbody as (releases & w3 & Hfetch & Hbody).
  apply bind_returns in Hbody as (entries & w4 & Hfilter & Hbody).
  apply bind_returns in Hbody as ([] & w5 & Hprint & Hbody).
  apply bind_returns in Hbody as (output_file & w6 & Hname & Hsave).
  apply quiet_parse_github_url in Hurl as Hq2. destruct Hq2 as (Hf2 & Hs2 & _).
  apply quiet_fetch_loop in Hfetch as (Hf3 & Hs3 & _).
  apply quiet_filter_releases in Hfilter as (Hf4 & Hs4 & _).
  destruct (print_entries entries w4) as (w5' & Hprint' & Hf5 & _ & Hs5).
  rewrite Hprint' in Hprint. injection Hprint as ->.
  simpl in Hname. unfold mbind, M_bind, logging, mret, M_ret in Hname.
  injection Hname as <- <-.
  apply save_to_file_returns in Hsave as (Hne & Hfiles & Hstdout).
  simpl in Hfiles, Hstdout. rewrite Hf5, Hf4, Hf3, Hf2 in Hfiles.
  rewrite Hs5, Hs4, Hs3, Hs2 in Hstdout.
  assert (default_file_name owner repo (arg_package_name args)
          = if truthy_str (arg_package_name args)
            then owner +:+ "_" +:+ repo +:+ "_"
                 +:+ default "" (arg_package_name args) +:+ "_releases.txt"
            else owner +:+ "_" +:+ repo +:+ "_releases.txt") as Hdefault.
  { by destruct (arg_package_name args) as [[|c p] |]. }
  exists owner, repo, entries. rewrite Hurl, Hdefault, Hfiles, Hstdout.
  repeat split. by rewrite lookup_insert_ne.
Qed.

Lemma empty_output_means_default_witness :
  exists owner repo entries,
    fst (parse_github_url "https://github.com/acme/widget" scenario_world)
    = Return (owner, repo)
    /\ w_files (snd (main 2 {| arg_repo_url := "https://github.com/acme/widget";
                               arg_start_date := "2024-01-01"; arg_output := Some "";
                               arg_package_name := None; arg_token := None;
                               arg_include_prereleases := false |} scenario_world))
       = <[default_file_name owner repo None := file_text entries]> (w_files scenario_world)
    /\ w_stdout (snd (main 2 {| arg_repo_url := "https://github.com/acme/widget";
                                arg_start_date := "2024-01-01"; arg_output := Some "";
                                arg_package_name := None; arg_token := None;
                                arg_include_prereleases := false |} scenario_world))
       = w_stdout scenario_world ++ map entry_text entries
    /\ w_files (snd (main 2 {| arg_repo_url := "https://github.com/acme/widget";
                               arg_start_date := "2024-01-01"; arg_output := Some "";
                               arg_package_name := None; arg_token := None;
                               arg_include_prereleases := false |} scenario_world)) !! ""
       = w_files scenario_world !! "".
Proof.
  refine (proj2 (empty_output_means_default 2
                   {| arg_repo_url := "https://github.com/acme/widget";
                      arg_start_date := "2024-01-01"; arg_output := None;
                      arg_package_name := None; arg_token := None;
                      arg_include_prereleases := false |} scenario_world) _ _).
  vm_compute. reflexivity.
Defined.

(** ** Text: digits, prefixes, spans *)

Lemma digits_of_uint (d : Decimal.uint) :
  Str.all Str.is_digit (NilEmpty.string_of_uint d) = true.
Proof. induction d; simpl; try done. Qed.

Lemma all_digit_of_N (n : N) : Str.all Str.is_digit (Str.of_N n) = true.
Proof.
  unfold Str.of_N, NilZero.string_of_uint.
  destruct (N.to_uint n); try apply (digits_of_uint (_ _)); done.
Qed.

Lemma to_N_of_N (n : N) : Str.to_N (Str.of_N n) = n.
Proof.
  rewrite <- (DecimalN.Unsigned.of_to n) at 2.
  unfold Str.of_N, Str.to_N, NilZero.string_of_uint.
  destruct (N.to_uint n) eqn:Hd; [reflexivity | ..]; rewrite <- Hd;
    by rewrite NilEmpty.usu.
Qed.

Lemma head_digit_of_N (n : N) : head_is Str.is_digit (Str.of_N n) = true.
Proof.
  pose proof (all_digit_of_N n) as Hall.
  unfold Str.of_N, NilZero.string_of_uint in *.
  destruct (N.to_uint n); try done; simpl in *; done.
Qed.

Lemma span_all_app (p : ascii -> bool) (s rest : string) :
  Str.all p s = true -> head_is p rest = false ->
  Str.span p (s +:+ rest) = (s, rest).
Proof.
  intros Hall Hrest. induction s as [|c s IH].
  - rewrite append_nil_l. destruct rest as [|c r]; [done |].
    simpl in *. by rewrite Hrest.
  - rewrite append_cons. simpl in *. apply andb_true_iff in Hall as [Hc Hall].
    by rewrite Hc, (IH Hall).
Qed.

Lemma span_all (p : ascii -> bool) (s : string) :
  Str.all p s = true -> Str.span p s = (s, "").
Proof.
  intros Hall. rewrite <- (append_empty_r s) at 1. by apply span_all_app.
Qed.

Lemma startswith_app (p t : string) : Str.startswith p (p +:+ t) = true.
Proof.
  induction p as [|c p IH]; [done |].
  rewrite append_cons. simpl. by rewrite Ascii.eqb_refl.
Qed.

Lemma drop_app (p t : string) : Str.drop (String.length p) (p +:+ t) = t.
Proof. induction p as [|c p IH]; [done |]. by rewrite append_cons. Qed.

Lemma strip_prefix_app (p t : string) : Str.strip_prefix p (p +:+ t) = Some t.
Proof. unfold Str.strip_prefix. by rewrite startswith_app, drop_app. Qed.

Lemma lower_app (a b : string) : Str.lower (a +:+ b) = Str.lower a +:+ Str.lower b.
Proof.
  induction a as [|c a IH]; [done |].
  rewrite append_cons. simpl. by rewrite IH.
Qed.

Lemma digit_not_upper (c : ascii) : Str.is_digit c = true -> Str.is_upper c = false.
Proof.
  unfold Str.is_digit, Str.is_upper. intros H.
  apply andb_true_iff in H as [_ H]. apply N.leb_le in H.
  apply andb_false_iff. left. apply N.leb_gt. lia.
Qed.

Lemma digit_not_alpha (c : ascii) : Str.is_digit c = true -> Str.is_alpha c = false.
Proof.
  unfold Str.is_digit, Str.is_alpha, Str.is_upper, Str.is_lower. intros H.
  apply andb_true_iff in H as [_ H]. apply N.leb_le in H.
  apply orb_false_iff. split; apply andb_false_iff; left; apply N.leb_gt; lia.
Qed.

Lemma digit_not_space (c : ascii) : Str.is_digit c = true -> Str.is_space c = false.
Proof.
  unfold Str.is_digit, Str.is_space. intros H.
  apply andb_true_iff in H as [H1 H2]. apply N.leb_le in H1, H2.
  rewrite !orb_false_iff, !andb_false_iff, !N.leb_gt, !N.eqb_neq. lia.
Qed.

Lemma lower_digits (s : string) : Str.all Str.is_digit s = true -> Str.lower s = s.
Proof.
  induction s as [|c s IH]; [done |]. simpl. intros H.
  apply andb_true_iff in H as [Hc Hs].
  unfold Str.lower_char. by rewrite (digit_not_upper c Hc), (IH Hs).
Qed.

Lemma eqb_by_class (p : ascii -> bool) (a c : ascii) :
  p a = true -> p c = false -> Ascii.eqb a c = false.
Proof.
  intros Ha Hc. apply Ascii.eqb_neq. intros ->. by rewrite Ha in Hc.
Qed.

Lemma startswith_cons (a b : ascii) (p s : string) :
  Str.startswith (String a p) (String b s) = Ascii.eqb a b && Str.startswith p s.
Proof. reflexivity. Qed.

Lemma startswith_app_both (l x t : string) :
  Str.startswith (l +:+ x) (l +:+ t) = Str.startswith x t.
Proof.
  induction l as [|c l IH]; [done |].
  rewrite !append_cons, startswith_cons. by rewrite Ascii.eqb_refl.
Qed.

Lemma startswith_decompose (l a : string) :
  Str.startswith l a = true -> a = l +:+ Str.drop (String.length l) a.
Proof.
  revert a. induction l as [|c l IH]; intros a H; [done |].
  destruct a as [|d a]; [done |]. rewrite startswith_cons in H.
  apply andb_true_iff in H as [Hc H]. apply Ascii.eqb_eq in Hc as ->.
  rewrite append_cons. simpl. by rewrite <- (IH a H).
Qed.

Lemma startswith_head_class (p : ascii -> bool) (x t : string) :
  head_is p x = true -> head_is p t = false -> Str.startswith x t = false.
Proof.
  destruct x as [|m x]; [done |]. destruct t as [|c t]; [done |].
  simpl head_is. intros Hm Hc. rewrite startswith_cons.
  by rewrite (eqb_by_class p m c Hm Hc).
Qed.

Lemma startswith_incomparable (a l t : string) :
  Str.startswith a l = false -> Str.startswith l a = false ->
  Str.startswith a (l +:+ t) = false.
Proof.
  revert l. induction a as [|x a IH]; intros l Hal Hla; [done |].
  destruct l as [|y l]; [done |].
  rewrite append_cons, startswith_cons. rewrite !startswith_cons in Hal, Hla.
  destruct (Ascii.eqb x y) eqn:Hxy; [| done].
  apply Ascii.eqb_eq in Hxy as ->. rewrite Ascii.eqb_refl in Hla.
  simpl in *. by apply IH.
Qed.

Lemma first_prefix_picks (p : ascii -> bool) (alts : list string) (l t : string) :
  picks p alts l = true -> head_is p t = false ->
  Packaging.first_prefix alts (l +:+ t) = Some (l, t).
Proof.
  intros Hpicks Ht. induction alts as [|a alts IH]; [done |].
  cbn [picks] in Hpicks. cbn [Packaging.first_prefix].
  destruct (String.eqb a l) eqn:Hal.
  - apply String.eqb_eq in Hal as ->. by rewrite strip_prefix_app.
  - simpl in Hpicks. apply andb_true_iff in Hpicks as [Hrel Hrest].
    unfold Str.strip_prefix at 1.
    replace (Str.startswith a (l +:+ t)) with false; [by apply IH |].
    symmetry. apply orb_true_iff in Hrel as [Hinc | Hext].
    + apply andb_true_iff in Hinc as [H1 H2].
      apply negb_true_iff in H1, H2. by apply startswith_incomparable.
    + apply andb_true_iff in Hext as [Hpre Hhead].
      rewrite (startswith_decompose l a Hpre), startswith_app_both.
      by apply (startswith_head_class p).
Qed.

Lemma opt_sep_other (s : string) :
  head_is Packaging.is_sep s = false -> Packaging.opt_sep s = s.
Proof. destruct s as [|c s]; [done |]. simpl. by intros ->. Qed.

Lemma is_sep_not_alnum (c : ascii) :
  Packaging.is_sep c = true -> Str.is_alnum c = false.
Proof.
  unfold Packaging.is_sep. rewrite !orb_true_iff, !Ascii.eqb_eq.
  intros [[-> | ->] | ->]; reflexivity.
Qed.

Lemma digit_not_sep (c : ascii) : Str.is_digit c = true -> Packaging.is_sep c = false.
Proof.
  intros Hd. destruct (Packaging.is_sep c) eqn:Hs; [| done].
  apply is_sep_not_alnum in Hs. unfold Str.is_alnum in Hs.
  apply orb_false_iff in Hs as [_ Hs]. by rewrite Hd in Hs.
Qed.

Lemma alpha_not_sep (c : ascii) : Str.is_alpha c = true -> Packaging.is_sep c = false.
Proof.
  intros Ha. destruct (Packaging.is_sep c) eqn:Hs; [| done].
  apply is_sep_not_alnum in Hs. unfold Str.is_alnum in Hs.
  apply orb_false_iff in Hs as [Hs _]. by rewrite Ha in Hs.
Qed.

Lemma head_is_app (p : ascii -> bool) (s t : string) :
  s <> "" -> head_is p (s +:+ t) = head_is p s.
Proof. by destruct s. Qed.

Lemma head_is_digits (p : ascii -> bool) (ds : string) :
  (forall c, Str.is_digit c = true -> p c = false) ->
  Str.all Str.is_digit ds = true -> head_is p ds = false.
Proof.
  intros Hp. destruct ds as [|c ds]; [done |]. simpl.
  intros H. apply andb_true_iff in H as [Hc _]. by apply Hp.
Qed.

(** ** Versions *)

Lemma release_tail_stop (fuel : nat) (s : string) :
  ends_release s = true -> Packaging.release_tail fuel s = ([], s).
Proof.
  unfold ends_release. intros H. apply andb_true_iff in H as [_ H].
  destruct fuel as [|fuel]; [done |]. destruct s as [|c r]; [done |].
  cbn [Packaging.release_tail]. destruct (Ascii.eqb c "."); [| done].
  simpl in H. apply negb_true_iff in H.
  destruct r as [|d r]; [done |]. simpl in *. by rewrite H.
Qed.

Lemma release_tail_step (fuel : nat) (ds rest : string) :
  Str.all Str.is_digit ds = true -> ds <> "" -> head_is Str.is_digit rest = false ->
  Packaging.release_tail (S fuel) ("." +:+ ds +:+ rest)
  = (ds :: fst (Packaging.release_tail fuel rest),
     snd (Packaging.release_tail fuel rest)).
Proof.
  intros Hds Hne Hrest. rewrite append_cons, append_nil_l.
  cbn [Packaging.release_tail]. rewrite Ascii.eqb_refl.
  rewrite (span_all_app _ ds rest Hds Hrest).
  destruct ds as [|c ds]; [done |].
  by destruct (Packaging.release_tail fuel rest).
Qed.

Lemma length_app_string (a b : string) :
  String.length (a +:+ b) = String.length a + String.length b.
Proof. induction a as [|c a IH]; [done |]. rewrite append_cons. simpl. by rewrite IH. Qed.

(** The release segment of [x.y.z] followed by a text at which it stops. *)
Lemma release_segment_three (dx dy dz rest : string) :
  Str.all Str.is_digit dx = true -> dx <> "" ->
  Str.all Str.is_digit dy = true -> dy <> "" ->
  Str.all Str.is_digit dz = true -> dz <> "" ->
  ends_release rest = true ->
  Packaging.release_segment (dx +:+ "." +:+ dy +:+ "." +:+ dz +:+ rest)
  = Some ([dx; dy; dz], rest).
Proof.
  intros Hx Hxn Hy Hyn Hz Hzn Hrest.
  assert (head_is Str.is_digit rest = false) as Hhead.
  { unfold ends_release in Hrest. apply andb_true_iff in Hrest as [H _].
    by apply negb_true_iff in H. }
  unfold Packaging.release_segment.
  rewrite (span_all_app _ dx _ Hx) by done.
  destruct dx as [|cx dx']; [done |].
  remember (String.length ("." +:+ dy +:+ "." +:+ dz +:+ rest)) as fuel eqn:Hfuel.
  rewrite !length_app_string in Hfuel.
  destruct dy as [|cy dy']; [done |]. simpl in Hfuel.
  destruct fuel as [|[|fuel]]; try lia.
  rewrite (release_tail_step (S fuel) (String cy dy') ("." +:+ dz +:+ rest)) by done.
  rewrite (release_tail_step fuel dz rest) by done.
  by rewrite (release_tail_stop fuel rest Hrest).
Qed.

Lemma lstrip_other (p : ascii -> bool) (s : string) :
  head_is p s = false -> Str.lstrip p s = s.
Proof. destruct s as [|c s]; [done |]. simpl. by intros ->. Qed.

Lemma epoch_segment_none (dx rest : string) :
  Str.all Str.is_digit dx = true ->
  Packaging.epoch_segment (dx +:+ "." +:+ rest) = ("", dx +:+ "." +:+ rest).
Proof.
  intros Hx. unfold Packaging.epoch_segment.
  rewrite (span_all_app _ dx _ Hx) by done. by destruct dx.
Qed.

(** The version pattern on [x.y.z] followed by a lower-case text at which
    the release stops. *)
Lemma search_three (dx dy dz suffix : string) :
  Str.all Str.is_digit dx = true -> dx <> "" ->
  Str.all Str.is_digit dy = true -> dy <> "" ->
  Str.all Str.is_digit dz = true -> dz <> "" ->
  Str.lower suffix = suffix -> ends_release suffix = true ->
  Packaging.search (dx +:+ "." +:+ dy +:+ "." +:+ dz +:+ suffix)
  = Packaging.search_suffix "" [dx; dy; dz] suffix.
Proof.
  intros Hx Hxn Hy Hyn Hz Hzn Hlow Hrest. unfold Packaging.search.
  rewrite lstrip_other.
  2: { destruct dx as [|c dx]; [done |]. simpl in *.
       apply andb_true_iff in Hx as [Hc _]. by apply digit_not_space. }
  rewrite !lower_app, (lower_digits dx Hx), (lower_digits dy Hy), (lower_digits dz Hz), Hlow.
  change (Str.lower ".") with ".".
  replace (Packaging.opt_v (dx +:+ "." +:+ dy +:+ "." +:+ dz +:+ suffix))
    with (dx +:+ "." +:+ dy +:+ "." +:+ dz +:+ suffix).
  2: { destruct dx as [|c dx]; [done |]. simpl in *.
       apply andb_true_iff in Hx as [Hc _].
       by rewrite (eqb_by_class Str.is_digit c "v" Hc eq_refl). }
  rewrite (epoch_segment_none dx _ Hx).
  by rewrite (release_segment_three dx dy dz suffix).
Qed.

(** [Version(text)] when the pattern matches and every number converts. *)
Lemma Version_of_found (text : string) (g : Packaging.Groups) (v : Packaging.Version) :
  Packaging.search text = Some g -> Packaging.of_groups g = Some v ->
  Packaging.Version_of text = mret v.
Proof. intros Hg Hv. unfold Packaging.Version_of. by rewrite Hg, Hv. Qed.

(** The extractor without a package filter, on a tag whose text, less one
    leading [v], is a version. *)
Lemma extract_version_plain (tag : string) (v : Packaging.Version) (w : world) :
  Packaging.Version_of (if Str.startswith "v" tag then Str.drop 1 tag else tag) = mret v ->
  fst (extract_version (VStr tag) None w) = Return (Some v).
Proof.
  intros Hparse. unfold extract_version, try_except. cbn [truthy_str].
  rewrite ret_bind. change (str_method (VStr tag)) with (mret (M := M) tag).
  rewrite ret_bind. cbv zeta. by rewrite Hparse.
Qed.

(** The extractor with a package filter, on a tag that has the prefix. *)
Lemma extract_version_prefixed (package_name rest : string) (v : Packaging.Version)
    (w : world) :
  package_name <> "" ->
  Packaging.Version_of (if Str.startswith "v" rest then Str.drop 1 rest else rest)
  = mret v ->
  fst (extract_version (VStr ((package_name +:+ "==") +:+ rest)) (Some package_name) w)
  = Return (Some v).
Proof.
  intros Hne Hparse. unfold extract_version, try_except.
  destruct package_name as [|c p]; [done |]. cbn [truthy_str String.eqb negb default].
  change (str_method (VStr ?s)) with (mret (M := M) s).
  unfold id. rewrite ret_bind, startswith_app, drop_app, ret_bind.
  change (str_method (VStr rest)) with (mret (M := M) rest).
  rewrite ret_bind. cbv zeta. by rewrite Hparse.
Qed.

(** The extractor with a package filter, on a tag that lacks the prefix. *)
Lemma extract_version_unprefixed (package_name tag : string) (w : world) :
  package_name <> "" ->
  Str.startswith (package_name +:+ "==") tag = false ->
  fst (extract_version (VStr tag) (Some package_name) w) = Return None.
Proof.
  intros Hne Hstart. unfold extract_version, try_except.
  destruct package_name as [|c p]; [done |]. cbn [truthy_str String.eqb negb default].
  change (str_method (VStr ?s)) with (mret (M := M) s).
  unfold id. rewrite ret_bind, Hstart. reflexivity.
Qed.

Lemma of_N_nonempty (n : N) : Str.of_N n <> "".
Proof. pose proof (head_digit_of_N n) as H. by destruct (Str.of_N n). Qed.

(** [int] gives a convertible number back from its decimal text. *)
Lemma int_of_N (n : N) : convertible n = true -> Str.int (Str.of_N n) = Some n.
Proof.
  unfold convertible, Str.int. intros ->.
  assert (String.eqb (Str.of_N n) "" = false) as ->
      by (apply String.eqb_neq, of_N_nonempty).
  by rewrite to_N_of_N.
Qed.

Lemma Version_of_version_text (X Y Z : N) :
  convertible X = true -> convertible Y = true -> convertible Z = true ->
  Packaging.Version_of (version_text X Y Z) = mret (plain_version X Y Z).
Proof.
  intros HX HY HZ.
  apply (Version_of_found _
           {| Packaging.g_epoch := ""; Packaging.g_release := [Str.of_N X; Str.of_N Y; Str.of_N Z];
              Packaging.g_pre_l := ""; Packaging.g_pre_n := "";
              Packaging.g_post_l := ""; Packaging.g_post_n := "";
              Packaging.g_dev_l := ""; Packaging.g_dev_n := "";
              Packaging.g_local := None |}).
  - unfold version_text. rewrite <- (append_empty_r (Str.of_N Z)) at 1.
    by rewrite search_three;
      try first [apply all_digit_of_N | apply of_N_nonempty | reflexivity].
  - unfold Packaging.of_groups. cbn [Packaging.g_epoch Packaging.g_release String.eqb].
    cbn [mapM fmap list_fmap]. rewrite (int_of_N X HX), (int_of_N Y HY), (int_of_N Z HZ).
    reflexivity.
Qed.

Lemma startswith_v_version_text (X Y Z : N) (rest : string) :
  Str.startswith "v" (version_text X Y Z +:+ rest) = false.
Proof.
  apply (startswith_head_class Str.is_alpha); [reflexivity |].
  unfold version_text. rewrite head_is_app by (intros H; by destruct (Str.of_N X)).
  rewrite head_is_app by apply of_N_nonempty.
  apply head_is_digits; [apply digit_not_alpha | apply all_digit_of_N].
Qed.

Ltac elem_cases H :=
  unfold separators, pre_letters in H;
  rewrite ?elem_of_cons, elem_of_nil in H;
  repeat (destruct H as [H | H]); subst; try done.

(** The test [if package_name:] takes the empty name for no name. *)
Lemma extract_version_empty_name (tag_name : value) :
  extract_version tag_name (Some "") = extract_version tag_name None.
Proof. reflexivity. Qed.

(** C3, as amended: with a non-empty package name [pkg], a tag
    [pkg==vX.Y.Z] (or [pkg==X.Y.Z]) whose numbers [int] converts yields the
    version X.Y.Z, and a tag that does not start with [pkg==] yields no
    version and no error; with the empty package name the extractor does,
    on every tag, what it does without a package name. *)
Theorem package_prefix_filter :
  (forall package_name,
     package_name <> "" ->
     (forall X Y Z w,
        convertible X = true -> convertible Y = true -> convertible Z = true ->
        fst (extract_version (VStr (package_name +:+ "==v" +:+ version_text X Y Z))
               (Some package_name) w)
        = Return (Some (plain_version X Y Z)))
     /\ (forall X Y Z w,
           convertible X = true -> convertible Y = true -> convertible Z = true ->
           fst (extract_version (VStr (package_name +:+ "==" +:+ version_text X Y Z))
                  (Some package_name) w)
           = Return (Some (plain_version X Y Z)))
     /\ (forall tag w,
           Str.startswith (package_name +:+ "==") tag = false ->
           fst (extract_version (VStr tag) (Some package_name) w) = Return None))
  /\ (forall tag_name w,
        extract_version tag_name (Some "") w = extract_version tag_name None w).
Proof.
  split; [| intros tag_name w; by rewrite extract_version_empty_name].
  intros package_name Hne. split; [| split].
  - intros X Y Z w HX HY HZ.
    replace (package_name +:+ "==v" +:+ version_text X Y Z)
      with ((package_name +:+ "==") +:+ ("v" +:+ version_text X Y Z))
      by (by rewrite append_assoc).
    apply extract_version_prefixed; [done |]. by apply Version_of_version_text.
  - intros X Y Z w HX HY HZ. rewrite <- append_assoc.
    apply extract_version_prefixed; [done |].
    rewrite <- (append_empty_r (version_text X Y Z)) at 1.
    rewrite startswith_v_version_text. by apply Version_of_version_text.
  - intros tag w Hstart. by apply extract_version_unprefixed.
Qed.

Lemma package_prefix_filter_witness :
  fst (extract_version (VStr ("widget" +:+ "==v" +:+ version_text 1 2 3))
         (Some "widget") idle_world)
  = Return (Some (plain_version 1 2 3))
  /\ fst (extract_version (VStr "other==1.0.0") (Some "widget") idle_world) = Return None.
Proof.
  destruct (proj1 package_prefix_filter "widget") as (Hv & _ & Hother); [discriminate |].
  split; [apply Hv; reflexivity | apply Hother; reflexivity].
Defined.

(** C3 as stated fails for the empty package name, which the extractor
    takes for no filter at all: a tag that does not start with [==] still
    yields a version, and a tag of the form [==vX.Y.Z] yields none.  It
    also fails for a number of more than 4300 digits, which [int] refuses:
    the tag has the form [pkg==vX.Y.Z] and the extractor raises. *)
Lemma package_prefix_filter_fails :
  Str.startswith ("" +:+ "==") "v1.0.0" = false
  /\ fst (extract_version (VStr "v1.0.0") (Some "") idle_world)
     = Return (Some (plain_version 1 0 0))
  /\ fst (extract_version (VStr ("" +:+ "==v" +:+ version_text 1 2 3)) (Some "") idle_world)
     = Return None
  /\ fst (extract_version (VStr ("widget" +:+ "==v" +:+ long_number +:+ ".0.0"))
            (Some "widget") idle_world)
     = Raise ValueError.
Proof. repeat split; vm_compute; reflexivity. Qed.

(** A letter segment in full: separator, letter, separator, number. *)
Lemma letter_segment_match (alts : list string) (sep1 l sep2 dn : string) :
  sep1 ∈ separators -> sep2 ∈ separators ->
  picks Str.is_alpha alts l = true -> head_is Str.is_alpha l = true ->
  Str.all Str.is_digit dn = true ->
  Packaging.letter_segment alts (sep1 +:+ l +:+ sep2 +:+ dn) = ((l, dn), "").
Proof.
  intros Hs1 Hs2 Hpicks Hl Hdn. unfold Packaging.letter_segment.
  assert (l <> "") as Hne by (by destruct l).
  assert (head_is Str.is_alpha (sep2 +:+ dn) = false) as Htail.
  { elem_cases Hs2. rewrite append_nil_l.
    apply head_is_digits; [apply digit_not_alpha | done]. }
  assert (Packaging.opt_sep (sep1 +:+ l +:+ sep2 +:+ dn) = l +:+ sep2 +:+ dn) as ->.
  { elem_cases Hs1. rewrite append_nil_l. apply opt_sep_other.
    rewrite head_is_app by done. destruct l as [|c l]; [done |].
    by apply alpha_not_sep. }
  rewrite (first_prefix_picks Str.is_alpha alts l _ Hpicks Htail).
  assert (Packaging.opt_sep (sep2 +:+ dn) = dn) as ->.
  { elem_cases Hs2. rewrite append_nil_l. apply opt_sep_other.
    apply head_is_digits; [apply digit_not_sep | done]. }
  by rewrite (span_all _ dn Hdn).
Qed.

Lemma lower_separator (sep : string) : sep ∈ separators -> Str.lower sep = sep.
Proof. intros H. by elem_cases H. Qed.

Lemma pre_letter_facts (l : string) :
  l ∈ pre_letters ->
  picks Str.is_alpha pre_letters l = true
  /\ head_is Str.is_alpha l = true /\ Str.lower l = l.
Proof. intros H. by elem_cases H. Qed.

(** C4: the code departs from the rules of semantic versioning, by which
    its docstring says it tells pre-releases apart: [1.0.0-1] carries a
    pre-release identifier by these rules, but is a post-release for the
    code, not classified as a pre-release and therefore kept when
    pre-releases are excluded; [1.0.0-nightly] carries one too and is no
    version at all for the code. *)
Lemma semver_prerelease_not_classified :
  spec_semver_prerelease "1.0.0-1" = true
  /\ (exists v,
        fst (extract_version (VStr "1.0.0-1") None idle_world) = Return (Some v)
        /\ Packaging.post v = Some 1%N
        /\ Packaging.is_prerelease v = false)
  /\ fst (filter_releases [release_record "1.0.0-1" "2024-02-01T00:00:00Z"]
            scenario_start None false idle_world)
     = Return [("1.0.0-1", {| year := 2024; month := 2; day := 1 |})]
  /\ spec_semver_prerelease "1.0.0-nightly" = true
  /\ fst (extract_version (VStr "1.0.0-nightly") None idle_world) = Return None.
Proof.
  split; [reflexivity |]. split; [| repeat split; reflexivity].
  eexists. repeat split; reflexivity.
Qed.

(** ** The URL parser *)

Lemma head_lstrip (p : ascii -> bool) (s : string) : head_is p (Str.lstrip p s) = false.
Proof.
  induction s as [|c s IH]; [done |]. simpl.
  destruct (p c) eqn:Hc; [done |]. simpl. done.
Qed.

Lemma head_rstrip (p : ascii -> bool) (s : string) :
  head_is p s = false -> head_is p (Str.rstrip p s) = false.
Proof.
  destruct s as [|c s]; [done |]. simpl. intros Hc.
  destruct (Str.rstrip p s); simpl; by rewrite ?Hc.
Qed.

Lemma head_strip (p : ascii -> bool) (s : string) : head_is p (Str.strip p s) = false.
Proof. unfold Str.strip. apply head_rstrip, head_lstrip. Qed.

Lemma split_on_first (p : ascii -> bool) (s : string) :
  head_is p s = false ->
  match Str.split_on p s with
  | first :: _ :: _ => first <> ""
  | _ => True
  end.
Proof.
  destruct s as [|c s]; [done |]. simpl. intros ->.
  destruct (Str.split_on p s) as [|f [|g fs]]; done.
Qed.

(** C5, as amended: the parser returns the first two fields of the URL's
    path, stripped of leading and trailing slashes and split at slashes,
    the first of which is never empty; it exits with status 1, after
    logging an error, when there are fewer than two fields or when
    [urlparse] raises.  For every URL it does one or the other. *)
Theorem url_owner_and_repo (repo_url : string) (w : world) :
  match Urllib.urlparse_str repo_url with
  | Some parsed =>
      match Str.split "/" (Str.strip (fun c => Ascii.eqb c "/") (Urllib.path parsed)) with
      | owner :: repo :: _ =>
          parse_github_url repo_url w = (Return (owner, repo), w) /\ owner <> ""
      | _ =>
          parse_github_url repo_url w = (SysExit 1, add_log [(ERROR, MsgInvalidUrl)] w)
      end
  | None =>
      parse_github_url repo_url w
      = (SysExit 1, add_log [(ERROR, MsgErrorParsingUrl ValueError)] w)
  end
  /\ ((exists owner repo,
         fst (parse_github_url repo_url w) = Return (owner, repo) /\ owner <> "")
      \/ fst (parse_github_url repo_url w) = SysExit 1).
Proof.
  assert (forall s, head_is (Ascii.eqb "/") (Str.strip (fun c => Ascii.eqb c "/") s) = false)
    as Hhead.
  { intros s. pose proof (head_strip (fun c => Ascii.eqb c "/") s) as H.
    destruct (Str.strip _ s) as [|c r]; [done |]. cbn [head_is] in *.
    by rewrite Ascii.eqb_sym. }
  unfold parse_github_url, try_except, Urllib.urlparse.
  destruct (Urllib.urlparse_str repo_url) as [parsed |]; [| split; [done | by right]].
  rewrite ret_bind. cbv zeta.
  pose proof (split_on_first _ _ (Hhead (Urllib.path parsed))) as Hfirst.
  unfold Str.split.
  destruct (Str.split_on (Ascii.eqb "/") (Str.strip _ (Urllib.path parsed)))
    as [|owner [|repo rest]]; [split; [done | by right] .. |].
  split; [done |]. left. by exists owner, repo.
Qed.

(** C5 as stated fails: after a doubled slash the second field is empty,
    and the parser returns it. *)
Lemma doubled_slash_gives_empty_name :
  fst (parse_github_url "https://github.com/acme//widget" idle_world)
  = Return ("acme", "")
  /\ ~ (forall repo_url w owner repo,
          fst (parse_github_url repo_url w) = Return (owner, repo) ->
          owner <> "" /\ repo <> "").
Proof.
  split; [reflexivity |]. intros H.
  by destruct (H "https://github.com/acme//widget" idle_world "acme" "" eq_refl).
Qed.

(** * Further properties *)

(** ** The version extractor: outcomes and log *)

Lemma raise_bind {A B} (e : exn) (k : A -> M B) : (raise e ≫= k) = raise e.
Proof. reflexivity. Qed.

(** *** No text handed to [int] is longer than the tag *)

Lemma span_length (p : ascii -> bool) (s a b : string) :
  Str.span p s = (a, b) -> String.length a + String.length b = String.length s.
Proof.
  revert a b. induction s as [|c s IH]; intros a b; simpl; [by intros [= <- <-] |].
  destruct (p c); [| by intros [= <- <-]].
  destruct (Str.span p s) as [a' b']. intros [= <- <-]. simpl.
  by rewrite (IH a' b' eq_refl).
Qed.

Lemma lstrip_length (p : ascii -> bool) (s : string) :
  String.length (Str.lstrip p s) <= String.length s.
Proof. induction s as [|c s IH]; simpl; [done |]. destruct (p c); simpl; lia. Qed.

Lemma lower_length (s : string) : String.length (Str.lower s) = String.length s.
Proof. induction s as [|c s IH]; simpl; [done |]. by rewrite IH. Qed.

Lemma drop_length (n : nat) (s : string) : String.length (Str.drop n s) <= String.length s.
Proof.
  revert s. induction n as [|n IH]; intros [|c s]; simpl; try done.
  specialize (IH s). lia.
Qed.

Lemma opt_v_length (s : string) : String.length (Packaging.opt_v s) <= String.length s.
Proof. destruct s as [|c s]; simpl; [done |]. destruct (Ascii.eqb c "v"); simpl; lia. Qed.

Lemma opt_sep_length (s : string) : String.length (Packaging.opt_sep s) <= String.length s.
Proof. destruct s as [|c s]; simpl; [done |]. destruct (Packaging.is_sep c); simpl; lia. Qed.

Lemma first_prefix_length (alts : list string) (s l r : string) :
  Packaging.first_prefix alts s = Some (l, r) -> String.length r <= String.length s.
Proof.
  induction alts as [|a alts IH]; [done |]. cbn [Packaging.first_prefix].
  unfold Str.strip_prefix. destruct (Str.startswith a s); [| done].
  intros [= <- <-]. apply drop_length.
Qed.

Lemma epoch_segment_length (s ds r : string) :
  Packaging.epoch_segment s = (ds, r) ->
  String.length ds <= String.length s /\ String.length r <= String.length s.
Proof.
  unfold Packaging.epoch_segment.
  destruct (Str.span Str.is_digit s) as [a b] eqn:Hspan.
  apply span_length in Hspan.
  destruct a as [|c a]; [intros [= <- <-]; simpl; lia |].
  destruct b as [|d b]; [intros [= <- <-]; simpl; lia |].
  destruct d as [[] [] [] [] [] [] [] []]; intros [= <- <-]; simpl in *; lia.
Qed.

Lemma release_tail_length (fuel : nat) :
  forall s l r,
    Packaging.release_tail fuel s = (l, r) ->
    Forall (fun ds => ds <> "" /\ String.length ds <= String.length s) l
    /\ String.length r <= String.length s.
Proof.
  induction fuel as [|fuel IH]; intros s l r; cbn [Packaging.release_tail].
  { by intros [= <- <-]. }
  destruct s as [|c s]; [by intros [= <- <-] |].
  destruct (Ascii.eqb c "."); [| by intros [= <- <-]].
  destruct (Str.span Str.is_digit s) as [ds r'] eqn:Hspan.
  apply span_length in Hspan.
  destruct ds as [|d ds]; [by intros [= <- <-] |].
  destruct (Packaging.release_tail fuel r') as [more rest] eqn:Htail.
  apply IH in Htail as [Hmore Hrest]. intros [= <- <-]. split.
  - constructor; [split; [done | simpl in *; lia] |].
    eapply Forall_impl; [exact Hmore |]. intros x [Hne Hx]. split; [done |].
    simpl in *. lia.
  - simpl in *. lia.
Qed.

Lemma release_segment_length (s : string) (l : list string) (r : string) :
  Packaging.release_segment s = Some (l, r) ->
  Forall (fun ds => ds <> "" /\ String.length ds <= String.length s) l
  /\ String.length r <= String.length s.
Proof.
  unfold Packaging.release_segment.
  destruct (Str.span Str.is_digit s) as [ds r'] eqn:Hspan.
  apply span_length in Hspan.
  destruct ds as [|d ds]; [done |].
  destruct (Packaging.release_tail (String.length r') r') as [more rest] eqn:Htail.
  apply release_tail_length in Htail as [Hmore Hrest]. intros [= <- <-]. split.
  - constructor; [split; [done | lia] |].
    eapply Forall_impl; [exact Hmore |]. intros x [Hne Hx]. split; [done |].
    simpl in *. lia.
  - lia.
Qed.

Lemma letter_segment_length (alts : list string) (s l ds r : string) :
  Packaging.letter_segment alts s = ((l, ds), r) ->
  String.length ds <= String.length s /\ String.length r <= String.length s.
Proof.
  unfold Packaging.letter_segment.
  destruct (Packaging.first_prefix alts (Packaging.opt_sep s)) as [[l' r'] |] eqn:Hfirst.
  - apply first_prefix_length in Hfirst.
    destruct (Str.span Str.is_digit (Packaging.opt_sep r')) as [a b] eqn:Hspan.
    apply span_length in Hspan.
    pose proof (opt_sep_length s). pose proof (opt_sep_length r').
    intros [= <- <- <-]. lia.
  - intros [= <- <- <-]. simpl. lia.
Qed.

Lemma post_segment_length (s l ds r : string) :
  Packaging.post_segment s = ((l, ds), r) ->
  String.length ds <= String.length s /\ String.length r <= String.length s.
Proof.
  unfold Packaging.post_segment.
  destruct s as [|c s]; [apply letter_segment_length |].
  destruct (Ascii.eqb c "-") eqn:Hc.
  - apply Ascii.eqb_eq in Hc as ->.
    destruct (Str.span Str.is_digit s) as [a b] eqn:Hspan.
    apply span_length in Hspan.
    destruct a as [|d a]; [apply letter_segment_length |].
    intros [= <- <- <-]. simpl in *. lia.
  - destruct c as [[] [] [] [] [] [] [] []]; try discriminate;
      apply letter_segment_length.
Qed.

Lemma local_segment_length (s : string) (lo : option string) (r : string) :
  Packaging.local_segment s = Some (lo, r) ->
  match lo with
  | Some label => String.length label <= String.length s
  | None => True
  end
  /\ String.length r <= String.length s.
Proof.
  unfold Packaging.local_segment.
  destruct s as [|c s]; [by intros [= <- <-] |].
  destruct (Ascii.eqb c "+") eqn:Hc.
  - apply Ascii.eqb_eq in Hc as ->.
    destruct (Str.span _ s) as [label rest] eqn:Hspan. apply span_length in Hspan.
    destruct (forallb _ _); [| done]. intros [= <- <-]. simpl. lia.
  - destruct c as [[] [] [] [] [] [] [] []]; try discriminate; by intros [= <- <-].
Qed.

Lemma search_suffix_within (bound : nat) (ep : string) (rel : list string) (s : string)
    (g : Packaging.Groups) :
  Packaging.search_suffix ep rel s = Some g ->
  String.length ep <= bound ->
  Forall (fun ds => ds <> "" /\ String.length ds <= bound) rel ->
  String.length s <= bound ->
  groups_within bound g.
Proof.
  unfold Packaging.search_suffix. intros Hg Hep Hrel Hs.
  destruct (Packaging.pre_segment s) as [[pre_l pre_n] s1] eqn:Hpre.
  apply letter_segment_length in Hpre as [Hpre Hs1].
  destruct (Packaging.post_segment s1) as [[post_l post_n] s2] eqn:Hpost.
  apply post_segment_length in Hpost as [Hpost Hs2].
  destruct (Packaging.dev_segment s2) as [[dev_l dev_n] s3] eqn:Hdev.
  apply letter_segment_length in Hdev as [Hdev Hs3].
  destruct (Packaging.local_segment s3) as [[lo s4] |] eqn:Hlocal; [| done].
  apply local_segment_length in Hlocal as [Hlocal Hs4].
  simpl in Hg. destruct (Str.all Str.is_space s4); [| done].
  injection Hg as <-. unfold groups_within. simpl.
  repeat split; try lia; [done |]. destruct lo; [lia | done].
Qed.

Lemma search_within (text : string) (g : Packaging.Groups) :
  Packaging.search text = Some g -> groups_within (String.length text) g.
Proof.
  unfold Packaging.search.
  pose proof (opt_v_length (Str.lower (Str.lstrip Str.is_space text))) as Hv.
  rewrite lower_length in Hv. pose proof (lstrip_length Str.is_space text) as Hstrip.
  destruct (Packaging.epoch_segment _) as [ep s1] eqn:Hepoch.
  apply epoch_segment_length in Hepoch as [Hep Hs1].
  destruct (Packaging.release_segment s1) as [[rel s2] |] eqn:Hrelease; [| done].
  apply release_segment_length in Hrelease as [Hrel Hs2].
  simpl. intros Hg. apply (search_suffix_within _ _ _ _ _ Hg); [lia | | lia].
  eapply Forall_impl; [exact Hrel |]. intros x [Hne Hx]. split; [done |].
  simpl in *. lia.
Qed.

Lemma int_short (s : string) :
  s <> "" -> String.length s <= Str.max_str_digits -> Str.int s = Some (Str.to_N s).
Proof.
  unfold Str.int. intros Hne H. apply String.eqb_neq in Hne. apply Nat.leb_le in H.
  by rewrite Hne, H.
Qed.

Lemma parse_letter_short (letter number : string) :
  String.length number <= Str.max_str_digits ->
  is_Some (Packaging._parse_letter_version letter number).
Proof.
  intros H. unfold Packaging._parse_letter_version.
  destruct (String.eqb number "") eqn:Hnumber.
  - by destruct (String.eqb letter "").
  - apply String.eqb_neq in Hnumber. rewrite (int_short _ Hnumber H).
    by destruct (String.eqb letter "").
Qed.

Lemma split_on_length (p : ascii -> bool) (s : string) :
  Forall (fun part => String.length part <= String.length s) (Str.split_on p s).
Proof.
  induction s as [|c s IH]; simpl; [by repeat constructor |].
  destruct (p c).
  - constructor; [simpl; lia |]. eapply Forall_impl; [exact IH |]. intros x Hx. simpl in *. lia.
  - destruct (Str.split_on p s) as [|f fs].
    { constructor; [simpl; lia | constructor]. }
    apply Forall_cons in IH as [Hf Hfs]. constructor; [simpl; lia |].
    eapply Forall_impl; [exact Hfs |]. intros x Hx. simpl in *. lia.
Qed.

Lemma parse_local_short (local : option string) :
  match local with
  | Some label => String.length label <= Str.max_str_digits
  | None => True
  end ->
  is_Some (Packaging._parse_local_version local).
Proof.
  destruct local as [label |]; [| done]. intros H. unfold Packaging._parse_local_version.
  apply fmap_is_Some, mapM_is_Some, Forall_forall. intros part Hpart.
  pose proof (proj1 (Forall_forall _ _) (split_on_length Packaging.is_sep label) part Hpart).
  unfold compose, Packaging.local_part.
  destruct (String.eqb part "") eqn:Hempty; [done |]. apply String.eqb_neq in Hempty.
  destruct (Str.all Str.is_digit part); [| done]. simpl.
  rewrite (int_short _ Hempty) by (simpl in *; lia). done.
Qed.

(** The conversions succeed when no group is longer than [int] allows. *)
Lemma of_groups_within (bound : nat) (g : Packaging.Groups) :
  groups_within bound g -> bound <= Str.max_str_digits ->
  is_Some (Packaging.of_groups g).
Proof.
  intros (Hep & Hrel & Hpre & Hpost & Hdev & Hloc) Hbound. unfold Packaging.of_groups.
  assert (is_Some (if String.eqb (Packaging.g_epoch g) "" then Some 0%N
                   else Str.int (Packaging.g_epoch g))) as [ep ->].
  { destruct (String.eqb _ _) eqn:Hempty; [done |]. apply String.eqb_neq in Hempty.
    rewrite (int_short _ Hempty) by lia. done. }
  assert (is_Some (mapM Str.int (Packaging.g_release g))) as [rel ->].
  { apply mapM_is_Some. eapply Forall_impl; [exact Hrel |]. intros ds [Hne Hds].
    unfold compose. rewrite (int_short _ Hne) by (simpl in *; lia). done. }
  destruct (parse_letter_short (Packaging.g_pre_l g) (Packaging.g_pre_n g)) as [pr ->];
    [lia |].
  destruct (parse_letter_short (Packaging.g_post_l g) (Packaging.g_post_n g)) as [po ->];
    [lia |].
  destruct (parse_letter_short (Packaging.g_dev_l g) (Packaging.g_dev_n g)) as [de ->];
    [lia |].
  destruct (parse_local_short (Packaging.g_local g)) as [lo ->].
  { destruct (Packaging.g_local g); [lia | done]. }
  done.
Qed.

(** [Version(text)] returns, raises [InvalidVersion], or, on a text of more
    than 4300 characters only, raises [ValueError]. *)
Lemma Version_of_cases (text : string) :
  (exists v, Packaging.Version_of text = mret v)
  \/ Packaging.Version_of text = raise (InvalidVersion text)
  \/ (Packaging.Version_of text = raise ValueError
      /\ Str.max_str_digits < String.length text).
Proof.
  unfold Packaging.Version_of.
  destruct (Packaging.search text) as [g |] eqn:Hg; [| by right; left].
  destruct (Packaging.of_groups g) as [v |] eqn:Hv; [left; by exists v |].
  right. right. split; [done |].
  destruct (Nat.le_gt_cases (String.length text) Str.max_str_digits) as [Hle | Hgt];
    [| done].
  destruct (of_groups_within _ g (search_within _ _ Hg) Hle) as [v Hv'].
  by rewrite Hv' in Hv.
Qed.

(** What the extractor does with the text it hands to [Version]. *)
Lemma extract_version_tail (tag_name : value) (text : string) :
  (exists v,
     forall w,
       try_except
         (s ← str_method (VStr text);
          let s := if Str.startswith "v" s then Str.drop 1 s else s in
          version ← Packaging.Version_of s;
          mret (Some version))
         is_InvalidVersion
         (fun e => logging DEBUG (MsgInvalidVersion tag_name e);; mret None) w
       = (Return (Some v), w))
  \/ (exists invalid,
        forall w,
          try_except
            (s ← str_method (VStr text);
             let s := if Str.startswith "v" s then Str.drop 1 s else s in
             version ← Packaging.Version_of s;
             mret (Some version))
            is_InvalidVersion
            (fun e => logging DEBUG (MsgInvalidVersion tag_name e);; mret None) w
          = (Return None,
             add_log [(DEBUG, MsgInvalidVersion tag_name (InvalidVersion invalid))] w))
  \/ ((forall w,
         try_except
           (s ← str_method (VStr text);
            let s := if Str.startswith "v" s then Str.drop 1 s else s in
            version ← Packaging.Version_of s;
            mret (Some version))
           is_InvalidVersion
           (fun e => logging DEBUG (MsgInvalidVersion tag_name e);; mret None) w
         = (Raise ValueError, w))
      /\ Str.max_str_digits < String.length text).
Proof.
  change (str_method (VStr text)) with (mret (M := M) text). rewrite ret_bind. cbv zeta.
  assert (String.length (if Str.startswith "v" text then Str.drop 1 text else text)
          <= String.length text) as Hlen.
  { destruct (Str.startswith "v" text); [apply drop_length | done]. }
  destruct (Version_of_cases (if Str.startswith "v" text then Str.drop 1 text else text))
    as [[v ->] | [-> | [-> Hlong]]].
  - left. exists v. intros w. reflexivity.
  - right. left. eexists. intros w. reflexivity.
  - right. right. split; [intros w; reflexivity | lia].
Qed.

(** On a [str] tag the extractor returns a version and logs nothing, or
    returns no version and logs one DEBUG record, or, on a tag of more than
    4300 characters only, raises the [ValueError] of [int]. *)
Lemma extract_version_str (tag : string) (package_name : option string) :
  (exists v, forall w, extract_version (VStr tag) package_name w = (Return (Some v), w))
  \/ (exists m,
        (forall w, extract_version (VStr tag) package_name w
                   = (Return None, add_log [(DEBUG, m)] w))
        /\ (m = MsgTagNoMatch (VStr tag) (default "" package_name)
            \/ exists text, m = MsgInvalidVersion (VStr tag) (InvalidVersion text)))
  \/ ((forall w, extract_version (VStr tag) package_name w = (Raise ValueError, w))
      /\ Str.max_str_digits < String.length tag).
Proof.
  unfold extract_version. destruct (truthy_str package_name).
  - change (str_method (VStr tag)) with (mret (M := M) tag). rewrite ret_bind.
    destruct (Str.startswith _ tag).
    + rewrite ret_bind.
      pose proof (drop_length (String.length (default "" package_name +:+ "==")) tag).
      destruct (extract_version_tail (VStr tag)
                  (Str.drop (String.length (default "" package_name +:+ "==")) tag))
        as [[v Hv] | [[text Ht] | [Hraise Hlong]]].
      * left. by exists v.
      * right. left. eexists. split; [exact Ht | right; by exists text].
      * right. right. split; [exact Hraise | lia].
    + right. left. eexists. split; [intros w; reflexivity | by left].
  - rewrite ret_bind.
    destruct (extract_version_tail (VStr tag) tag)
      as [[v Hv] | [[text Ht] | [Hraise Hlong]]].
    + left. by exists v.
    + right. left. eexists. split; [exact Ht | right; by exists text].
    + right. by right.
Qed.

(** On a tag that is not a [str] the extractor raises [AttributeError]. *)
Lemma extract_version_other (tag_name : value) (package_name : option string) (w : world) :
  (forall tag, tag_name <> VStr tag) ->
  extract_version tag_name package_name w = (Raise AttributeError, w).
Proof.
  intros Hne. unfold extract_version.
  destruct tag_name as [| | |tag| |]; try (by destruct (truthy_str package_name)).
  by destruct (Hne tag).
Qed.

(** X1: what the extractor does with a tag.  On a [str] tag it returns a
    version and logs nothing, or returns no version and logs exactly one
    DEBUG record saying why (the package prefix is missing, or the text is
    no version), or it raises the [ValueError] of [int], which it does not
    handle; the last happens to no tag of at most 4300 characters.  On a
    tag that is not a [str] it raises [AttributeError], which it does not
    handle either. *)
Theorem extract_version_outcomes (tag_name : value) (package_name : option string)
    (w : world) :
  match tag_name with
  | VStr tag =>
      (exists v, extract_version tag_name package_name w = (Return (Some v), w))
      \/ (exists m,
            extract_version tag_name package_name w
            = (Return None, add_log [(DEBUG, m)] w)
            /\ (m = MsgTagNoMatch tag_name (default "" package_name)
                \/ exists text, m = MsgInvalidVersion tag_name (InvalidVersion text)))
      \/ (extract_version tag_name package_name w = (Raise ValueError, w)
          /\ Str.max_str_digits < String.length tag)
  | _ => extract_version tag_name package_name w = (Raise AttributeError, w)
  end.
Proof.
  destruct tag_name as [| | |tag| |];
    try (apply extract_version_other; intros tag; discriminate).
  destruct (extract_version_str tag package_name)
    as [[v Hv] | [(m & Hm & Hwhy) | [Hraise Hlong]]].
  - left. exists v. apply Hv.
  - right. left. exists m. split; [apply Hm | done].
  - right. right. split; [apply Hraise | done].
Qed.

(** ** The release filter: which releases, how many log records *)

Lemma bind_run {A B} (m : M A) (k : A -> M B) (w w' : world) (a : A) :
  m w = (Return a, w') -> (m ≫= k) w = k a w'.
Proof. intros H. unfold mbind, M_bind. by rewrite H. Qed.

Lemma bind_run_raise {A B} (m : M A) (k : A -> M B) (w w' : world) (e : exn) :
  m w = (Raise e, w') -> (m ≫= k) w = (Raise e, w').
Proof. intros H. unfold mbind, M_bind. by rewrite H. Qed.

(** A release has at most one entry. *)
Lemma survives_unique start1 pkg1 inc1 start2 pkg2 inc2 release entry1 entry2 :
  survives start1 pkg1 inc1 release entry1 ->
  survives start2 pkg2 inc2 release entry2 ->
  entry1 = entry2.
Proof.
  intros (d1 & t1 & dt1 & v1 & -> & Htag1 & Hpub1 & Hdt1 & Hd1 & _)
         (d2 & t2 & dt2 & v2 & [= <-] & Htag2 & Hpub2 & Hdt2 & Hd2 & _).
  rewrite Hpub1 in Hpub2. injection Hpub2 as <-.
  rewrite Hdt1 in Hdt2. injection Hdt2 as <-.
  rewrite Htag1 in Htag2. injection Htag2 as Htag.
  destruct entry1, entry2. simpl in *. by subst.
Qed.

(** A release that survives is appended, and nothing is logged. *)
Lemma survivor_run start_date package_name include_prereleases release entry acc w :
  survives start_date package_name include_prereleases release entry ->
  filter_release start_date package_name include_prereleases release acc w
  = (Return (acc ++ [entry]), w).
Proof.
  intros (d & text & dt & v & -> & Htag & Hpub & Hdt & Hdate & Hlt & Hv & Hwanted).
  destruct entry as [tag day]. simpl in *. subst day.
  unfold filter_release, filter_release_body.
  rewrite (getitem_found _ _ _ Hpub), ret_bind, (strptime_found _ _ _ Hdt), ret_bind.
  cbv zeta. rewrite Hlt, (getitem_found _ _ _ Htag), ret_bind.
  destruct (extract_version_str tag package_name)
    as [[v' Hv'] | [(m & Hm & _) | [Hraise _]]].
  - unfold result in Hv. rewrite Hv' in Hv. injection Hv as ->.
    unfold try_except. rewrite (bind_run _ _ _ _ _ (Hv' w)).
    replace (negb include_prereleases && Packaging.is_prerelease v) with false
      by (destruct Hwanted as [-> | ->]; [done | by rewrite andb_false_r]).
    reflexivity.
  - unfold result in Hv. by rewrite Hm in Hv.
  - unfold result in Hv. by rewrite Hraise in Hv.
Qed.

(** One turn of the loop either appends the entry of a release that
    survives and logs nothing, or appends nothing and logs one record. *)
Lemma filter_release_cases start_date package_name include_prereleases release :
  (exists entry,
     survives start_date package_name include_prereleases release entry
     /\ forall acc w,
          filter_release start_date package_name include_prereleases release acc w
          = (Return (acc ++ [entry]), w))
  \/ ((forall entry,
         ~ survives start_date package_name include_prereleases release entry)
      /\ exists rec,
           forall acc w,
             filter_release start_date package_name include_prereleases release acc w
             = (Return acc, add_log [rec] w)).
Proof.
  assert ((exists entry,
             survives start_date package_name include_prereleases release entry)
          \/ exists rec,
               forall acc w,
                 filter_release start_date package_name include_prereleases release acc w
                 = (Return acc, add_log [rec] w)) as [[entry He] | [rec Hrec]].
  { unfold filter_release, filter_release_body.
    destruct release as [| | | | |d]; try (right; eexists; intros acc w; reflexivity).
    destruct (dict_get "published_at" d) as [pub|] eqn:Hpub.
    2: { right. eexists. intros acc w. unfold getitem. rewrite Hpub. reflexivity. }
    destruct pub as [| | |text| |];
      try (right; eexists; intros acc w; rewrite (getitem_found _ _ _ Hpub); reflexivity).
    destruct (strptime_str text "%Y-%m-%dT%H:%M:%SZ") as [dt|] eqn:Hdt.
    2: { right. eexists. intros acc w. rewrite (getitem_found _ _ _ Hpub), ret_bind.
         unfold strptime. rewrite Hdt. reflexivity. }
    destruct (date_lt (dt_date dt) start_date) eqn:Hlt.
    { right. destruct (dict_get "tag_name" d) eqn:Htag; eexists; intros acc w;
        rewrite (getitem_found _ _ _ Hpub), ret_bind, (strptime_found _ _ _ Hdt), ret_bind;
        cbv zeta; rewrite Hlt; unfold getitem; rewrite Htag; reflexivity. }
    destruct (dict_get "tag_name" d) as [tagv|] eqn:Htag.
    2: { right. eexists. intros acc w.
         rewrite (getitem_found _ _ _ Hpub), ret_bind, (strptime_found _ _ _ Hdt), ret_bind.
         cbv zeta. rewrite Hlt. unfold getitem. rewrite Htag. reflexivity. }
    destruct tagv as [| | |tag| |];
      try (right; eexists; intros acc w;
           rewrite (getitem_found _ _ _ Hpub), ret_bind, (strptime_found _ _ _ Hdt),
             ret_bind;
           cbv zeta; rewrite Hlt, (getitem_found _ _ _ Htag), ret_bind;
           unfold try_except;
           rewrite (bind_run_raise _ _ w w AttributeError)
             by (apply extract_version_other; intros tag; discriminate);
           reflexivity).
    destruct (extract_version_str tag package_name)
      as [[v Hv] | [(m & Hm & _) | [Hraise _]]].
    2: { right. eexists. intros acc w.
         rewrite (getitem_found _ _ _ Hpub), ret_bind, (strptime_found _ _ _ Hdt), ret_bind.
         cbv zeta. rewrite Hlt, (getitem_found _ _ _ Htag), ret_bind.
         unfold try_except. rewrite (bind_run _ _ _ _ _ (Hm w)). reflexivity. }
    2: { right. eexists. intros acc w.
         rewrite (getitem_found _ _ _ Hpub), ret_bind, (strptime_found _ _ _ Hdt), ret_bind.
         cbv zeta. rewrite Hlt, (getitem_found _ _ _ Htag), ret_bind.
         unfold try_except. rewrite (bind_run_raise _ _ w w ValueError (Hraise w)).
         reflexivity. }
    destruct (negb include_prereleases && Packaging.is_prerelease v) eqn:Hpre.
    { right. eexists. intros acc w.
      rewrite (getitem_found _ _ _ Hpub), ret_bind, (strptime_found _ _ _ Hdt), ret_bind.
      cbv zeta. rewrite Hlt, (getitem_found _ _ _ Htag), ret_bind.
      unfold try_except. rewrite (bind_run _ _ _ _ _ (Hv w)), Hpre. reflexivity. }
    left. exists (tag, dt_date dt), d, text, dt, v. repeat split; try done.
    - unfold result. by rewrite Hv.
    - destruct include_prereleases; [by left | by right]. }
  - left. exists entry. split; [done |]. intros acc w. by apply survivor_run.
  - right. split; [| by exists rec].
    intros entry He. pose proof (survivor_run _ _ _ _ _ [] idle_world He) as Hrun.
    rewrite Hrec in Hrun. discriminate.
Qed.

(** The whole loop: its output is selected from the releases, and it logs
    one record for each release it leaves out. *)
Lemma filter_loop_exact start_date package_name include_prereleases releases :
  exists out recs,
    (forall acc w,
       for_each releases (filter_release start_date package_name include_prereleases) acc w
       = (Return (acc ++ out), add_log recs w))
    /\ selects start_date package_name include_prereleases releases out
    /\ length out + length recs = length releases.
Proof.
  induction releases as [|release rest IH].
  - exists [], []. split; [| split; [constructor | done]].
    intros acc w. simpl. unfold mret, M_ret. by rewrite app_nil_r, add_log_nil.
  - destruct IH as (out & recs & Hrest & Hsel & Hlen).
    destruct (filter_release_cases start_date package_name include_prereleases release)
      as [(entry & He & Hone) | (Hnone & rec & Hone)].
    + exists (entry :: out), recs. split; [| split; [by constructor | simpl; lia]].
      intros acc w. cbn [for_each]. rewrite (bind_run _ _ _ _ _ (Hone acc w)), Hrest.
      by rewrite <- app_assoc.
    + exists out, (rec :: recs). split; [| split; [by constructor | simpl; lia]].
      intros acc w. cbn [for_each]. rewrite (bind_run _ _ _ _ _ (Hone acc w)), Hrest.
      by rewrite add_log_app.
Qed.

Lemma selects_elem start_date package_name include_prereleases releases out :
  selects start_date package_name include_prereleases releases out ->
  forall entry,
    entry ∈ out <->
    exists release,
      release ∈ releases
      /\ survives start_date package_name include_prereleases release entry.
Proof.
  induction 1 as [|release entry' releases out Hs Hsel IH | release releases out Hn Hsel IH];
    intros entry.
  - split; [by intros ?%elem_of_nil | by intros (r & ?%elem_of_nil & _)].
  - rewrite elem_of_cons, IH. split.
    + intros [-> | (r & Hr & Hsr)].
      * exists release. split; [by left | done].
      * exists r. split; [by right | done].
    + intros (r & Hr & Hsr). apply elem_of_cons in Hr as [-> | Hr].
      * left. by eapply survives_unique.
      * right. by exists r.
  - rewrite IH. split.
    + intros (r & Hr & Hsr). exists r. split; [by right | done].
    + intros (r & Hr & Hsr). apply elem_of_cons in Hr as [-> | Hr].
      * by destruct (Hn entry).
      * by exists r.
Qed.

Lemma selects_sublist start1 pkg1 inc1 start2 pkg2 inc2 releases out1 :
  (forall release entry,
     survives start1 pkg1 inc1 release entry -> survives start2 pkg2 inc2 release entry) ->
  selects start1 pkg1 inc1 releases out1 ->
  forall out2, selects start2 pkg2 inc2 releases out2 -> sublist out1 out2.
Proof.
  intros Himp. induction 1 as [|release entry releases out1 Hs Hsel IH
                                |release releases out1 Hn Hsel IH]; intros out2 Hsel2.
  - inversion Hsel2. constructor.
  - inversion Hsel2 as [|? entry2 ? out2' Hs2 Hsel2' | ? ? ? Hn2 Hsel2']; subst.
    + rewrite (survives_unique _ _ _ _ _ _ _ _ _ (Himp _ _ Hs) Hs2).
      apply sublist_skip. by apply IH.
    + by destruct (Hn2 entry (Himp _ _ Hs)).
  - inversion Hsel2 as [|? entry2 ? out2' Hs2 Hsel2' | ? ? ? Hn2 Hsel2']; subst.
    + apply sublist_cons. by apply IH.
    + by apply IH.
Qed.

Lemma filter_releases_selects releases start_date package_name include_prereleases w :
  exists out,
    fst (filter_releases releases start_date package_name include_prereleases w) = Return out
    /\ selects start_date package_name include_prereleases releases out.
Proof.
  destruct (filter_loop_exact start_date package_name include_prereleases releases)
    as (out & recs & Hrun & Hsel & _).
  exists out. unfold filter_releases. by rewrite Hrun.
Qed.

(** X2: the filter returns exactly the entries of the releases that
    survive, in the releases' order: an entry is in the output if and only
    if it is the tag and the date of a release whose date is not before the
    start date and whose tag has a version that is wanted. *)
Theorem filter_selects_survivors (releases : list value) (start_date : date)
    (package_name : option string) (include_prereleases : bool) (w : world) :
  exists out,
    fst (filter_releases releases start_date package_name include_prereleases w) = Return out
    /\ selects start_date package_name include_prereleases releases out
    /\ forall entry,
         entry ∈ out <->
         exists release,
           release ∈ releases
           /\ survives start_date package_name include_prereleases release entry.
Proof.
  destruct (filter_releases_selects releases start_date package_name include_prereleases w)
    as (out & Hrun & Hsel).
  exists out. split; [done |]. split; [done |]. by apply selects_elem.
Qed.

(** X3: nothing is left out silently: the filter changes nothing but the
    log, and it logs exactly one record for every release that is not in
    its output. *)
Theorem filter_logs_every_omission (releases : list value) (start_date : date)
    (package_name : option string) (include_prereleases : bool) (w : world) :
  exists out recs,
    filter_releases releases start_date package_name include_prereleases w
    = (Return out, add_log recs w)
    /\ length out + length recs = length releases.
Proof.
  destruct (filter_loop_exact start_date package_name include_prereleases releases)
    as (out & recs & Hrun & _ & Hlen).
  exists out, recs. unfold filter_releases. by rewrite Hrun.
Qed.

(** X4: filtering is done release by release: the output for two lists one
    after the other is the output for the first followed by the output for
    the second, so it does not matter how the records were split in pages. *)
Theorem filter_releases_app (first second : list value) (start_date : date)
    (package_name : option string) (include_prereleases : bool) (w : world) :
  exists out1 out2,
    fst (filter_releases first start_date package_name include_prereleases w) = Return out1
    /\ fst (filter_releases second start_date package_name include_prereleases w)
       = Return out2
    /\ fst (filter_releases (first ++ second) start_date package_name
              include_prereleases w)
       = Return (out1 ++ out2).
Proof.
  destruct (filter_loop_exact start_date package_name include_prereleases first)
    as (out1 & recs1 & Hrun1 & _).
  destruct (filter_loop_exact start_date package_name include_prereleases second)
    as (out2 & recs2 & Hrun2 & _).
  exists out1, out2. unfold filter_releases.
  rewrite for_each_app, (bind_run _ _ _ _ _ (Hrun1 [] w)), Hrun1, !Hrun2. done.
Qed.

(** X5: excluding pre-releases only removes entries: the output without
    pre-releases is a subsequence of the output with them. *)
Theorem prereleases_only_add (releases : list value) (start_date : date)
    (package_name : option string) (w : world) :
  exists without_pre with_pre,
    fst (filter_releases releases start_date package_name false w) = Return without_pre
    /\ fst (filter_releases releases start_date package_name true w) = Return with_pre
    /\ sublist without_pre with_pre.
Proof.
  destruct (filter_releases_selects releases start_date package_name false w)
    as (out1 & Hrun1 & Hsel1).
  destruct (filter_releases_selects releases start_date package_name true w)
    as (out2 & Hrun2 & Hsel2).
  exists out1, out2. split; [done |]. split; [done |].
  refine (selects_sublist _ _ _ _ _ _ _ _ _ Hsel1 _ Hsel2).
  intros release entry (d & text & dt & v & ? & ? & ? & ? & ? & ? & ? & _).
  exists d, text, dt, v. repeat split; try done. by left.
Qed.

(** X6: a later start date only removes entries: if [later] is not before
    [earlier], the output from [later] on is a subsequence of the output
    from [earlier] on. *)
Theorem later_start_only_removes (releases : list value) (earlier later : date)
    (package_name : option string) (include_prereleases : bool) (w : world) :
  date_lt later earlier = false ->
  exists from_later from_earlier,
    fst (filter_releases releases later package_name include_prereleases w)
    = Return from_later
    /\ fst (filter_releases releases earlier package_name include_prereleases w)
       = Return from_earlier
    /\ sublist from_later from_earlier.
Proof.
  intros Horder.
  destruct (filter_releases_selects releases later package_name include_prereleases w)
    as (out1 & Hrun1 & Hsel1).
  destruct (filter_releases_selects releases earlier package_name include_prereleases w)
    as (out2 & Hrun2 & Hsel2).
  exists out1, out2. split; [done |]. split; [done |].
  refine (selects_sublist _ _ _ _ _ _ _ _ _ Hsel1 _ Hsel2).
  intros release entry (d & text & dt & v & ? & ? & ? & ? & ? & Hlt & ? & ?).
  exists d, text, dt, v. repeat split; try done.
  apply not_true_is_false. intros Hbefore.
  apply not_true_iff_false in Hlt, Horder. rewrite date_lt_spec in *. lia.
Qed.

Lemma later_start_only_removes_witness :
  exists from_later from_earlier,
    fst (filter_releases scenario_releases {| year := 2024; month := 2; day := 15 |}
           None true idle_world) = Return from_later
    /\ fst (filter_releases scenario_releases scenario_start None true idle_world)
       = Return from_earlier
    /\ sublist from_later from_earlier.
Proof.
  apply (later_start_only_removes scenario_releases scenario_start
           {| year := 2024; month := 2; day := 15 |} None true idle_world).
  reflexivity.
Defined.

Lemma wanted_tag_has_prefix (tag p : string) (v : Packaging.Version) :
  p <> "" ->
  result (extract_version (VStr tag) (Some p)) = Return (Some v) ->
  Str.startswith (p +:+ "==") tag = true.
Proof.
  intros Hne Hv. destruct (Str.startswith (p +:+ "==") tag) eqn:Hstart; [done |].
  unfold result in Hv.
  by rewrite (extract_version_unprefixed p tag idle_world Hne Hstart) in Hv.
Qed.

(** X7: what the output never contains: an entry dated before the start
    date, an entry whose tag has no version, a pre-release when they are
    excluded, or, under a non-empty package name, a tag without the
    [name==] prefix. *)
Theorem filter_output_invariants (releases : list value) (start_date : date)
    (package_name : option string) (include_prereleases : bool) (w : world) :
  exists out,
    fst (filter_releases releases start_date package_name include_prereleases w) = Return out
    /\ Forall (fun entry =>
                 date_lt (snd entry) start_date = false
                 /\ (exists v,
                       result (extract_version (VStr (fst entry)) package_name)
                       = Return (Some v)
                       /\ (include_prereleases = false ->
                           Packaging.is_prerelease v = false))
                 /\ (forall p, package_name = Some p -> p <> "" ->
                       Str.startswith (p +:+ "==") (fst entry) = true))
              out.
Proof.
  destruct (filter_releases_selects releases start_date package_name include_prereleases w)
    as (out & Hrun & Hsel).
  exists out. split; [done |]. apply Forall_forall. intros entry Hin.
  apply (selects_elem _ _ _ _ _ Hsel) in Hin
    as (release & _ & d & text & dt & v & _ & _ & _ & _ & _ & Hlt & Hv & Hwanted).
  split; [done |]. split.
  - exists v. split; [done |]. intros ->. by destruct Hwanted.
  - intros p -> Hne. by apply (wanted_tag_has_prefix _ _ v).
Qed.

(** ** The release fetcher: failures, requests, bodies that are no lists *)

(** The loop over pages that have records, up to the page after them. *)
Lemma fetch_loop_prefix (pages : list (list value)) (owner repo : string) (hs : headers)
    (per_page : nat) :
  forall (page fuel : nat) (acc : list value) (w : world),
    Forall (fun records => records <> []) pages ->
    (forall i records, pages !! i = Some records ->
       w_server w (releases_url owner repo (page + i) per_page) hs
       = HttpJson (VList records)) ->
    exists w1,
      fetch_loop (length pages + fuel) owner repo hs per_page page acc w
      = fetch_loop fuel owner repo hs per_page (page + length pages) (acc ++ concat pages) w1
      /\ w_requests w1
         = w_requests w
           ++ map (fun p => (releases_url owner repo p per_page, hs))
                  (seq page (length pages))
      /\ w_server w1 = w_server w /\ w_files w1 = w_files w
      /\ w_stdout w1 = w_stdout w /\ w_writable w1 = w_writable w.
Proof.
  induction pages as [|records pages IH]; intros page fuel acc w Hne Hpages.
  - exists w. simpl. by rewrite Nat.add_0_r, !app_nil_r.
  - apply Forall_cons in Hne as [Hrec Hne].
    pose proof (Hpages 0 records eq_refl) as Hfirst. rewrite Nat.add_0_r in Hfirst.
    assert (exists w1,
              fetch_loop (S (length pages + fuel)) owner repo hs per_page page acc w
              = fetch_loop (length pages + fuel) owner repo hs per_page (S page)
                  (acc ++ records) w1
              /\ w_requests w1 = w_requests w ++ [(releases_url owner repo page per_page, hs)]
              /\ w_server w1 = w_server w /\ w_files w1 = w_files w
              /\ w_stdout w1 = w_stdout w /\ w_writable w1 = w_writable w)
      as (w1 & Hrun & Hreq & Hsrv & Hf & Hs & Hw).
    { eexists. split.
      - cbn [fetch_loop]. unfold mbind at 1, M_bind at 1.
        unfold try_except, mbind, M_bind, logging, requests_get. simpl.
        rewrite Hfirst. destruct records as [|r rs]; [done |]. simpl. reflexivity.
      - done. }
    destruct (IH (S page) fuel (acc ++ records) w1 Hne)
      as (w2 & Hrun2 & Hreq2 & Hsrv2 & Hf2 & Hs2 & Hw2).
    { intros i recs Hi. rewrite Hsrv.
      replace (S page + i) with (page + S i) by lia. by apply Hpages. }
    exists w2. cbn [length]. change (S (length pages) + fuel) with (S (length pages + fuel)).
    rewrite Hrun, Hrun2, Hreq2, Hreq, Hsrv2, Hsrv, Hf2, Hf, Hs2, Hs, Hw2, Hw.
    replace (page + S (length pages)) with (S page + length pages) by lia.
    repeat split. 
    + simpl. by rewrite app_assoc.
    + simpl. by rewrite <- app_assoc.
Qed.

(** The turn of the loop on a request that fails. *)
Lemma fetch_loop_failure (fuel : nat) (owner repo : string) (hs : headers)
    (per_page page : nat) (acc : list value) (w : world) :
  w_server w (releases_url owner repo page per_page) hs = HttpFailure ->
  exists w1,
    fetch_loop (S fuel) owner repo hs per_page page acc w = (SysExit 1, w1)
    /\ w_requests w1 = w_requests w ++ [(releases_url owner repo page per_page, hs)]
    /\ w_log w1
       = w_log w ++ [(INFO, MsgFetching (releases_url owner repo page per_page));
                     (ERROR, MsgErrorFetching RequestException)]
    /\ w_files w1 = w_files w /\ w_stdout w1 = w_stdout w.
Proof.
  intros Hserver. eexists. split.
  - cbn [fetch_loop]. unfold mbind at 1, M_bind at 1.
    unfold try_except, mbind, M_bind, logging, requests_get. simpl.
    rewrite Hserver. simpl. reflexivity.
  - simpl. by rewrite <- app_assoc.
Qed.

(** X8: a request that fails ends the run: after any number of pages with
    records, a failing request makes the fetcher log the error and exit
    with status 1; the records fetched so far are not returned, and no
    further request is sent. *)
Theorem fetch_failure_exits (owner repo : string) (token : option string)
    (pages : list (list value)) (fuel : nat) (w : world) :
  Forall (fun records => records <> []) pages ->
  (forall i records, pages !! i = Some records ->
     w_server w (releases_url owner repo (1 + i) 100) (request_headers token)
     = HttpJson (VList records)) ->
  w_server w (releases_url owner repo (1 + length pages) 100) (request_headers token)
  = HttpFailure ->
  length pages < fuel ->
  fst (fetch_releases fuel owner repo token w) = SysExit 1
  /\ w_requests (snd (fetch_releases fuel owner repo token w))
     = w_requests w
       ++ map (fun p => (releases_url owner repo p 100, request_headers token))
              (seq 1 (S (length pages)))
  /\ last (w_log (snd (fetch_releases fuel owner repo token w)))
     = Some (ERROR, MsgErrorFetching RequestException)
  /\ w_files (snd (fetch_releases fuel owner repo token w)) = w_files w.
Proof.
  intros Hne Hpages Hfail Hfuel. unfold fetch_releases.
  replace fuel with (length pages + S (fuel - length pages - 1)) by lia.
  destruct (fetch_loop_prefix pages owner repo (request_headers token) 100 1
              (S (fuel - length pages - 1)) [] w Hne Hpages)
    as (w1 & Hrun & Hreq & Hsrv & Hf & _).
  rewrite <- Hsrv in Hfail.
  destruct (fetch_loop_failure (fuel - length pages - 1) owner repo (request_headers token)
              100 (1 + length pages) ([] ++ concat pages) w1 Hfail)
    as (w2 & Hrun2 & Hreq2 & Hlog2 & Hf2 & _).
  rewrite Hrun, Hrun2. simpl fst. simpl snd. rewrite Hreq2, Hreq, Hlog2, Hf2, Hf.
  repeat split.
  - rewrite <- app_assoc. f_equal. by rewrite seq_S, map_app.
  - match goal with
    | |- last (?l ++ [?a; ?b]) = _ => change (l ++ [a; b]) with (l ++ [a] ++ [b])
    end.
    rewrite app_assoc. apply last_snoc.
Qed.

Lemma fetch_failure_exits_witness :
  fst (fetch_releases 1 "acme" "widget" None idle_world) = SysExit 1.
Proof.
  refine (proj1 (fetch_failure_exits "acme" "widget" None [] 1 idle_world _ _ _ _)).
  - constructor.
  - intros i records Hi. discriminate.
  - reflexivity.
  - simpl. lia.
Defined.

(** The requests of the loop are those for consecutive pages, whatever the
    server answers. *)
Lemma fetch_loop_requests (owner repo : string) (hs : headers) (per_page : nat) :
  forall (fuel page : nat) (acc : list value) (w : world),
    exists count,
      Nat.min 1 fuel <= count <= fuel
      /\ w_requests (snd (fetch_loop fuel owner repo hs per_page page acc w))
         = w_requests w
           ++ map (fun p => (releases_url owner repo p per_page, hs)) (seq page count).
Proof.
  induction fuel as [|fuel IH]; intros page acc w.
  - exists 0. simpl. by rewrite app_nil_r.
  - assert (forall acc' w1,
              w_requests w1 = w_requests w ++ [(releases_url owner repo page per_page, hs)] ->
              exists count,
                Nat.min 1 (S fuel) <= count <= S fuel
                /\ w_requests (snd (fetch_loop fuel owner repo hs per_page (S page) acc' w1))
                   = w_requests w
                     ++ map (fun p => (releases_url owner repo p per_page, hs))
                            (seq page count)) as Hnext.
    { intros acc' w1 Hreq. destruct (IH (S page) acc' w1) as (count & Hcount & Hrun).
      exists (S count). split; [simpl; lia |].
      rewrite Hrun, Hreq. simpl. by rewrite <- app_assoc. }
    cbn [fetch_loop]. unfold mbind at 1, M_bind at 1.
    unfold try_except, mbind, M_bind, logging, requests_get. simpl.
    destruct (w_server w (releases_url owner repo page per_page) hs) as [body |];
      [| exists 1; split; [simpl; lia | done]].
    destruct body as [| [|] | n | text | l | d]; simpl;
      try (exists 1; split; [simpl; lia | done]).
    + destruct (negb (n =? 0)%Z); simpl; exists 1; (split; [simpl; lia | done]).
    + destruct (negb (String.eqb text "")); simpl;
        [by apply Hnext | exists 1; split; [simpl; lia | done]].
    + destruct l; simpl; [exists 1; split; [simpl; lia | done] | by apply Hnext].
    + destruct d; simpl; [exists 1; split; [simpl; lia | done] | by apply Hnext].
Qed.

(** X9: whatever the server answers, the fetcher asks for pages 1, 2, 3,
    ... in this order, 100 records a page, with the same headers each
    time; it sends at least one request, and the headers carry an
    [Authorization] entry exactly when a non-empty token is given. *)
Theorem fetch_requests_consecutive (fuel : nat) (owner repo : string)
    (token : option string) (w : world) :
  exists count,
    Nat.min 1 fuel <= count <= fuel
    /\ w_requests (snd (fetch_releases fuel owner repo token w))
       = w_requests w
         ++ map (fun p => (releases_url owner repo p 100, request_headers token))
                (seq 1 count)
    /\ request_headers token
       = ("Accept", "application/vnd.github.v3+json")
         :: match token with
            | Some (String c t) => [("Authorization", "token " +:+ String c t)]
            | _ => []
            end.
Proof.
  destruct (fetch_loop_requests owner repo (request_headers token) 100 fuel 1 [] w)
    as (count & Hcount & Hrun).
  exists count. repeat split; try done; try lia.
  by destruct token as [[|c t] |].
Qed.

(** The turn of the loop on a body that counts as false. *)
Lemma fetch_loop_falsy (fuel : nat) (owner repo : string) (hs : headers)
    (per_page page : nat) (acc : list value) (body : value) (w : world) :
  w_server w (releases_url owner repo page per_page) hs = HttpJson body ->
  truthy body = false ->
  fst (fetch_loop (S fuel) owner repo hs per_page page acc w) = Return acc.
Proof.
  intros Hserver Hfalse. cbn [fetch_loop]. unfold mbind at 1, M_bind at 1.
  unfold try_except, mbind, M_bind, logging, requests_get. simpl.
  by rewrite Hserver, Hfalse.
Qed.

(** The turn of the loop on a body that counts as true and cannot be
    iterated. *)
Lemma fetch_loop_scalar (fuel : nat) (owner repo : string) (hs : headers)
    (per_page page : nat) (acc : list value) (body : value) (w : world) :
  w_server w (releases_url owner repo page per_page) hs = HttpJson body ->
  truthy body = true -> iterable body = false ->
  exists w1,
    fetch_loop (S fuel) owner repo hs per_page page acc w = (Raise TypeError, w1)
    /\ w_log w1 = w_log w ++ [(INFO, MsgFetching (releases_url owner repo page per_page))].
Proof.
  intros Hserver Htrue Hiter. eexists. split.
  - cbn [fetch_loop]. unfold mbind at 1, M_bind at 1.
    unfold try_except, mbind, M_bind, logging, requests_get. simpl.
    rewrite Hserver, Htrue. destruct body; try discriminate; simpl; reflexivity.
  - done.
Qed.

(** X10: the loop ends on any body that counts as false, not only on the
    empty list: after pages with records, a page whose body is [null],
    [false], [0], the empty string or the empty object makes the fetcher
    return the records of the pages before it. *)
Theorem fetch_ends_on_falsy_body (owner repo : string) (token : option string)
    (pages : list (list value)) (body : value) (fuel : nat) (w : world) :
  Forall (fun records => records <> []) pages ->
  (forall i records, pages !! i = Some records ->
     w_server w (releases_url owner repo (1 + i) 100) (request_headers token)
     = HttpJson (VList records)) ->
  w_server w (releases_url owner repo (1 + length pages) 100) (request_headers token)
  = HttpJson body ->
  truthy body = false ->
  length pages < fuel ->
  fst (fetch_releases fuel owner repo token w) = Return (concat pages).
Proof.
  intros Hne Hpages Hlast Hfalse Hfuel. unfold fetch_releases.
  replace fuel with (length pages + S (fuel - length pages - 1)) by lia.
  destruct (fetch_loop_prefix pages owner repo (request_headers token) 100 1
              (S (fuel - length pages - 1)) [] w Hne Hpages)
    as (w1 & Hrun & _ & Hsrv & _).
  rewrite <- Hsrv in Hlast. rewrite Hrun.
  apply (fetch_loop_falsy _ _ _ _ _ _ _ body); done.
Qed.

Lemma fetch_ends_on_falsy_body_witness :
  fst (fetch_releases 2 "acme" "widget" None
         {| w_log := []; w_stdout := []; w_files := ∅; w_requests := [];
            w_server := fun url _ =>
              if String.eqb url
                   "https://api.github.com/repos/acme/widget/releases?page=1&per_page=100"
              then HttpJson (VList [VNone]) else HttpJson VNone;
            w_writable := fun _ => true |})
  = Return [VNone].
Proof.
  refine (fetch_ends_on_falsy_body "acme" "widget" None [[VNone]] VNone 2 _ _ _ _ _ _).
  - repeat constructor. done.
  - intros [|i] records Hi; [| destruct i; discriminate].
    injection Hi as <-. reflexivity.
  - reflexivity.
  - reflexivity.
  - simpl. lia.
Defined.

(** X11: a body that counts as true and is no list, object or string (a
    number other than 0, or [true]) is not handled by the fetcher: the
    [TypeError] of [releases.extend] leaves it, nothing is logged for it
    there, and the records fetched so far are lost. *)
Theorem fetch_raises_on_scalar_body (owner repo : string) (token : option string)
    (pages : list (list value)) (body : value) (fuel : nat) (w : world) :
  Forall (fun records => records <> []) pages ->
  (forall i records, pages !! i = Some records ->
     w_server w (releases_url owner repo (1 + i) 100) (request_headers token)
     = HttpJson (VList records)) ->
  w_server w (releases_url owner repo (1 + length pages) 100) (request_headers token)
  = HttpJson body ->
  truthy body = true -> iterable body = false ->
  length pages < fuel ->
  fst (fetch_releases fuel owner repo token w) = Raise TypeError
  /\ last (w_log (snd (fetch_releases fuel owner repo token w)))
     = Some (INFO, MsgFetching (releases_url owner repo (1 + length pages) 100)).
Proof.
  intros Hne Hpages Hlast Htrue Hiter Hfuel. unfold fetch_releases.
  replace fuel with (length pages + S (fuel - length pages - 1)) by lia.
  destruct (fetch_loop_prefix pages owner repo (request_headers token) 100 1
              (S (fuel - length pages - 1)) [] w Hne Hpages)
    as (w1 & Hrun & _ & Hsrv & _).
  rewrite <- Hsrv in Hlast. rewrite Hrun.
  destruct (fetch_loop_scalar (fuel - length pages - 1) owner repo (request_headers token)
              100 (1 + length pages) ([] ++ concat pages) body w1 Hlast Htrue Hiter)
    as (w2 & Hrun2 & Hlog).
  rewrite Hrun2. simpl fst. simpl snd. rewrite Hlog. split; [done |]. apply last_snoc.
Qed.

Lemma fetch_raises_on_scalar_body_witness :
  fst (fetch_releases 1 "acme" "widget" None
         {| w_log := []; w_stdout := []; w_files := ∅; w_requests := [];
            w_server := fun _ _ => HttpJson (VInt 404);
            w_writable := fun _ => true |})
  = Raise TypeError.
Proof.
  refine (proj1 (fetch_raises_on_scalar_body "acme" "widget" None [] (VInt 404) 1 _
                   _ _ _ _ _ _)).
  - constructor.
  - intros i records Hi. discriminate.
  - reflexivity.
  - reflexivity.
  - reflexivity.
  - simpl. lia.
Defined.

(** ** Dates: printing and parsing *)

Lemma num_field_padded (width : nat) (lo_len : nat) (lo hi n : N) (rest : string) :
  padded_ok width n = true ->
  (lo_len <= width)%nat -> (lo <= n <= hi)%N ->
  head_is Str.is_digit rest = false ->
  num_field lo_len width lo hi (Str.zfill width (Str.of_N n) +:+ rest) = Some (n, rest).
Proof.
  unfold padded_ok. intros Hpad Hlen Hn Hrest.
  apply andb_true_iff in Hpad as [Hpad Hnum]. apply andb_true_iff in Hpad as [Hwidth Hall].
  apply Nat.eqb_eq in Hwidth. apply N.eqb_eq in Hnum.
  unfold num_field. rewrite (span_all_app _ _ _ Hall Hrest), Hwidth, Hnum.
  assert ((lo_len <=? width)%nat = true) as -> by by apply Nat.leb_le.
  rewrite Nat.leb_refl.
  assert ((lo <=? n)%N = true) as -> by (apply N.leb_le; lia).
  assert ((n <=? hi)%N = true) as -> by (apply N.leb_le; lia).
  done.
Qed.

Lemma padded_head (width : nat) (n : N) :
  padded_ok (S width) n = true ->
  exists c r, Str.zfill (S width) (Str.of_N n) = String c r /\ Str.is_digit c = true.
Proof.
  unfold padded_ok. intros Hpad.
  apply andb_true_iff in Hpad as [Hpad _]. apply andb_true_iff in Hpad as [Hwidth Hall].
  destruct (Str.zfill (S width) (Str.of_N n)) as [|c r]; [done |].
  exists c, r. split; [done |]. simpl in Hall. by apply andb_true_iff in Hall as [? _].
Qed.

(** X13: the text the script prints for a date is a start date its own
    command line accepts, and it denotes the same date: for every date of
    the calendar, parsing [str(d)] under [%Y-%m-%d] gives [d] at
    midnight. *)
Theorem date_text_round_trip (d : date) :
  valid (midnight d) = true ->
  strptime_str (date_str d) "%Y-%m-%d" = Some (midnight d).
Proof.
  intros Hvalid. pose proof Hvalid as Hv. unfold valid, midnight in Hv. simpl in Hv.
  repeat (apply andb_true_iff in Hv as [Hv ?]).
  repeat match goal with H : (_ <=? _)%N = true |- _ => apply N.leb_le in H end.
  assert (day d <= 31)%N as Hday.
  { assert (days_in_month (year d) (month d) <= 31)%N; [| lia].
    unfold days_in_month. repeat case_match; lia. }
  destruct d as [y m dd]. simpl in *.
  unfold strptime_str, date_str. simpl year. simpl month. simpl day.
  change (parse_format "%Y-%m-%d") with (Some [DirY; Lit "-"; Dirm; Lit "-"; Dird]).
  simpl mbind. cbn [option_bind]. cbn [match_items].
  rewrite (num_field_padded 4 4 0 9999 y); [| by apply padded_year; lia | lia | lia | done].
  simpl mbind. cbn [option_bind]. rewrite append_cons, append_nil_l.
  change (lit_matches "-" "-") with true. cbn iota. cbn [match_items].
  rewrite append_nil_l.
  rewrite (num_field_padded 2 1 1 12 m); [| by apply padded_two; lia | lia | lia | done].
  simpl mbind. cbn [option_bind].
  change (lit_matches "-" "-") with true. cbn iota.
  destruct (padded_head 1 dd) as (c & r & Htext & Hc); [by apply padded_two; lia |].
  assert (day_field (Str.zfill 2 (Str.of_N dd))
          = num_field 1 2 1 31 (Str.zfill 2 (Str.of_N dd))) as ->.
  { rewrite Htext. unfold day_field. destruct c as [[] [] [] [] [] [] [] []]; done. }
  rewrite <- (append_empty_r (Str.zfill 2 (Str.of_N dd))).
  rewrite (num_field_padded 2 1 1 31 dd); [| by apply padded_two; lia | lia | lia | done].
  simpl. fold (midnight {| year := y; month := m; day := dd |}).
  by rewrite Hvalid.
Qed.

Lemma date_text_round_trip_witness :
  strptime_str (date_str {| year := 2024; month := 2; day := 29 |}) "%Y-%m-%d"
  = Some (midnight {| year := 2024; month := 2; day := 29 |}).
Proof. apply date_text_round_trip. reflexivity. Defined.

(** ** The orchestrator: how it ends, and what it does before it fails *)

Lemma loud_ret {A} (a : A) : loud (mret a).
Proof. intros w c. discriminate. Qed.

Lemma loud_raise {A} (e : exn) : loud (@raise A e).
Proof. intros w c. discriminate. Qed.

Lemma loud_out_of_fuel {A} : loud (@out_of_fuel A).
Proof. intros w c. discriminate. Qed.

Lemma loud_logging (lv : level) (msg : message) : loud (logging lv msg).
Proof. intros w c. discriminate. Qed.

Lemma loud_print (line : string) : loud (print line).
Proof. intros w c. discriminate. Qed.

Lemma loud_write (path text : string) : loud (write path text).
Proof. intros w c. discriminate. Qed.

Lemma loud_open_w (path : string) : loud (open_w path).
Proof. intros w c. unfold open_w. by destruct (_ || _). Qed.

Lemma loud_requests_get (url : string) (hs : headers) : loud (requests_get url hs).
Proof. intros w c. unfold requests_get. by destruct (w_server w url hs). Qed.

Lemma loud_iterate (obj : value) : loud (iterate obj).
Proof. intros w c. by destruct obj. Qed.

Lemma loud_urlparse (url : string) : loud (Urllib.urlparse url).
Proof. intros w c. unfold Urllib.urlparse. by destruct (Urllib.urlparse_str url). Qed.

Lemma loud_strptime (obj : value) (fmt : string) : loud (strptime obj fmt).
Proof.
  intros w c. unfold strptime. destruct obj; try done. by destruct (strptime_str _ _).
Qed.

(** The script's way to give up: [logging.error(...)], then [sys.exit(1)]. *)
Lemma loud_fail {A} (msg : message) : loud (logging ERROR msg ≫= fun _ => @sys_exit A 1).
Proof.
  intros w c [= <-]. split; [done |]. exists msg. simpl. apply last_snoc.
Qed.

Lemma loud_bind {A B} (m : M A) (k : A -> M B) :
  loud m -> (forall a, loud (k a)) -> loud (m ≫= k).
Proof.
  intros Hm Hk w c. specialize (Hm w). unfold mbind, M_bind.
  destruct (m w) as [[a | e | c' |] w1]; try done.
  - apply Hk.
  - simpl. intros [= <-]. by apply Hm.
Qed.

Lemma loud_try {A} (m : M A) (catches : exn -> bool) (handler : exn -> M A) :
  loud m -> (forall e, loud (handler e)) -> loud (try_except m catches handler).
Proof.
  intros Hm Hh w c. specialize (Hm w). unfold try_except.
  destruct (m w) as [[a | e | c' |] w1]; try done.
  - destruct (catches e); [apply Hh | done].
  - apply Hm.
Qed.

Lemma loud_for_each {A S} (l : list A) (body : A -> S -> M S) :
  (forall x acc, loud (body x acc)) -> forall acc, loud (for_each l body acc).
Proof.
  intros Hbody. induction l as [|x l IH]; intros acc; cbn [for_each].
  - apply loud_ret.
  - apply loud_bind; [apply Hbody | apply IH].
Qed.

Create HintDb loud.
#[export] Hint Resolve loud_ret loud_raise loud_out_of_fuel loud_logging loud_print
  loud_write loud_open_w loud_requests_get loud_iterate loud_urlparse loud_strptime
  loud_fail : loud.

Ltac loud_step :=
  first
    [ solve [auto with loud]
    | apply loud_fail
    | apply loud_for_each
    | apply loud_bind
    | apply loud_try
    | match goal with
      | |- forall _, _ => intro
      | |- loud (match ?x with _ => _ end) => destruct x
      | |- loud (let _ := _ in _) => cbv zeta
      end ].

Ltac loud_tac := repeat loud_step.

Lemma loud_parse_github_url (repo_url : string) : loud (parse_github_url repo_url).
Proof. unfold parse_github_url. loud_tac. Qed.

Lemma loud_fetch_loop (fuel : nat) (owner repo : string) (hs : headers) (per_page : nat) :
  forall page acc, loud (fetch_loop fuel owner repo hs per_page page acc).
Proof.
  induction fuel as [|fuel IH]; intros page acc; cbn [fetch_loop]; [apply loud_out_of_fuel |].
  apply loud_bind; [loud_tac |].
  intros [[releases' page'] |]; [apply IH | apply loud_ret].
Qed.

Lemma loud_filter_releases releases start_date package_name include_prereleases :
  loud (filter_releases releases start_date package_name include_prereleases).
Proof.
  intros w c. unfold filter_releases.
  destruct (filter_loop_run start_date package_name include_prereleases releases)
    as (out & recs & Hrun & _).
  by rewrite Hrun.
Qed.

Lemma loud_save_to_file (entries : list (string * date)) (path : string) :
  loud (save_to_file entries path).
Proof. unfold save_to_file. loud_tac. Qed.

Lemma loud_main (fuel : nat) (args : arguments) : loud (main fuel args).
Proof.
  unfold main, fetch_releases.
  apply loud_try; [| intros e; apply loud_fail].
  cbv zeta. apply loud_bind; [apply loud_strptime |]. intros dt.
  apply loud_bind; [apply loud_parse_github_url |]. intros [owner repo].
  apply loud_bind; [apply loud_fetch_loop |]. intros releases.
  apply loud_bind; [apply loud_filter_releases |]. intros entries.
  apply loud_bind; [apply loud_for_each; intros; apply loud_print |]. intros [].
  apply loud_bind; [loud_tac |]. intros output_file.
  apply loud_save_to_file.
Qed.

(** A writer that returns has logged that it saved the file. *)
Lemma save_to_file_returns_log (entries : list (string * date)) (path : string)
    (w w' : world) :
  save_to_file entries path w = (Return tt, w') ->
  last (w_log w') = Some (INFO, MsgSaved path).
Proof.
  intros Hrun. destruct (String.eqb path "" || negb (w_writable w path)) eqn:Hbad.
  - exfalso. revert Hrun. unfold save_to_file, try_except, mbind, M_bind, open_w.
    by rewrite Hbad.
  - apply orb_false_iff in Hbad as [Hne Hw].
    apply String.eqb_neq in Hne. apply negb_false_iff in Hw.
    rewrite (save_to_file_writes entries path w Hne Hw) in Hrun.
    injection Hrun as <-. simpl. apply last_snoc.
Qed.

(** With the command line parsed, the rest of the [try] block lets no
    exception out: it returns, and then its last log record says which file
    it saved; or it exits, and then the status is 1 and its last log record
    is an error; or its fetch loop has not come to an end. *)
Lemma main_after_parsing (fuel : nat) (args : arguments) (w : world) :
  match fst (main fuel args w) with
  | Return _ => exists file, last (w_log (snd (main fuel args w))) = Some (INFO, MsgSaved file)
  | Raise _ => False
  | SysExit c =>
      c = 1%Z /\ exists msg, last (w_log (snd (main fuel args w))) = Some (ERROR, msg)
  | OutOfFuel => True
  end.
Proof.
  destruct (main fuel args w) as [[[] | e | c |] w'] eqn:Hrun; simpl.
  - unfold main, try_except in Hrun.
    match type of Hrun with
    | (match ?body with _ => _ end) = _ =>
        destruct body as [[[] | e | c |] w1] eqn:Hbody; try discriminate
    end.
    injection Hrun as ->.
    apply bind_returns in Hbody as (dt & w1 & _ & Hbody).
    apply bind_returns in Hbody as ([owner repo] & w2 & _ & Hbody).
    apply bind_returns in Hbody as (releases & w3 & _ & Hbody).
    apply bind_returns in Hbody as (entries & w4 & _ & Hbody).
    apply bind_returns in Hbody as ([] & w5 & _ & Hbody).
    apply bind_returns in Hbody as (output_file & w6 & _ & Hsave).
    exists output_file. by apply (save_to_file_returns_log entries output_file w6).
  - unfold main, try_except in Hrun.
    match type of Hrun with
    | (match ?body with _ => _ end) = _ =>
        destruct body as [[[] | e' | c |] w1]; discriminate
    end.
  - pose proof (loud_main fuel args w c) as Hloud. rewrite Hrun in Hloud. by apply Hloud.
  - exact I.
Qed.

(** With the arguments parsed, the whole of [main()] is the rest of its
    [try] block. *)
Lemma run_main_parsed (args : arguments) (fuel : nat) :
  run_main (Parsed args) fuel = main fuel args.
Proof. reflexivity. Qed.

(** X14: [main()] never lets an exception out.  It returns, and then its
    last log record says which file it saved; or it exits with status 1,
    and then its last log record is an error; or the exit is the one of
    [argparse], with status 2 on a usage error and nothing else done, or
    with status 0 after the help text and nothing logged; or its fetch loop
    has not come to an end. *)
Theorem main_ends_saved_or_with_error (cl : command_line) (fuel : nat) (w : world) :
  match fst (run_main cl fuel w) with
  | Return _ =>
      exists file, last (w_log (snd (run_main cl fuel w))) = Some (INFO, MsgSaved file)
  | Raise _ => False
  | SysExit c =>
      (c = 1%Z
       /\ exists msg, last (w_log (snd (run_main cl fuel w))) = Some (ERROR, msg))
      \/ (c = 2%Z /\ cl = UsageError /\ snd (run_main cl fuel w) = w)
      \/ (c = 0%Z
          /\ exists help,
               cl = HelpAsked help
               /\ w_log (snd (run_main cl fuel w)) = w_log w
               /\ w_stdout (snd (run_main cl fuel w)) = w_stdout w ++ [help]
               /\ w_files (snd (run_main cl fuel w)) = w_files w
               /\ w_requests (snd (run_main cl fuel w)) = w_requests w)
  | OutOfFuel => True
  end.
Proof.
  destruct cl as [args | help |].
  - rewrite run_main_parsed. pose proof (main_after_parsing fuel args w) as H.
    destruct (fst (main fuel args w)); try done. by left.
  - right. right. split; [done |]. by exists help.
  - right. left. done.
Qed.

(** The URL parser returns a pair and leaves the world alone, or logs one
    error and exits; which of the two depends on the URL only. *)
Lemma parse_github_url_cases (repo_url : string) :
  (exists owner repo,
     forall w, parse_github_url repo_url w = (Return (owner, repo), w))
  \/ (exists msg,
        forall w, parse_github_url repo_url w = (SysExit 1, add_log [(ERROR, msg)] w)).
Proof.
  unfold parse_github_url, try_except, Urllib.urlparse.
  destruct (Urllib.urlparse_str repo_url) as [parsed |];
    [| right; by exists (MsgErrorParsingUrl ValueError)].
  rewrite ret_bind. cbv zeta.
  destruct (Str.split "/" (Str.strip _ (Urllib.path parsed))) as [|owner [|repo rest]].
  - right. by exists MsgInvalidUrl.
  - right. by exists MsgInvalidUrl.
  - left. by exists owner, repo.
Qed.

(** A bind whose first computation does not return ends as it does. *)
Lemma bind_stops {A B} (m : M A) (k : A -> M B) (w : world) :
  (forall a, fst (m w) <> Return a) ->
  (m ≫= k) w
  = (match fst (m w) with
     | Raise e => Raise e
     | SysExit c => SysExit c
     | _ => OutOfFuel
     end, snd (m w)).
Proof.
  unfold mbind, M_bind. destruct (m w) as [[a | e | c |] w1]; simpl; try done.
  intros H. by destruct (H a).
Qed.

(** X15: the orchestrator checks the start date, then the URL, before it
    does anything else: when the start date is no [%Y-%m-%d] date, or the
    URL parser does not return, it exits with status 1 and all it has done
    is to log one error; no request is sent, nothing printed or written. *)
Theorem main_checks_before_fetching (fuel : nat) (args : arguments) (w : world) :
  strptime_str (arg_start_date args) "%Y-%m-%d" = None
  \/ (forall pair, fst (parse_github_url (arg_repo_url args) w) <> Return pair) ->
  exists msg, main fuel args w = (SysExit 1, add_log [(ERROR, msg)] w).
Proof.
  intros Hbad. unfold main, try_except. cbv zeta.
  destruct (strptime_str (arg_start_date args) "%Y-%m-%d") as [dt |] eqn:Hdate.
  - destruct Hbad as [? | Hurl]; [done |].
    rewrite (strptime_found _ _ _ Hdate), ret_bind.
    destruct (parse_github_url_cases (arg_repo_url args))
      as [(owner & repo & Hrun) | (msg & Hrun)].
    + exfalso. apply (Hurl (owner, repo)). by rewrite Hrun.
    + exists msg. unfold mbind, M_bind. by rewrite Hrun.
  - exists (MsgUnexpected ValueError). unfold mbind, M_bind, strptime. by rewrite Hdate.
Qed.

Lemma main_checks_before_fetching_witness :
  exists msg,
    main 5 {| arg_repo_url := "https://github.com/acme/widget";
              arg_start_date := "01/02/2024"; arg_output := None;
              arg_package_name := None; arg_token := None;
              arg_include_prereleases := false |} scenario_world
    = (SysExit 1, add_log [(ERROR, msg)] scenario_world).
Proof. apply main_checks_before_fetching. left. reflexivity. Defined.

(** X16: nothing is printed and no file is touched unless the fetcher
    returns: with a good start date and URL, a fetcher that exits, raises
    or does not end makes the orchestrator end without returning, with the
    standard output and the files as they were. *)
Theorem main_nothing_without_releases (fuel : nat) (args : arguments) (w : world)
    (dt : datetime) (owner repo : string) :
  strptime_str (arg_start_date args) "%Y-%m-%d" = Some dt ->
  fst (parse_github_url (arg_repo_url args) w) = Return (owner, repo) ->
  (forall releases,
     fst (fetch_releases fuel owner repo (arg_token args) w) <> Return releases) ->
  fst (main fuel args w) <> Return tt
  /\ w_stdout (snd (main fuel args w)) = w_stdout w
  /\ w_files (snd (main fuel args w)) = w_files w.
Proof.
  intros Hdate Hurl Hfetch. unfold main, try_except. cbv zeta.
  rewrite (strptime_found _ _ _ Hdate), ret_bind.
  destruct (parse_github_url_cases (arg_repo_url args))
    as [(owner' & repo' & Hrun) | (msg & Hrun)];
    rewrite Hrun in Hurl; [| discriminate].
  injection Hurl as -> ->.
  rewrite (bind_run _ _ _ _ _ (Hrun w)). cbn iota. rewrite (bind_stops _ _ _ Hfetch).
  destruct (fetch_releases fuel owner repo (arg_token args) w) as [[rs | e | c |] w1]
    eqn:Hrun1.
  - by destruct (Hfetch rs).
  - apply quiet_fetch_loop in Hrun1 as (Hf & Hs & _). simpl. by rewrite Hf, Hs.
  - apply quiet_fetch_loop in Hrun1 as (Hf & Hs & _). simpl. by rewrite Hf, Hs.
  - apply quiet_fetch_loop in Hrun1 as (Hf & Hs & _). simpl. by rewrite Hf, Hs.
Qed.

Lemma main_nothing_without_releases_witness :
  fst (main 5 {| arg_repo_url := "https://github.com/acme/widget";
                 arg_start_date := "2024-01-01"; arg_output := None;
                 arg_package_name := None; arg_token := None;
                 arg_include_prereleases := false |} idle_world) <> Return tt.
Proof.
  refine (proj1 (main_nothing_without_releases 5 _ idle_world
                   (midnight {| year := 2024; month := 1; day := 1 |})
                   "acme" "widget" _ _ _)).
  - reflexivity.
  - reflexivity.
  - intros releases. discriminate.
Defined.

Lemma output_path_nonempty (args : arguments) (owner repo : string) :
  output_path args owner repo <> "".
Proof.
  unfold output_path, default_file_name.
  assert (forall a b : string, b <> "" -> a +:+ b <> "") as Happ.
  { intros a b Hb. destruct a; [by rewrite append_nil_l | by rewrite append_cons]. }
  destruct (arg_output args) as [[|c p] |]; try done;
    destruct (arg_package_name args) as [[|c' p'] |]; repeat (apply Happ); done.
Qed.

(** X17: when do the entries reach the file: with a good start date and
    URL, a fetcher that returns and a path that can be opened (the one
    asked for, or the default name), the orchestrator returns; the lines
    it has printed and the lines of the file it has written are those of
    the same entries, the ones the filter selects from the fetched
    releases. *)
Theorem main_prints_and_saves (fuel : nat) (args : arguments) (w : world)
    (dt : datetime) (owner repo : string) (releases : list value) :
  strptime_str (arg_start_date args) "%Y-%m-%d" = Some dt ->
  fst (parse_github_url (arg_repo_url args) w) = Return (owner, repo) ->
  fst (fetch_releases fuel owner repo (arg_token args) w) = Return releases ->
  w_writable w (output_path args owner repo) = true ->
  exists entries,
    result (filter_releases releases (dt_date dt) (arg_package_name args)
              (arg_include_prereleases args)) = Return entries
    /\ fst (main fuel args w) = Return tt
    /\ w_stdout (snd (main fuel args w)) = w_stdout w ++ map entry_text entries
    /\ w_files (snd (main fuel args w))
       = <[output_path args owner repo := file_text entries]> (w_files w).
Proof.
  intros Hdate Hurl Hfetch Hwritable.
  destruct (filter_loop_run (dt_date dt) (arg_package_name args)
              (arg_include_prereleases args) releases) as (entries & recs & Hfilter & _).
  exists entries. split.
  { unfold result, filter_releases. by rewrite Hfilter. }
  destruct (parse_github_url_cases (arg_repo_url args))
    as [(owner' & repo' & Hrun) | (msg & Hrun)];
    rewrite Hrun in Hurl; [| discriminate].
  injection Hurl as -> ->.
  destruct (fetch_releases fuel owner repo (arg_token args) w) as [o w1] eqn:Hrun1.
  simpl in Hfetch. subst o.
  apply quiet_fetch_loop in Hrun1 as Hq. destruct Hq as (Hf1 & Hs1 & Hw1).
  destruct (print_entries entries (add_log recs w1)) as (w2 & Hprint & Hf2 & Hw2 & Hs2).
  assert (exists w3,
            (if negb (truthy_str (arg_output args))
             then
               let output_file :=
                 if truthy_str (arg_package_name args)
                 then owner +:+ "_" +:+ repo +:+ "_"
                      +:+ default "" (arg_package_name args) +:+ "_releases.txt"
                 else owner +:+ "_" +:+ repo +:+ "_releases.txt" in
               logging INFO (MsgDefaultOutput output_file) ≫= fun _ => mret output_file
             else mret (default "" (arg_output args))) w2
            = (Return (output_path args owner repo), w3)
            /\ w_files w3 = w_files w2 /\ w_stdout w3 = w_stdout w2
            /\ w_writable w3 = w_writable w2) as (w3 & Hname & Hf3 & Hs3 & Hw3).
  { unfold output_path, default_file_name.
    destruct (arg_output args) as [[|c p] |]; simpl;
      destruct (arg_package_name args) as [[|c' p'] |]; simpl; eexists; done. }
  assert (main fuel args w
          = (Return tt,
             add_log [(INFO, MsgSaved (output_path args owner repo))]
               (set_files (<[output_path args owner repo := file_text entries]> (w_files w3))
                  w3))) as ->.
  { unfold main, try_except. cbv zeta.
    rewrite (strptime_found _ _ _ Hdate), ret_bind.
    rewrite (bind_run _ _ _ _ _ (Hrun w)). cbn iota.
    rewrite (bind_run _ _ _ _ _ Hrun1).
    unfold filter_releases. rewrite (bind_run _ _ _ _ _ (Hfilter [] w1)). simpl app.
    rewrite (bind_run _ _ _ _ _ Hprint), (bind_run _ _ _ _ _ Hname).
    rewrite (save_to_file_writes entries (output_path args owner repo) w3); [done | |].
    - apply output_path_nonempty.
    - rewrite Hw3, Hw2. simpl. by rewrite Hw1. }
  simpl. rewrite Hs3, Hs2, Hf3, Hf2. simpl. by rewrite Hs1, Hf1.
Qed.

Lemma main_prints_and_saves_witness :
  exists entries,
    result (filter_releases scenario_releases scenario_start None false) = Return entries
    /\ fst (main 2 {| arg_repo_url := "https://github.com/acme/widget";
                      arg_start_date := "2024-01-01"; arg_output := Some "out.txt";
                      arg_package_name := None; arg_token := None;
                      arg_include_prereleases := false |} scenario_world) = Return tt
    /\ w_stdout (snd (main 2 {| arg_repo_url := "https://github.com/acme/widget";
                                arg_start_date := "2024-01-01"; arg_output := Some "out.txt";
                                arg_package_name := None; arg_token := None;
                                arg_include_prereleases := false |} scenario_world))
       = w_stdout scenario_world ++ map entry_text entries
    /\ w_files (snd (main 2 {| arg_repo_url := "https://github.com/acme/widget";
                               arg_start_date := "2024-01-01"; arg_output := Some "out.txt";
                               arg_package_name := None; arg_token := None;
                               arg_include_prereleases := false |} scenario_world))
       = <["out.txt" := file_text entries]> (w_files scenario_world).
Proof.
  refine (main_prints_and_saves 2
            {| arg_repo_url := "https://github.com/acme/widget";
               arg_start_date := "2024-01-01"; arg_output := Some "out.txt";
               arg_package_name := None; arg_token := None;
               arg_include_prereleases := false |} scenario_world
            (midnight scenario_start) "acme" "widget" scenario_releases _ _ _ _).
  - reflexivity.
  - reflexivity.
  - reflexivity.
  - reflexivity.
Defined.

(** ** The URL parser: the names it returns *)

Lemma split_on_fields (p : ascii -> bool) (s : string) :
  Forall (fun field => Str.all (fun c => negb (p c)) field = true) (Str.split_on p s).
Proof.
  induction s as [|c s IH]; simpl; [by repeat constructor |].
  destruct (p c) eqn:Hc; [by constructor |].
  destruct (Str.split_on p s) as [|f fs].
  - repeat constructor. simpl. by rewrite Hc.
  - apply Forall_cons in IH as [Hf Hfs]. constructor; [| done]. simpl. by rewrite Hc, Hf.
Qed.

(** X18: the owner and the repository name the URL parser returns contain
    no slash, so that each fills exactly one segment of the path of the
    API URL built from them. *)
Theorem url_names_have_no_slash (repo_url : string) (w : world) (owner repo : string) :
  fst (parse_github_url repo_url w) = Return (owner, repo) ->
  Str.mem "/" owner = false /\ Str.mem "/" repo = false.
Proof.
  assert (forall s, Str.all (fun c => negb (Ascii.eqb "/" c)) s = true ->
                    Str.mem "/" s = false) as Hmem.
  { induction s as [|c s IH]; [done |]. simpl. intros Hall.
    apply andb_true_iff in Hall as [Hc Hall]. apply negb_true_iff in Hc.
    by rewrite Hc, (IH Hall). }
  unfold parse_github_url, try_except, Urllib.urlparse.
  destruct (Urllib.urlparse_str repo_url) as [parsed |]; [| discriminate].
  rewrite ret_bind. cbv zeta. unfold Str.split.
  pose proof (split_on_fields (Ascii.eqb "/")
                (Str.strip (fun c => Ascii.eqb c "/") (Urllib.path parsed))) as Hfields.
  destruct (Str.split_on _ _) as [|owner' [|repo' rest]]; try discriminate.
  intros [= -> ->].
  apply Forall_cons in Hfields as [Ho Hfields]. apply Forall_cons in Hfields as [Hr _].
  split; by apply Hmem.
Qed.

Lemma url_names_have_no_slash_witness :
  Str.mem "/" "acme" = false /\ Str.mem "/" "widget" = false.
Proof.
  apply (url_names_have_no_slash "https://github.com/acme/widget/releases/tag/v1"
           idle_world "acme" "widget").
  reflexivity.
Defined.

(** ** The version extractor: the prefix and the version *)

(** X19: the package prefix and the version are read one after the other:
    under a non-empty package name, a tag [name==rest] gives the version,
    or the absence of one, that the tag [rest] gives when no package name
    is asked for. *)
Theorem extract_version_after_prefix (package_name rest : string) (w w' : world) :
  package_name <> "" ->
  fst (extract_version (VStr ((package_name +:+ "==") +:+ rest)) (Some package_name) w)
  = fst (extract_version (VStr rest) None w').
Proof.
  intros Hne. unfold extract_version, try_except.
  destruct package_name as [|c p]; [done |]. cbn [truthy_str String.eqb negb default].
  change (str_method (VStr ?s)) with (mret (M := M) s).
  unfold id. rewrite !ret_bind, startswith_app, drop_app, !ret_bind.
  change (str_method (VStr rest)) with (mret (M := M) rest).
  rewrite !ret_bind. cbv zeta. unfold Packaging.Version_of.
  destruct (Packaging.search _) as [g |]; [| done]. by destruct (Packaging.of_groups g).
Qed.

Lemma extract_version_after_prefix_witness :
  fst (extract_version (VStr (("widget" +:+ "==") +:+ "v1.2.3")) (Some "widget") idle_world)
  = fst (extract_version (VStr "v1.2.3") None scenario_world).
Proof. by apply extract_version_after_prefix. Defined.

(** ** The version extractor: what it takes for a pre-release *)

(** X20: what the code classifies.  A plain [X.Y.Z] is a version and not a
    pre-release; [X.Y.Z] followed by a pre-release segment of PEP 440 (an
    optional separator, one of the letters alpha, a, beta, b, preview, pre,
    c, rc, an optional separator, an optional number) is a version with
    that release, the normalised letter and the number (0 when absent), and
    is a pre-release.  The numbers are those [int] converts. *)
Theorem pep440_prerelease_classification :
  (forall X Y Z w,
     convertible X = true -> convertible Y = true -> convertible Z = true ->
     exists v,
       fst (extract_version (VStr (version_text X Y Z)) None w) = Return (Some v)
       /\ Packaging.is_prerelease v = false)
  /\ (forall X Y Z sep1 l sep2 num w,
        convertible X = true -> convertible Y = true -> convertible Z = true ->
        convertible (default 0%N num) = true ->
        sep1 ∈ separators -> l ∈ pre_letters -> sep2 ∈ separators ->
        exists v,
          fst (extract_version
                 (VStr (version_text X Y Z +:+ sep1 +:+ l +:+ sep2 +:+ number_text num))
                 None w)
          = Return (Some v)
          /\ Packaging.release v = [X; Y; Z]
          /\ Packaging.pre v = Some (Packaging.normal_letter l, default 0%N num)
          /\ Packaging.is_prerelease v = true).
Proof.
  split.
  - intros X Y Z w HX HY HZ. exists (plain_version X Y Z). split; [| done].
    apply extract_version_plain.
    rewrite <- (append_empty_r (version_text X Y Z)) at 1.
    rewrite startswith_v_version_text. by apply Version_of_version_text.
  - intros X Y Z sep1 l sep2 num w HX HY HZ Hnum Hs1 Hl Hs2.
    destruct (pre_letter_facts l Hl) as (Hpicks & Hhead & Hlow).
    assert (Str.all Str.is_digit (number_text num) = true) as Hdn.
    { destruct num; [apply all_digit_of_N | done]. }
    exists {| Packaging.epoch := 0; Packaging.release := [X; Y; Z];
              Packaging.pre := Some (Packaging.normal_letter l, default 0%N num);
              Packaging.post := None; Packaging.dev := None; Packaging.local := None |}.
    split; [| done].
    apply extract_version_plain. rewrite startswith_v_version_text.
    apply (Version_of_found _
             {| Packaging.g_epoch := "";
                Packaging.g_release := [Str.of_N X; Str.of_N Y; Str.of_N Z];
                Packaging.g_pre_l := l; Packaging.g_pre_n := number_text num;
                Packaging.g_post_l := ""; Packaging.g_post_n := "";
                Packaging.g_dev_l := ""; Packaging.g_dev_n := "";
                Packaging.g_local := None |}).
    + unfold version_text. rewrite !append_assoc.
      rewrite search_three; try first [apply all_digit_of_N | apply of_N_nonempty].
      * unfold Packaging.search_suffix, Packaging.pre_segment.
        change (["alpha"; "a"; "beta"; "b"; "preview"; "pre"; "c"; "rc"]) with pre_letters.
        by rewrite (letter_segment_match pre_letters sep1 l sep2 _ Hs1 Hs2 Hpicks Hhead Hdn).
      * rewrite !lower_app, (lower_separator _ Hs1), (lower_separator _ Hs2), Hlow.
        by rewrite (lower_digits _ Hdn).
      * clear Hpicks Hhead Hlow. elem_cases Hs1; elem_cases Hl.
    + unfold Packaging.of_groups.
      cbn [Packaging.g_epoch Packaging.g_release Packaging.g_pre_l Packaging.g_pre_n
           Packaging.g_post_l Packaging.g_post_n Packaging.g_dev_l Packaging.g_dev_n
           Packaging.g_local String.eqb].
      cbn [mapM fmap list_fmap]. rewrite (int_of_N X HX), (int_of_N Y HY), (int_of_N Z HZ).
      assert (Packaging._parse_letter_version l (number_text num)
              = Some (Some (Packaging.normal_letter l, default 0%N num))) as ->.
      { unfold Packaging._parse_letter_version.
        assert (String.eqb l "" = false) as -> by (by destruct l).
        destruct num as [n |]; simpl in *; [| done].
        assert (String.eqb (Str.of_N n) "" = false) as ->
            by (apply String.eqb_neq, of_N_nonempty).
        by rewrite (int_of_N n Hnum). }
      reflexivity.
Qed.

Lemma pep440_prerelease_classification_witness :
  exists v,
    fst (extract_version
           (VStr (version_text 1 0 0 +:+ "-" +:+ "beta" +:+ "." +:+ number_text (Some 1%N)))
           None idle_world)
    = Return (Some v)
    /\ Packaging.release v = [1; 0; 0]%N
    /\ Packaging.pre v = Some (Packaging.normal_letter "beta", default 0%N (Some 1%N))
    /\ Packaging.is_prerelease v = true.
Proof.
  refine (proj2 pep440_prerelease_classification 1%N 0%N 0%N "-" "beta" "." (Some 1%N)
            idle_world _ _ _ _ _ _ _).
  - reflexivity.
  - reflexivity.
  - reflexivity.
  - reflexivity.
  - vm_compute. set_solver.
  - vm_compute. set_solver.
  - vm_compute. set_solver.
Defined.
